(** * qsearch gate algebra: a shallow embedding of [qsearch/gates.py]

    The development follows the Python module class by class.  Python
    exceptions are an error result, Python integers are [Z], numpy arrays
    live in a store of array objects addressed by references (so that the
    [out=] buffers of [np.matmul] alias exactly as in the source), and the
    scalar arithmetic of numpy is kept abstract. *)

From Stdlib Require Import ZArith Lia Ring.
From stdpp Require Import base list strings pretty.

Set Warnings "-register-all".

(** ** Python preliminaries *)

(** The exceptions raised by the modelled code.  [SystemError] stands for a
    read through a reference that names no live object; Python itself never
    produces such a reference. *)
Inductive exn :=
| IndexError | NameError | AttributeError | TypeError
| NotImplementedError | SystemError.

Inductive result (A : Type) :=
| Ok (a : A)
| Raise (e : exn).
Arguments Ok {A} a.
Arguments Raise {A} e.

#[global] Instance result_ret : MRet result := λ A a, Ok a.
#[global] Instance result_bind : MBind result :=
  λ A B f m, match m with Ok a => f a | Raise e => Raise e end.

(** What a Python function hands back when its result is used as a truth
    value: [None] (falling off the end of the body) or a [bool]. *)
Inductive pyval :=
| PyNone
| PyBool (b : bool).

Definition truthy (x : pyval) : bool :=
  match x with PyNone => false | PyBool b => b end.

(** Normalisation of one slice bound against a sequence of length [len]:
    negative bounds count from the end, everything is clamped. *)
Definition py_clamp (len i : Z) : Z :=
  if (i <? 0)%Z then Z.max (i + len) 0 else Z.min i len.

(** [l[start:stop]] *)
Definition py_slice {A} (l : list A) (start stop : Z) : list A :=
  let n := Z.of_nat (length l) in
  let a := py_clamp n start in
  let b := py_clamp n stop in
  take (Z.to_nat (b - a)) (drop (Z.to_nat a) l).

(** [l[:stop]] and [l[start:]] *)
Definition py_slice_to {A} (l : list A) (stop : Z) : list A :=
  py_slice l 0 stop.
Definition py_slice_from {A} (l : list A) (start : Z) : list A :=
  py_slice l start (Z.of_nat (length l)).

(** [l[i]] for a non-negative index. *)
Definition py_index {A} (l : list A) (i : nat) : result A :=
  match l !! i with Some x => Ok x | None => Raise IndexError end.

(** [sep.join(rs)] *)
Fixpoint str_join (sep : string) (rs : list string) : string :=
  match rs with
  | [] => EmptyString
  | [r] => r
  | r :: rest => r +:+ sep +:+ str_join sep rest
  end.

(** [repr] of a list and of a tuple whose elements have the given reprs. *)
Definition repr_list (rs : list string) : string :=
  "[" +:+ str_join ", " rs +:+ "]".
Definition repr_tuple (rs : list string) : string :=
  match rs with
  | [r] => "(" +:+ r +:+ ",)"
  | _ => "(" +:+ str_join ", " rs +:+ ")"
  end.

(** [s[1:-1]] *)
Definition strip_ends (s : string) : string :=
  String.substring 1 (String.length s - 2) s.

(** [warn] is called by the [validate_structure] methods, but the module
    binds no such name: its imports are [numpy as np], [utils],
    [unitaries], [md5] and [native_from_object], and [warn] is not a
    builtin.  Evaluating the call therefore raises [NameError] before the
    message is even formatted. *)
Definition warn (msg : string) : result unit := Raise NameError.

(** ** The gate classes *)

(** [type(g)] *)
Inductive gate_class :=
| cIdentityGate | cXGate | cYGate | cZGate | cZXZXZGate | cXZXZGate
| cU3Gate | cU2Gate | cU1Gate | cSingleQutritGate | cCSUMGate | cCPIGate
| cCPIPhaseGate | cCNOTGate | cCZGate | cISwapGate | cXXGate
| cNonadjacentCNOTGate | cUGate | cUpgradedConstantGate | cCUGate
| cCNOTRootGate | cKroneckerGate | cProductGate.

#[global] Instance gate_class_eq_dec : EqDecision gate_class.
Proof. solve_decision. Defined.

Section Gates.
(** The type of numpy arrays stored in gate objects. *)
Context {ndarray : Type}.

Local Open Scope Z_scope.

(** A gate object: its class and the instance attributes read by the
    methods modelled here.  The composite classes carry [num_inputs] and
    [qudits] as attributes of their own, as assigned by [__init__] (or
    by whoever pokes the object afterwards). *)
Inductive Gate :=
| IdentityGate (qudits d : Z)
| XGate | YGate | ZGate | ZXZXZGate | XZXZGate
| U3Gate | U2Gate | U1Gate
| SingleQutritGate | CSUMGate | CPIGate
| CPIPhaseGate (_cpi : ndarray)
| CNOTGate | CZGate | ISwapGate | XXGate
| NonadjacentCNOTGate (qudits control target : Z)
| UGate (U : ndarray) (d qudits : Z) (gatename : string)
| UpgradedConstantGate (subgate : Gate) (df : Z)
| CUGate (_U : ndarray) (gatename : string) (flipped : bool)
| CNOTRootGate
| KroneckerGate (num_inputs : Z) (_subgates : list Gate) (qudits : Z)
| ProductGate (num_inputs : Z) (_subgates : list Gate) (qudits : Z).

Definition type (g : Gate) : gate_class :=
  match g with
  | IdentityGate _ _ => cIdentityGate
  | XGate => cXGate | YGate => cYGate | ZGate => cZGate
  | ZXZXZGate => cZXZXZGate | XZXZGate => cXZXZGate
  | U3Gate => cU3Gate | U2Gate => cU2Gate | U1Gate => cU1Gate
  | SingleQutritGate => cSingleQutritGate
  | CSUMGate => cCSUMGate | CPIGate => cCPIGate
  | CPIPhaseGate _ => cCPIPhaseGate
  | CNOTGate => cCNOTGate | CZGate => cCZGate
  | ISwapGate => cISwapGate | XXGate => cXXGate
  | NonadjacentCNOTGate _ _ _ => cNonadjacentCNOTGate
  | UGate _ _ _ _ => cUGate
  | UpgradedConstantGate _ _ => cUpgradedConstantGate
  | CUGate _ _ _ => cCUGate
  | CNOTRootGate => cCNOTRootGate
  | KroneckerGate _ _ _ => cKroneckerGate
  | ProductGate _ _ _ => cProductGate
  end.

(** [g.num_inputs] *)
Definition gate_num_inputs (g : Gate) : Z :=
  match g with
  | XGate | YGate | ZGate | U1Gate => 1
  | XZXZGate | U2Gate => 2
  | ZXZXZGate | U3Gate => 3
  | SingleQutritGate => 8
  | KroneckerGate n _ _ | ProductGate n _ _ => n
  | _ => 0
  end.

(** [g.qudits] *)
Fixpoint gate_qudits (g : Gate) : Z :=
  match g with
  | IdentityGate q _ => q
  | XGate | YGate | ZGate | ZXZXZGate | XZXZGate
  | U3Gate | U2Gate | U1Gate | SingleQutritGate => 1
  | CSUMGate | CPIGate | CPIPhaseGate _
  | CNOTGate | CZGate | ISwapGate | XXGate
  | CUGate _ _ _ | CNOTRootGate => 2
  | NonadjacentCNOTGate q _ _ => q
  | UGate _ _ q _ => q
  | UpgradedConstantGate other _ => gate_qudits other
  | KroneckerGate _ _ q | ProductGate _ _ q => q
  end.

(** [sum([f(gate) for gate in gates])] *)
Definition py_sum (f : Gate → Z) (gates : list Gate) : Z :=
  foldl (λ acc g, acc + f g) 0 gates.

(** *** [KroneckerGate.__init__] *)
Definition KroneckerGate_init (subgates : list Gate) : Gate :=
  KroneckerGate (py_sum gate_num_inputs subgates)
                subgates
                (py_sum gate_qudits subgates).

(** *** [ProductGate.__init__]

    The loop over [subgates] extends [self._subgates] by the children of
    every argument whose type is exactly [ProductGate] and appends every
    other argument. *)
Fixpoint ProductGate_init_loop (subgates _subgates : list Gate) : list Gate :=
  match subgates with
  | [] => _subgates
  | subgate :: rest =>
      match subgate with
      | ProductGate _ inner _ => ProductGate_init_loop rest (_subgates ++ inner)
      | _ => ProductGate_init_loop rest (_subgates ++ [subgate])
      end
  end.

Definition ProductGate_init (subgates : list Gate) : Gate :=
  ProductGate (py_sum gate_num_inputs subgates)
              (ProductGate_init_loop subgates [])
              (match subgates with
               | [] => 0
               | first :: _ => gate_qudits first
               end).

(** [self._subgates] of a composite. *)
Definition subgates_of (g : Gate) : list Gate :=
  match g with
  | KroneckerGate _ s _ | ProductGate _ s _ => s
  | _ => []
  end.

(** *** [KroneckerGate.appending], [ProductGate.appending],
    [ProductGate.inserting] *)
Definition KroneckerGate_appending (self gate : Gate) : Gate :=
  KroneckerGate_init (subgates_of self ++ [gate]).

Definition ProductGate_appending (self : Gate) (gates : list Gate) : Gate :=
  ProductGate_init (subgates_of self ++ gates).

Definition ProductGate_inserting (self : Gate) (gates : list Gate) (depth : Z) : Gate :=
  ProductGate_init (py_slice_to (subgates_of self) depth
                    ++ gates
                    ++ py_slice_from (subgates_of self) depth).

(** The default value of the keyword argument [depth]. *)
Definition inserting_default_depth : Z := -1.

(** *** [__repr__]

    [UGate.__repr__] formats [repr(U)], but [U] is neither a local nor a
    module-level name, so it raises [NameError]; [CUGate.__repr__] reads
    [self.name], an attribute that [__init__] never sets, so it raises
    [AttributeError].  [KroneckerGate] keeps its children in a tuple,
    [ProductGate] in a list. *)
Fixpoint repr (g : Gate) : result string :=
  match g with
  | IdentityGate q d =>
      if bool_decide (q = 1) && bool_decide (d = 2)
      then Ok "IdentityGate()"
      else Ok ("IdentityGate(qudits=" +:+ pretty q +:+ ", d=" +:+ pretty d +:+ ")")
  | XGate => Ok "XGate()"
  | YGate => Ok "YGate()"
  | ZGate => Ok "ZGate()"
  | ZXZXZGate => Ok "ZXZXZGate()"
  | XZXZGate => Ok "XZXZGate()"
  | U3Gate => Ok "U3Gate()"
  | U2Gate => Ok "U2Gate()"
  | U1Gate => Ok "U1Gate()"
  | SingleQutritGate => Ok "SingleQutritGate()"
  | CSUMGate => Ok "CSUMGate()"
  | CPIGate => Ok "CPIGate()"
  | CPIPhaseGate _ => Ok "CPIPhaseGate()"
  | CNOTGate => Ok "CNOTGate()"
  | CZGate => Ok "CZGate()"
  | ISwapGate => Ok "ISwapGate()"
  | XXGate => Ok "XXGate()"
  | NonadjacentCNOTGate q c t =>
      Ok ("NonadjacentCNOTGate(" +:+ pretty q +:+ ", " +:+ pretty c
          +:+ ", " +:+ pretty t +:+ ")")
  | UGate _ _ _ _ => Raise NameError
  | UpgradedConstantGate sub df =>
      r ← repr sub;
      Ok ("UpgradedConstantGate(" +:+ r +:+ ", df=" +:+ pretty df +:+ ")")
  | CUGate _ _ _ => Raise AttributeError
  | CNOTRootGate => Ok "CNOTRootGate()"
  | KroneckerGate _ subs _ =>
      rs ← (fix reprs (l : list Gate) : result (list string) :=
              match l with
              | [] => Ok []
              | s :: l' => r ← repr s; rs ← reprs l'; Ok (r :: rs)
              end) subs;
      Ok ("KroneckerGate(" +:+ strip_ends (repr_tuple rs) +:+ ")")
  | ProductGate _ subs _ =>
      rs ← (fix reprs (l : list Gate) : result (list string) :=
              match l with
              | [] => Ok []
              | s :: l' => r ← repr s; rs ← reprs l'; Ok (r :: rs)
              end) subs;
      Ok ("ProductGate(" +:+ strip_ends (repr_list rs) +:+ ")")
  end.

(** *** [__eq__] and [__hash__] *)

(** [Gate.__eq__] *)
Definition Gate_eq (self other : Gate) : result bool :=
  r1 ← repr self;
  r2 ← repr other;
  Ok (bool_decide (r1 = r2)).

(** The [__eq__] that [U3Gate], [U2Gate], [U1Gate], [CNOTGate], [CZGate],
    [ISwapGate] and [XXGate] define for themselves. *)
Definition type_eq (self other : Gate) : result bool :=
  Ok (bool_decide (type self = type other)).

(** The classes whose body defines [__eq__]. *)
Definition defines_eq (c : gate_class) : bool :=
  match c with
  | cU3Gate | cU2Gate | cU1Gate | cCNOTGate | cCZGate | cISwapGate | cXXGate => true
  | _ => false
  end.

(** [self == other]: every gate class derives from [Gate] directly, so
    the left operand's [__eq__] is the one that runs. *)
Definition py_eq (self other : Gate) : result bool :=
  if defines_eq (type self) then type_eq self other else Gate_eq self other.

(** [int(md5(s.encode()).hexdigest(), 16)], from [hashlib]. *)
Context (md5_int : string → Z).

(** [Gate.__hash__] *)
Definition Gate_hash (self : Gate) : result Z :=
  r ← repr self;
  Ok (md5_int r).

(** [self.__hash__()].  A class whose body defines [__eq__] without
    defining [__hash__] gets [__hash__ = None] from Python's data model,
    so hashing its instances raises [TypeError]; no class of the module
    other than [Gate] defines [__hash__]. *)
Definition py_hash (self : Gate) : result Z :=
  if defines_eq (type self) then Raise TypeError else Gate_hash self.

(** *** [validate_structure] *)
Fixpoint validate_structure (g : Gate) : result pyval :=
  match g with
  | NonadjacentCNOTGate qudits control target =>
      if (control >=? qudits) || (target >? qudits) then
        _ ← warn "Invalid NonadjacentCNOTGate; both control and target must be smaller than dits.";
        Ok (PyBool false)
      else if control =? target then
        _ ← warn "Invalid NonadjacentCNOTGate: control and target must be different.";
        Ok (PyBool false)
      else Ok (PyBool true)
  | KroneckerGate self_num_inputs subs self_qudits =>
      '(valid, num_inputs, dits) ←
        (fix loop (l : list Gate) (valid : bool) (num_inputs dits : Z)
           : result (bool * Z * Z) :=
           match l with
           | [] => Ok (valid, num_inputs, dits)
           | subgate :: l' =>
               r ← validate_structure subgate;
               let valid := if negb (truthy r) then false else valid in
               loop l' valid (num_inputs + gate_num_inputs subgate)
                    (dits + gate_qudits subgate)
           end) subs true 0 0;
      valid ← (if negb (num_inputs =? self_num_inputs) then
                 _ ← warn "KroneckerGate had a num_inputs mismatch"; Ok false
               else Ok valid);
      valid ← (if negb (dits =? self_qudits) then
                 _ ← warn "KroneckerGate had a dits mismatch"; Ok false
               else Ok valid);
      Ok (PyBool valid)
  | ProductGate self_num_inputs subs self_qudits =>
      '(valid, num_inputs) ←
        (fix loop (l : list Gate) (valid : bool) (num_inputs : Z)
           : result (bool * Z) :=
           match l with
           | [] => Ok (valid, num_inputs)
           | subgate :: l' =>
               valid ← (if negb (gate_qudits subgate =? self_qudits) then
                          _ ← warn "ProductGate had a size mismatch"; Ok false
                        else Ok valid);
               r ← validate_structure subgate;
               let valid := if negb (truthy r) then false else valid in
               loop l' valid (num_inputs + gate_num_inputs subgate)
           end) subs true 0;
      valid ← (if negb (num_inputs =? self_num_inputs) then
                 _ ← warn "ProductGate had a num_inputs mismatch"; Ok false
               else Ok valid);
      let valid := true in
      Ok PyNone
  | _ => Ok (PyBool true)
  end.

End Gates.

Arguments Gate : clear implicits.

(** ** Dense arrays with explicit entries

    Used where the source writes a matrix out entry by entry
    ([CPIPhaseGate.__init__]).  The scalars are abstract: [c0], [c1],
    addition, multiplication and negation of [complex128]. *)
Section Dense.
Context {C : Type} (c0 c1 : C) (cadd cmul : C → C → C) (copp : C → C).

Definition dense : Type := list (list C).

Definition dense_dot (r c : list C) : C :=
  foldr cadd c0 (zip_with cmul r c).

Fixpoint dense_transpose (B : dense) : dense :=
  match B with
  | [] => []
  | [r] => map (λ x, [x]) r
  | r :: rest => zip_with cons r (dense_transpose rest)
  end.

(** [np.matmul(A, B)] on two-dimensional arrays. *)
Definition dense_matmul (A B : dense) : dense :=
  map (λ r, map (dense_dot r) (dense_transpose B)) A.

(** [np.diag(d)] for a one-dimensional [d]. *)
Definition np_diag (d : list C) : dense :=
  imap (λ i x, <[i := x]> (replicate (length d) c0)) d.

(** *** [CPIPhaseGate]

    The constructor reads the global random generator of numpy five times.
    The generator is threaded through explicitly: [random] is
    [np.random.random()], and [cexp_2j_pi r] is [np.exp(2j * r * np.pi)]. *)
Context {rng R : Type} (random : rng → R * rng) (cexp_2j_pi : R → C).

(** [[np.exp(2j * np.random.random()*np.pi) for _ in range(0, n)]] *)
Fixpoint draw_phases (n : nat) (s : rng) : list C * rng :=
  match n with
  | O => ([], s)
  | S n' =>
      let '(r, s) := random s in
      let '(ps, s) := draw_phases n' s in
      (cexp_2j_pi r :: ps, s)
  end.

Definition cpi_phase_base : dense :=
  let o := c0 in let l := c1 in let m := copp c1 in
  [ [l;o;o; o;o;o; o;o;o];
    [o;l;o; o;o;o; o;o;o];
    [o;o;l; o;o;o; o;o;o];
    [o;o;o; o;m;o; o;o;o];
    [o;o;o; l;o;o; o;o;o];
    [o;o;o; o;o;l; o;o;o];
    [o;o;o; o;o;o; l;o;o];
    [o;o;o; o;o;o; o;l;o];
    [o;o;o; o;o;o; o;o;l] ].

(** The array that [__init__] stores when the five phases drawn are
    [e0 .. e4], entry by entry. *)
Definition cpi_phase_matrix (e0 e1 e2 e3 e4 : C) : dense :=
  let o := c0 in let l := c1 in
  [ [l;o;o; o;o;o; o;o;o];
    [o;l;o; o;o;o; o;o;o];
    [o;o;l; o;o;o; o;o;o];
    [o;o;o; o;cmul (copp c1) e0;o; o;o;o];
    [o;o;o; l;o;o; o;o;o];
    [o;o;o; o;o;e1; o;o;o];
    [o;o;o; o;o;o; e2;o;o];
    [o;o;o; o;o;o; o;e3;o];
    [o;o;o; o;o;o; o;o;e4] ].

(** [CPIPhaseGate.__init__] *)
Definition CPIPhaseGate_init (s : rng) : Gate dense * rng :=
  let _cpi := cpi_phase_base in
  let '(phases, s) := draw_phases 5 s in
  let diag_mod := np_diag (replicate 4 c1 ++ phases) in
  let _cpi := dense_matmul _cpi diag_mod in
  (CPIPhaseGate _cpi, s).

(** [CPIPhaseGate.matrix]: the stored array, whatever [v] is. *)
Definition CPIPhaseGate_matrix (self : Gate dense) (v : list R) : result dense :=
  match self with
  | CPIPhaseGate _cpi => Ok _cpi
  | _ => Raise AttributeError
  end.

End Dense.

(** ** numpy arrays as objects

    An array is an object in a store; variables and list elements hold
    references.  [np.matmul(..., out=b)] overwrites the object [b] and
    returns [b] itself, so a result can alias a buffer or an operand. *)
Definition ref : Type := nat.

Section Numpy.
Context {ndarray : Type}.

Definition heap : Type := list ndarray.

(** A Python computation: it runs on the store and either returns a value
    with the new store or raises. *)
Definition Py (A : Type) : Type := heap → result (A * heap).

#[global] Instance Py_ret : MRet Py := λ A a h, Ok (a, h).
#[global] Instance Py_bind : MBind Py :=
  λ A B f m h, match m h with Ok (a, h') => f a h' | Raise e => Raise e end.

Definition py_lift {A} (r : result A) : Py A :=
  λ h, match r with Ok a => Ok (a, h) | Raise e => Raise e end.

(** Allocation of a new array object, and access through a reference. *)
Definition np_new (x : ndarray) : Py ref :=
  λ h, Ok (length h, h ++ [x]).
Definition np_get (r : ref) : Py ndarray :=
  λ h, match h !! r with Some x => Ok (x, h) | None => Raise SystemError end.
Definition np_set (r : ref) (x : ndarray) : Py unit :=
  λ h, match h !! r with Some _ => Ok (tt, <[r := x]> h) | None => Raise SystemError end.

(** The array arithmetic of numpy: [matmul] is [np.matmul], [eye] the
    identity [np.eye(n)] and [adjoint X] is [X.T.conjugate()], on the
    square complex matrices of one gate size; [kron] is [np.kron]. *)
Context (matmul : ndarray → ndarray → ndarray) (eye : ndarray)
        (adjoint : ndarray → ndarray) (kron : ndarray → ndarray → ndarray).

(** [a.copy()] *)
Definition np_copy (a : ref) : Py ref :=
  x ← np_get a; np_new x.

(** [np.eye(a.shape[0], dtype='complex128')] *)
Definition np_eye_like (a : ref) : Py ref :=
  _ ← np_get a; np_new eye.

(** [a.T.conjugate()]: a new array. *)
Definition np_T_conjugate (a : ref) : Py ref :=
  x ← np_get a; np_new (adjoint x).

(** [np.matmul(a, b, out=out)]: both operands are read before [out] is
    written (numpy buffers an output that overlaps an input). *)
Definition np_matmul_out (a b out : ref) : Py ref :=
  x ← np_get a; y ← np_get b; _ ← np_set out (matmul x y); mret out.

(** [np.kron(a, b)]: a new array. *)
Definition np_kron (a b : ref) : Py ref :=
  x ← np_get a; y ← np_get b; np_new (kron x y).

(** *** The interface of a child gate

    The composite classes use a child only through [gate.num_inputs],
    [gate.matrix(v)] and [gate.mat_jac(v)].  [P] is the type of one
    parameter (a float). *)
Context {P : Type}.

Record GateObj := {
  num_inputs : Z;
  matrix : list P → Py ref;
  mat_jac : list P → Py (ref * list ref)
}.

(** [Gate.mat_jac], inherited by the classes that define no [mat_jac]. *)
Definition Gate_mat_jac (self_num_inputs : Z) (self_matrix : list P → Py ref)
    (v : list P) : Py (ref * list ref) :=
  if (self_num_inputs =? 0)%Z then U ← self_matrix v; mret (U, [])
  else py_lift (Raise NotImplementedError).

(** The loop that both composite [matrix] methods start with:
    [U = gate.matrix(v[index:index+gate.num_inputs]); matrices.append(U);
    index += gate.num_inputs]. *)
Fixpoint collect_matrices (gates : list GateObj) (v : list P) (index : Z)
    : Py (list ref) :=
  match gates with
  | [] => mret []
  | gate :: rest =>
      U ← matrix gate (py_slice v index (index + num_inputs gate));
      matrices ← collect_matrices rest v (index + num_inputs gate);
      mret (U :: matrices)
  end.

(** The same loop in the [mat_jac] methods: one pair (matrix, Jacobians)
    per child. *)
Fixpoint collect_matjacs (gates : list GateObj) (v : list P) (index : Z)
    : Py (list (ref * list ref)) :=
  match gates with
  | [] => mret []
  | gate :: rest =>
      MJ ← mat_jac gate (py_slice v index (index + num_inputs gate));
      matjacs ← collect_matjacs rest v (index + num_inputs gate);
      mret (MJ :: matjacs)
  end.

(** *** [KroneckerGate.matrix] *)
Fixpoint kron_matrix_loop (matrices : list ref) (U : ref) : Py ref :=
  match matrices with
  | [] => mret U
  | matrix :: rest => U ← np_kron U matrix; kron_matrix_loop rest U
  end.

Definition KroneckerGate_matrix (_subgates : list GateObj) (v : list P) : Py ref :=
  if (length _subgates <? 2)%nat then
    gate ← py_lift (py_index _subgates 0);
    matrix gate v
  else
    matrices ← collect_matrices _subgates v 0;
    U ← py_lift (py_index matrices 0);
    kron_matrix_loop (py_slice_from matrices 1) U.

(** *** [KroneckerGate.mat_jac]

    [U] starts as [None]; the three statements of the loop body are
    [kron_jacs_right], [kron_jacs_append] and the update of [U]. *)
Fixpoint kron_jacs_right (jacs : list ref) (M : ref) : Py (list ref) :=
  match jacs with
  | [] => mret []
  | J :: rest =>
      J' ← np_kron J M;
      rest' ← kron_jacs_right rest M;
      mret (J' :: rest')
  end.

Fixpoint kron_jacs_append (Js : list ref) (U : option ref) (jacs : list ref)
    : Py (list ref) :=
  match Js with
  | [] => mret jacs
  | J :: rest =>
      J' ← match U with None => mret J | Some U => np_kron U J end;
      kron_jacs_append rest U (jacs ++ [J'])
  end.

Fixpoint kron_mat_jac_loop (matjacs : list (ref * list ref)) (U : option ref)
    (jacs : list ref) : Py (option ref * list ref) :=
  match matjacs with
  | [] => mret (U, jacs)
  | (M, Js) :: rest =>
      jacs ← kron_jacs_right jacs M;
      jacs ← kron_jacs_append Js U jacs;
      U ← match U with None => mret M | Some U => np_kron U M end;
      kron_mat_jac_loop rest (Some U) jacs
  end.

Definition KroneckerGate_mat_jac (_subgates : list GateObj) (v : list P)
    : Py (option ref * list ref) :=
  if (length _subgates <? 2)%nat then
    gate ← py_lift (py_index _subgates 0);
    '(U, Js) ← mat_jac gate v;
    mret (Some U, Js)
  else
    matjacs ← collect_matjacs _subgates v 0;
    kron_mat_jac_loop matjacs None [].

(** *** [ProductGate.matrix]

    The three assignments at the end of the loop body leave both buffer
    variables naming the object [buffer1] started with. *)
Fixpoint product_matrix_loop (matrices : list ref) (U buffer1 buffer2 : ref)
    : Py ref :=
  match matrices with
  | [] => mret U
  | matrix :: rest =>
      U ← np_matmul_out matrix U buffer1;
      let buffertmp := buffer2 in
      let buffer2 := buffer1 in
      let buffer1 := buffer2 in
      product_matrix_loop rest U buffer1 buffer2
  end.

Definition ProductGate_matrix (_subgates : list GateObj) (v : list P) : Py ref :=
  if (length _subgates <? 2)%nat then
    gate ← py_lift (py_index _subgates 0);
    matrix gate v
  else
    matrices ← collect_matrices _subgates v 0;
    U ← py_lift (py_index matrices 0);
    buffer1 ← np_copy U;
    buffer2 ← np_copy U;
    product_matrix_loop (py_slice_from matrices 1) U buffer1 buffer2.

(** *** [ProductGate.mat_jac] *)

(** [for matrix in submats[1:]]: the full product accumulates in [A]. *)
Fixpoint product_suffix_loop (submats : list ref) (A ba1 ba2 : ref)
    : Py (ref * ref * ref) :=
  match submats with
  | [] => mret (A, ba1, ba2)
  | matrix :: rest =>
      A ← np_matmul_out matrix A ba1;
      let buffertmp := ba2 in
      let ba2 := ba1 in
      let ba1 := ba2 in
      product_suffix_loop rest A ba1 ba2
  end.

(** [for J in Js]: each Jacobian array of the child is overwritten in
    place with the composite Jacobian and appended to [jacs]. *)
Fixpoint product_jacs_loop (Js : list ref) (A B bj : ref) (jacs : list ref)
    : Py (list ref) :=
  match Js with
  | [] => mret jacs
  | J :: rest =>
      tmp ← np_matmul_out J B bj;
      J' ← np_matmul_out A tmp J;
      product_jacs_loop rest A B bj (jacs ++ [J'])
  end.

(** [for i, Js in enumerate(subjacs)] *)
Fixpoint product_scan_loop (subjacs : list (list ref)) (i : nat)
    (submats : list ref) (A B ba1 ba2 bb1 bb2 bj : ref) (jacs : list ref)
    : Py (ref * list ref) :=
  match subjacs with
  | [] => mret (B, jacs)
  | Js :: rest =>
      Ui ← py_lift (py_index submats i);
      Ut ← np_T_conjugate Ui;
      A ← np_matmul_out A Ut ba1;
      jacs ← product_jacs_loop Js A B bj jacs;
      Ui ← py_lift (py_index submats i);
      B ← np_matmul_out Ui B bb1;
      let buffertmp := ba1 in
      let ba1 := ba2 in
      let ba2 := buffertmp in
      let buffertmp := bb1 in
      let bb1 := bb2 in
      let bb2 := buffertmp in
      product_scan_loop rest (S i) submats A B ba1 ba2 bb1 bb2 bj jacs
  end.

(** The first loop of [mat_jac]: [U, Js = gate.mat_jac(...)];
    [submats.append(U)]; [subjacs.append(Js)]. *)
Definition collect_submats_subjacs (gates : list GateObj) (v : list P)
    : Py (list ref * list (list ref)) :=
  matjacs ← collect_matjacs gates v 0;
  mret (matjacs.*1, matjacs.*2).

Definition ProductGate_mat_jac (_subgates : list GateObj) (v : list P)
    : Py (ref * list ref) :=
  if (length _subgates <? 2)%nat then
    gate ← py_lift (py_index _subgates 0);
    mat_jac gate v
  else
    '(submats, subjacs) ← collect_submats_subjacs _subgates v;
    s0 ← py_lift (py_index submats 0);
    B ← np_eye_like s0;
    let A := s0 in
    let jacs := [] in
    ba1 ← np_copy A;
    let ba2 := A in
    bb1 ← np_copy B;
    let bb2 := B in
    bj ← np_copy B;
    '(A, ba1, ba2) ← product_suffix_loop (py_slice_from submats 1) A ba1 ba2;
    product_scan_loop subjacs 0 submats A B ba1 ba2 bb1 bb2 bj jacs.

End Numpy.

Arguments heap : clear implicits.
Arguments Py : clear implicits.
Arguments GateObj : clear implicits.

(** ** Vocabulary of the specification *)
Section Vocabulary.
Context {ndarray P : Type}.
Context (matmul : ndarray → ndarray → ndarray) (eye : ndarray)
        (adjoint : ndarray → ndarray) (kron : ndarray → ndarray → ndarray).

(** The reference [r] names an array whose value is [x]. *)
Definition holds (h : heap ndarray) (r : ref) (x : ndarray) : Prop :=
  h !! r = Some x.

(** The left-to-right Kronecker product [(..(U1 ⊗ U2) ⊗ ..) ⊗ Un] of a
    non-empty sequence. *)
Definition kron_chain (Us : list ndarray) : option ndarray :=
  match Us with
  | [] => None
  | U :: rest => Some (foldl kron U rest)
  end.

(** The product in circuit order, [Un · (.. · (U2 · U1))]: every further
    matrix is multiplied on the left of what has been accumulated. *)
Definition matmul_chain (Us : list ndarray) : option ndarray :=
  match Us with
  | [] => None
  | U :: rest => Some (foldl (λ acc m, matmul m acc) U rest)
  end.

(** The same product with the identity as the empty product. *)
Definition mprod (Us : list ndarray) : ndarray :=
  foldr (λ U acc, matmul acc U) eye Us.

(** The product of the children before, and after, child [k]. *)
Definition prod_before (k : nat) (Us : list ndarray) : ndarray :=
  mprod (take k Us).
Definition prod_after (k : nat) (Us : list ndarray) : ndarray :=
  mprod (drop (S k) Us).

(** [U] has its conjugate transpose as right inverse. *)
Definition unitary (U : ndarray) : Prop :=
  matmul U (adjoint U) = eye.

(** [self.num_inputs] of a composite built by its constructor. *)
Definition total_inputs (gates : list (GateObj ndarray P)) : Z :=
  foldl (λ acc g, (acc + num_inputs g)%Z) 0%Z gates.

(** The position, in the flat parameter vector, of parameter [i] of
    child [c]. *)
Definition param_index (gates : list (GateObj ndarray P)) (c i : nat) : nat :=
  Z.to_nat (total_inputs (take c gates)) + i.

(** "[v] sliced contiguously per child": [v] is cut into one slice per
    child, in the order of the children and without gaps, so that [v] is
    [concat slices], and the slice of a child has as many entries as the
    child has parameters. *)
Definition sliced_per_child (gates : list (GateObj ndarray P))
    (slices : list (list P)) : Prop :=
  Forall2 (λ g s, num_inputs g = Z.of_nat (length s)) gates slices.

(** "Compute each child's matrix": the children are called one after
    another, first child first, each on its own slice; the results come
    in the order of the children.  [method] is [matrix] or [mat_jac]. *)
Fixpoint call_children {A} (method : GateObj ndarray P → list P → Py ndarray A)
    (gates : list (GateObj ndarray P)) (slices : list (list P))
    : Py ndarray (list A) :=
  match gates, slices with
  | gate :: gates, s :: slices =>
      r ← method gate s;
      rs ← call_children method gates slices;
      mret (r :: rs)
  | _, _ => mret []
  end.

(** Child [k] returned one Jacobian for each of its parameters. *)
Definition one_per_input (g : GateObj ndarray P) (Js : list ndarray) : Prop :=
  num_inputs g = Z.of_nat (length Js).

End Vocabulary.

Section Expected.
Context {ndarray : Type}.
Context (matmul : ndarray → ndarray → ndarray) (eye : ndarray)
        (kron : ndarray → ndarray → ndarray).

(** The Kronecker product of the children's matrices [Us] with the factor
    of child [c] replaced by its Jacobian [J], for every child [c] and
    every Jacobian [J] of that child, child by child.  ([default] is never
    taken: a child [c] exists only when [Us] is non-empty.) *)
Definition kron_jacobians (Us : list ndarray) (Jss : list (list ndarray))
    : list ndarray :=
  concat (imap (λ c Js,
                  (λ J, default J (kron_chain kron (<[c := J]> Us))) <$> Js)
               Jss).

(** [(product of the children after k) · (J · (product of the children
    before k))], for every child [k] and every Jacobian [J] of that child,
    child by child. *)
Definition product_jacobians (Us : list ndarray) (Jss : list (list ndarray))
    : list ndarray :=
  concat (imap (λ k Js,
                  (λ J, matmul (prod_after matmul eye k Us)
                               (matmul J (prod_before matmul eye k Us))) <$> Js)
               Jss).

(** What the variable [U] of [KroneckerGate.mat_jac] names once the
    children with matrices [Us] have been processed. *)
Definition kron_acc (h : heap ndarray) (U : option ref) (Us : list ndarray) : Prop :=
  match U with
  | None => Us = []
  | Some u => ∃ x, kron_chain kron Us = Some x ∧ holds h u x
  end.

End Expected.

(** The laws of matrix multiplication that the two-pass scan of
    [ProductGate.mat_jac] relies on. *)
Class MatrixLaws {ndarray : Type} (matmul : ndarray → ndarray → ndarray)
    (eye : ndarray) : Prop := {
  matmul_assoc : ∀ X Y Z, matmul X (matmul Y Z) = matmul (matmul X Y) Z;
  matmul_eye_l : ∀ X, matmul eye X = X;
  matmul_eye_r : ∀ X, matmul X eye = X
}.

(** ** Derivatives along one parameter

    A matrix is paired with its derivative along the parameter.  [tmul]
    is the multiplication of such pairs, by the product rule: run with it
    as [np.matmul], a method computes the derivative of its result beside
    the result.  [along k J Us] are the children's matrices when the
    parameter belongs to child [k] alone, whose derivative is [J]: the
    other children do not depend on it. *)
Section Tangents.
Context {ndarray : Type} (matmul madd : ndarray → ndarray → ndarray)
        (eye mzero : ndarray).

Definition tmul (X Y : ndarray * ndarray) : ndarray * ndarray :=
  (matmul X.1 Y.1, madd (matmul X.2 Y.1) (matmul X.1 Y.2)).

Definition along (k : nat) (J : ndarray) (Us : list ndarray)
    : list (ndarray * ndarray) :=
  imap (λ j U, (U, if decide (j = k) then J else mzero)) Us.

End Tangents.

(** Addition of arrays and the zero array, as far as the product rule
    needs them. *)
Class TangentLaws {ndarray : Type} (matmul madd : ndarray → ndarray → ndarray)
    (mzero : ndarray) : Prop := {
  madd_0_l : ∀ X, madd mzero X = X;
  madd_0_r : ∀ X, madd X mzero = X;
  matmul_0_l : ∀ X, matmul mzero X = mzero;
  matmul_0_r : ∀ X, matmul X mzero = mzero
}.


(** The laws of scalar arithmetic used to evaluate the product of the
    explicit matrices of [CPIPhaseGate.__init__]. *)
Class ScalarLaws {C : Type} (c0 c1 : C) (cadd cmul : C → C → C)
    (copp : C → C) : Prop := {
  cadd_0_l : ∀ x, cadd c0 x = x;
  cadd_0_r : ∀ x, cadd x c0 = x;
  cmul_0_l : ∀ x, cmul c0 x = c0;
  cmul_0_r : ∀ x, cmul x c0 = c0;
  cmul_1_l : ∀ x, cmul c1 x = x;
  cmul_m1_inj : ∀ x y, cmul (copp c1) x = cmul (copp c1) y → x = y
}.

(** ** The flattening invariant of [ProductGate] *)
Section Flattening.
Context {ndarray : Type}.

Definition is_ProductGate (g : Gate ndarray) : bool :=
  match g with ProductGate _ _ _ => true | _ => false end.

(** No [ProductGate] anywhere in the tree has a [ProductGate] among its
    direct children. *)
Fixpoint flattened (g : Gate ndarray) : bool :=
  match g with
  | ProductGate _ subs _ =>
      forallb (λ s, negb (is_ProductGate s) && flattened s) subs
  | KroneckerGate _ subs _ => forallb flattened subs
  | UpgradedConstantGate sub _ => flattened sub
  | _ => true
  end.

(** What the invariant asks of one child of a [ProductGate]. *)
Definition child_ok (g : Gate ndarray) : bool :=
  negb (is_ProductGate g) && flattened g.

(** The child sequence obtained by splicing the children of every
    [ProductGate] argument in place of that argument. *)
Definition absorb (subgates : list (Gate ndarray)) : list (Gate ndarray) :=
  flat_map (λ g, if is_ProductGate g then subgates_of g else [g]) subgates.

(** The classes whose objects hold no gate. *)
Definition is_primitive (g : Gate ndarray) : bool :=
  match g with
  | UpgradedConstantGate _ _ | KroneckerGate _ _ _ | ProductGate _ _ _ => false
  | _ => true
  end.

(** The gates that the constructors and the methods [appending] and
    [inserting] can return. *)
Inductive constructed : Gate ndarray → Prop :=
| constructed_primitive g :
    is_primitive g = true → constructed g
| constructed_upgraded other df :
    constructed other → constructed (UpgradedConstantGate other df)
| constructed_kronecker gates :
    (∀ g, g ∈ gates → constructed g) → constructed (KroneckerGate_init gates)
| constructed_kronecker_appending self gate :
    constructed self → type self = cKroneckerGate → constructed gate →
    constructed (KroneckerGate_appending self gate)
| constructed_product gates :
    (∀ g, g ∈ gates → constructed g) → constructed (ProductGate_init gates)
| constructed_appending self gates :
    constructed self → type self = cProductGate →
    (∀ g, g ∈ gates → constructed g) →
    constructed (ProductGate_appending self gates)
| constructed_inserting self gates depth :
    constructed self → type self = cProductGate →
    (∀ g, g ∈ gates → constructed g) →
    constructed (ProductGate_inserting self gates depth).

End Flattening.

(** ** Concrete arrays and gate objects for the examples *)

(** Two by two integer matrices: real matrices, whose conjugate transpose
    is the transpose. *)
Record M2 := mk2 { m11 : Z; m12 : Z; m21 : Z; m22 : Z }.

Definition m2_mul (X Y : M2) : M2 :=
  mk2 (m11 X * m11 Y + m12 X * m21 Y) (m11 X * m12 Y + m12 X * m22 Y)
      (m21 X * m11 Y + m22 X * m21 Y) (m21 X * m12 Y + m22 X * m22 Y).
Definition m2_eye : M2 := mk2 1 0 0 1.
Definition m2_adjoint (X : M2) : M2 := mk2 (m11 X) (m21 X) (m12 X) (m22 X).

(** Rotation by [k] quarter turns. *)
Definition m2_rot (k : Z) : M2 :=
  match (k mod 4)%Z with
  | 0%Z => mk2 1 0 0 1
  | 1%Z => mk2 0 (-1) 1 0
  | 2%Z => mk2 (-1) 0 0 (-1)
  | _ => mk2 0 1 (-1) 0
  end.

(** [np.kron] on dense integer arrays. *)
Definition dense_kron (A B : list (list Z)) : list (list Z) :=
  flat_map (λ ra, map (λ rb, flat_map (λ x, map (Z.mul x) rb) ra) B) A.

Section ExampleGates.
Context {ndarray P : Type}.

(** A constant gate that hands out the array object it stores, as
    [CNOTGate] and [UGate] do; it inherits [Gate.mat_jac]. *)
Definition stored_gate (U : ref) : GateObj ndarray P :=
  {| num_inputs := 0;
     matrix := λ _, mret U;
     mat_jac := Gate_mat_jac 0 (λ _, mret U) |}.

(** [J1; ...; Jn] allocated as new arrays, in order. *)
Fixpoint np_new_all (xs : list ndarray) : Py ndarray (list ref) :=
  match xs with
  | [] => mret []
  | x :: rest => r ← np_new x; rs ← np_new_all rest; mret (r :: rs)
  end.

(** A gate that builds new arrays from closed formulas on every call, as
    [XGate] and [U3Gate] do: [U v] is the matrix and [Js v] the
    Jacobians; both fail when [v] is too short. *)
Definition formula_gate (n : Z) (U : list P → result ndarray)
    (Js : list P → result (list ndarray)) : GateObj ndarray P :=
  {| num_inputs := n;
     matrix := λ v, x ← py_lift (U v); np_new x;
     mat_jac := λ v, x ← py_lift (U v); js ← py_lift (Js v);
                     r ← np_new x; rs ← np_new_all js; mret (r, rs) |}.

(** A two-parameter gate whose Jacobians coincide and which returns one
    array object for both. *)
Definition shared_jacobian_gate (U J : ndarray) : GateObj ndarray P :=
  {| num_inputs := 2;
     matrix := λ _, np_new U;
     mat_jac := λ _, r ← np_new U; j ← np_new J; mret (r, [j; j]) |}.

End ExampleGates.

(** One parameter [k]: rotation by [k] quarter turns; the Jacobian is the
    rotation by [k + 1] quarter turns. *)
Definition quarter_turn_gate : GateObj M2 Z :=
  formula_gate 1
    (λ v, k ← py_index v 0; Ok (m2_rot k))
    (λ v, k ← py_index v 0; Ok [m2_rot (k + 1)]).

(** A chain of three children on one store: a quarter turn, the stored
    swap matrix at reference 0, another quarter turn. *)
Definition example_heap : heap M2 := [mk2 0 1 1 0].
Definition example_gates : list (GateObj M2 Z) :=
  [quarter_turn_gate; stored_gate 0; quarter_turn_gate].

(** Addition of two by two matrices, and the zero matrix. *)
Definition m2_add (X Y : M2) : M2 :=
  mk2 (m11 X + m11 Y) (m12 X + m12 Y) (m21 X + m21 Y) (m22 X + m22 Y).
Definition m2_zero : M2 := mk2 0 0 0 0.

(** The quarter turn paired with its derivative along a parameter: the
    Jacobian when the parameter is the gate's own ([moving]), zero when
    it belongs to another child.  Only [matrix] is used. *)
Definition tangent_quarter_turn_gate (moving : bool) : GateObj (M2 * M2) Z :=
  {| num_inputs := 1;
     matrix := λ v, k ← py_lift (py_index v 0);
                    np_new (m2_rot k, if moving then m2_rot (k + 1) else m2_zero);
     mat_jac := λ _, py_lift (Raise NotImplementedError) |}.

(** The chain of [example_gates] differentiated along its first
    parameter: the stored swap matrix does not depend on it. *)
Definition tangent_example_heap : heap (M2 * M2) := [(mk2 0 1 1 0, m2_zero)].
Definition tangent_example_gates : list (GateObj (M2 * M2) Z) :=
  [tangent_quarter_turn_gate true; stored_gate 0; tangent_quarter_turn_gate false].

(** One parameter [a]: the shear [[1, a], [0, 1]] on dense arrays, with
    Jacobian [[0, 1], [0, 0]]. *)
Definition shear_gate : GateObj (list (list Z)) Z :=
  formula_gate 1
    (λ v, a ← py_index v 0; Ok [[1; a]; [0; 1]]%Z)
    (λ v, _ ← py_index v 0; Ok [[[0; 1]; [0; 0]]]%Z).

(** Three children side by side: a shear, the stored swap matrix at
    reference 0, another shear. *)
Definition kron_example_heap : heap (list (list Z)) := [[[0; 1]; [1; 0]]%Z].
Definition kron_example_gates : list (GateObj (list (list Z)) Z) :=
  [shear_gate; stored_gate 0; shear_gate].

(** Arguments for the constructors: a primitive gate, a product gate and
    a Kronecker gate with a nested Kronecker gate and a product gate. *)
Definition flatten_example : list (Gate unit) :=
  [XGate; ProductGate_init [YGate; ZGate];
   KroneckerGate_init [KroneckerGate_init [XGate]; ProductGate_init [CNOTGate]]].

(** A random generator that replays a list of numbers. *)
Definition list_random (s : list Z) : Z * list Z :=
  match s with
  | [] => (0%Z, [])
  | x :: rest => (x, rest)
  end.

(** ** Declared counts *)
Section Counts.
Context {ndarray : Type}.
Local Open Scope Z_scope.

(** Every composite in the tree declares the counts that its children add
    up to: [num_inputs] for both composite classes, [qudits] for
    [KroneckerGate]; and an [UpgradedConstantGate] wraps a gate without
    parameters, as its constructor demands. *)
Fixpoint consistent (g : Gate ndarray) : bool :=
  match g with
  | KroneckerGate n subs q =>
      bool_decide (n = py_sum gate_num_inputs subs)
      && bool_decide (q = py_sum gate_qudits subs)
      && forallb consistent subs
  | ProductGate n subs q =>
      bool_decide (n = py_sum gate_num_inputs subs) && forallb consistent subs
  | UpgradedConstantGate sub _ =>
      bool_decide (gate_num_inputs sub = 0) && consistent sub
  | _ => true
  end.

End Counts.

(** ** [assemble]

    The intermediate format handed to the assemblers: a list of tuples
    [("gate", gatename, gateparams, gateindices)] and [("block", out)]. *)
Section Assemble.
Context {ndarray P : Type}.

(** [x % (2*np.pi)] on one float, and the float [np.pi/2]. *)
Context (mod_2pi : P → P) (pi_half : P).

(** An entry of a parameter tuple: a float, or one of the integer
    literals that [U1Gate.assemble] writes. *)
Inductive pyparam :=
| PyFloat (x : P)
| PyInt (n : Z).

Inductive descriptor :=
| gate_tuple (gatename : string) (gateparams : list pyparam) (gateindices : list Z)
| block_tuple (out : list descriptor).

Local Open Scope Z_scope.

(** [UGate.assemble]: [gateindices] overrides the default indices
    [i, ..., i + qudits - 1]. *)
Definition UGate_assemble (gatename : string) (gateparams : list pyparam)
    (gateindices : option (list Z)) (qudits : Z) (i : Z) : list descriptor :=
  let indices := match gateindices with
                 | Some indices => indices
                 | None => (λ j, i + j) <$> seqZ 0 qudits
                 end in
  [gate_tuple gatename gateparams indices].

(** [g.assemble(v, i)].  The rotation gates read [v] by index, which
    raises [IndexError] on a vector that is too short.  [CUGate.assemble]
    evaluates the name [flipped], which is neither a local nor a global
    (the attribute is [self.flipped]), so it raises [NameError].  A
    [UGate] node records the attributes that the other methods read; its
    [gateparams] and [gateindices] are those of the constructor's
    defaults, [()] and [None]. *)
Fixpoint assemble (g : Gate ndarray) (v : list P) (i : Z) : result (list descriptor) :=
  match g with
  | IdentityGate _ _ => Ok []
  | XGate => v0 ← py_index v 0; Ok [gate_tuple "X" [PyFloat v0] [i]]
  | YGate => v0 ← py_index v 0; Ok [gate_tuple "Y" [PyFloat v0] [i]]
  | ZGate => v0 ← py_index v 0; Ok [gate_tuple "Z" [PyFloat v0] [i]]
  | ZXZXZGate =>
      let v := mod_2pi <$> v in
      v0 ← py_index v 0;
      v1 ← py_index v 1;
      v2 ← py_index v 2;
      Ok [block_tuple [gate_tuple "Z" [PyFloat v0] [i];
                       gate_tuple "X" [PyFloat pi_half] [i];
                       gate_tuple "Z" [PyFloat v1] [i];
                       gate_tuple "X" [PyFloat pi_half] [i];
                       gate_tuple "Z" [PyFloat v2] [i]]]
  | XZXZGate =>
      let v := mod_2pi <$> v in
      v0 ← py_index v 0;
      v1 ← py_index v 1;
      Ok [block_tuple [gate_tuple "X" [PyFloat pi_half] [i];
                       gate_tuple "Z" [PyFloat v0] [i];
                       gate_tuple "X" [PyFloat pi_half] [i];
                       gate_tuple "Z" [PyFloat v1] [i]]]
  | U3Gate =>
      let v := mod_2pi <$> v in
      v0 ← py_index v 0;
      v1 ← py_index v 1;
      v2 ← py_index v 2;
      Ok [gate_tuple "U3" [PyFloat v0; PyFloat v1; PyFloat v2] [i]]
  | U2Gate =>
      let v := mod_2pi <$> v in
      v0 ← py_index v 0;
      v1 ← py_index v 1;
      Ok [gate_tuple "U3" [PyFloat pi_half; PyFloat v0; PyFloat v1] [i]]
  | U1Gate =>
      let v := mod_2pi <$> v in
      v0 ← py_index v 0;
      Ok [gate_tuple "U3" [PyInt 0; PyInt 0; PyFloat v0] [i]]
  | SingleQutritGate => Ok [gate_tuple "QUTRIT" (PyFloat <$> v) [i]]
  | CSUMGate => Ok [gate_tuple "CSUM" [] [i; i + 1]]
  | CPIGate => Ok [gate_tuple "CPI" [] [i; i + 1]]
  | CPIPhaseGate _ => Ok [gate_tuple "CPI-" [] [i; i + 1]]
  | CNOTGate => Ok [gate_tuple "CNOT" [] [i; i + 1]]
  | CZGate => Ok [gate_tuple "CZ" [] [i; i + 1]]
  | ISwapGate => Ok [gate_tuple "ISWAP" [] [i; i + 1]]
  | XXGate => Ok [gate_tuple "XX" [] [i; i + 1]]
  | NonadjacentCNOTGate _ control target =>
      Ok [gate_tuple "CNOT" [] [control; target]]
  | UGate _ _ qudits gatename => Ok (UGate_assemble gatename [] None qudits i)
  | UpgradedConstantGate subgate _ => assemble subgate v i
  | CUGate _ _ _ => Raise NameError
  | CNOTRootGate => Ok [gate_tuple "sqrt(CNOT)" [] [i; i + 1]]
  | KroneckerGate _ subs _ =>
      out ← (fix loop (l : list (Gate ndarray)) (out : list descriptor)
                 (index i : Z) : result (list descriptor) :=
               match l with
               | [] => Ok out
               | gate :: l' =>
                   o ← assemble gate (py_slice v index (index + gate_num_inputs gate)) i;
                   loop l' (out ++ o) (index + gate_num_inputs gate)
                        (i + gate_qudits gate)
               end) subs [] 0 i;
      Ok [block_tuple out]
  | ProductGate _ subs _ =>
      (fix loop (l : list (Gate ndarray)) (out : list descriptor)
           (index : Z) : result (list descriptor) :=
         match l with
         | [] => Ok out
         | gate :: l' =>
             o ← assemble gate (py_slice v index (index + gate_num_inputs gate)) i;
             loop l' (out ++ o) (index + gate_num_inputs gate)
         end) subs [] 0
  end.

(** The loops of [KroneckerGate.assemble] and [ProductGate.assemble],
    started anywhere. *)
Fixpoint kron_assemble_loop (l : list (Gate ndarray)) (v : list P)
    (out : list descriptor) (index i : Z) : result (list descriptor) :=
  match l with
  | [] => Ok out
  | gate :: l' =>
      o ← assemble gate (py_slice v index (index + gate_num_inputs gate)) i;
      kron_assemble_loop l' v (out ++ o) (index + gate_num_inputs gate)
                         (i + gate_qudits gate)
  end.

Fixpoint product_assemble_loop (l : list (Gate ndarray)) (v : list P)
    (out : list descriptor) (index i : Z) : result (list descriptor) :=
  match l with
  | [] => Ok out
  | gate :: l' =>
      o ← assemble gate (py_slice v index (index + gate_num_inputs gate)) i;
      product_assemble_loop l' v (out ++ o) (index + gate_num_inputs gate) i
  end.

(** All qudit indices that occur in a list of tuples, blocks included. *)
Fixpoint indices_of (d : descriptor) : list Z :=
  match d with
  | gate_tuple _ _ indices => indices
  | block_tuple out => flat_map indices_of out
  end.

Definition all_indices (out : list descriptor) : list Z :=
  flat_map indices_of out.

(** No [CUGate] anywhere in the tree. *)
Fixpoint has_no_CUGate (g : Gate ndarray) : bool :=
  match g with
  | CUGate _ _ _ => false
  | UpgradedConstantGate sub _ => has_no_CUGate sub
  | KroneckerGate _ subs _ | ProductGate _ subs _ => forallb has_no_CUGate subs
  | _ => true
  end.

(** The gates that address their qudits relative to the offset [i]: the
    layout that [validate_structure] is meant to check.  The children of a
    product gate act on as many qudits as the product gate, the qudits of
    a Kronecker gate are the sum over its children, no count is negative,
    and the tree holds no [NonadjacentCNOTGate] or [UGate] (whose indices
    are absolute, or chosen by the caller) and no [CUGate]. *)
Fixpoint adjacent_layout (g : Gate ndarray) : bool :=
  match g with
  | IdentityGate q _ => bool_decide (0 ≤ q)
  | NonadjacentCNOTGate _ _ _ | UGate _ _ _ _ | CUGate _ _ _ => false
  | UpgradedConstantGate sub _ => adjacent_layout sub
  | KroneckerGate _ subs q =>
      bool_decide (q = py_sum gate_qudits subs) && forallb adjacent_layout subs
  | ProductGate _ subs q =>
      bool_decide (0 ≤ q)
      && forallb (λ s, bool_decide (gate_qudits s = q) && adjacent_layout s) subs
  | _ => true
  end.

End Assemble.

Arguments pyparam : clear implicits.
Arguments descriptor : clear implicits.

(** ** The parameterised gates written as closed formulas

    [U3Gate], [U2Gate] and [SingleQutritGate] build their arrays entry by
    entry from [np.cos], [np.sin] and [np.exp] of the parameters.  The
    arithmetic of numpy is kept abstract: one type of numbers (floats,
    embedded in [complex128]) with the operations that the formulas use. *)
Class Scalar (T : Type) := {
  fzero : T;                 (** [0] *)
  fone : T;                  (** [1] *)
  fhalf : T;                 (** [0.5] *)
  fimag : T;                 (** [1j] *)
  finv_sqrt2 : T;            (** [1/np.sqrt(2)] *)
  fadd : T → T → T;
  fmul : T → T → T;
  fsub : T → T → T;
  fneg : T → T;
  fhalve : T → T;            (** [x/2] *)
  fcos : T → T;              (** [np.cos] *)
  fsin : T → T;              (** [np.sin] *)
  fexp : T → T               (** [np.exp] *)
}.

Declare Scope scalar_scope.
Delimit Scope scalar_scope with F.
Notation "x + y" := (fadd x y) : scalar_scope.
Notation "x * y" := (fmul x y) : scalar_scope.
Notation "x - y" := (fsub x y) : scalar_scope.
Notation "- x" := (fneg x) : scalar_scope.

Section ClosedFormulas.
Context {T : Type} `{Scalar T}.
Local Open Scope scalar_scope.

(** [k * A] for a number [k] and a two-dimensional array [A]. *)
Definition np_scale (k : T) (A : list (list T)) : list (list T) :=
  map (map (fmul k)) A.

(** *** [U3Gate] *)
Definition U3Gate_matrix (v : list T) : result (list (list T)) :=
  v0 ← py_index v 0;
  let ct := fcos (fhalve v0) in
  let st := fsin (fhalve v0) in
  v1 ← py_index v 1;
  let cp := fcos v1 in
  let sp := fsin v1 in
  v2 ← py_index v 2;
  let cl := fcos v2 in
  let sl := fsin v2 in
  Ok [[ct; - st * (cl + fimag * sl)];
      [st * (cp + fimag * sp);
       ct * (cl * cp - sl * sp + fimag * cl * sp + fimag * sl * cp)]].

Definition U3Gate_mat_jac (v : list T)
    : result (list (list T) * list (list (list T))) :=
  v0 ← py_index v 0;
  let ct := fcos (fhalve v0) in
  let st := fsin (fhalve v0) in
  v1 ← py_index v 1;
  let cp := fcos v1 in
  let sp := fsin v1 in
  v2 ← py_index v 2;
  let cl := fcos v2 in
  let sl := fsin v2 in
  let U := [[ct; - st * (cl + fimag * sl)];
            [st * (cp + fimag * sp);
             ct * (cl * cp - sl * sp + fimag * cl * sp + fimag * sl * cp)]] in
  let J1 := [[- fhalf * st; - fhalf * ct * (cl + fimag * sl)];
             [fhalf * ct * (cp + fimag * sp);
              - fhalf * st * (cl * cp - sl * sp + fimag * cl * sp + fimag * sl * cp)]] in
  let J2 := [[fzero; fzero];
             [st * (- sp + fimag * cp);
              ct * (cl * - sp - sl * cp + fimag * cl * cp + fimag * sl * - sp)]] in
  let J3 := [[fzero; - st * (- sl + fimag * cl)];
             [fzero;
              ct * (- sl * cp - cl * sp + fimag * - sl * sp + fimag * cl * cp)]] in
  Ok (U, [J1; J2; J3]).

(** *** [U2Gate] *)
Definition U2Gate_matrix (v : list T) : result (list (list T)) :=
  let initial := finv_sqrt2 in
  v1 ← py_index v 1;
  v0 ← py_index v 0;
  Ok (np_scale initial
        [[fone; - fexp (fimag * v1)];
         [fexp (fimag * v0); fexp (fimag * (v0 + v1))]]).

Definition U2Gate_mat_jac (v : list T)
    : result (list (list T) * list (list (list T))) :=
  let initial := finv_sqrt2 in
  v1 ← py_index v 1;
  let e1 := fexp (fimag * v1) in
  v0 ← py_index v 0;
  let e2 := fexp (fimag * v0) in
  let e3 := fexp (fimag * (v0 + v1)) in
  let U := np_scale initial [[fone; - e1]; [e2; e3]] in
  let J1 := np_scale initial [[fzero; fzero]; [fimag * e2; fimag * e3]] in
  let J2 := np_scale initial [[fzero; - fimag * e1]; [fzero; fimag * e3]] in
  Ok (U, [J1; J2]).

(** *** [SingleQutritGate] *)
Definition SingleQutritGate_matrix (v : list T) : result (list (list T)) :=
  v0 ← py_index v 0;
  let s1 := fsin v0 in
  let c1 := fcos v0 in
  v1 ← py_index v 1;
  let s2 := fsin v1 in
  let c2 := fcos v1 in
  v2 ← py_index v 2;
  let s3 := fsin v2 in
  let c3 := fcos v2 in
  v3 ← py_index v 3;
  let p1 := fexp (fimag * v3) in
  let m1 := fexp (- fimag * v3) in
  v4 ← py_index v 4;
  let p2 := fexp (fimag * v4) in
  let m2 := fexp (- fimag * v4) in
  v5 ← py_index v 5;
  let p3 := fexp (fimag * v5) in
  let m3 := fexp (- fimag * v5) in
  v6 ← py_index v 6;
  let p4 := fexp (fimag * v6) in
  let m4 := fexp (- fimag * v6) in
  v7 ← py_index v 7;
  let p5 := fexp (fimag * v7) in
  let m5 := fexp (- fimag * v7) in
  Ok [[c1*c2*p1; s1*p3; c1*s2*p4];
      [s2*s3*m4*m5 - s1*c2*c3*p1*p2*m3; c1*c3*p2; -c2*s3*m1*m5 - s1*s2*c3*p2*m3*p4];
      [-s1*c2*s3*p1*m3*p5 - s2*c3*m2*m4; c1*s3*p5; c2*c3*m1*m2 - s1*s2*s3*m3*p4*p5]].

Definition SingleQutritGate_mat_jac (v : list T)
    : result (list (list T) * list (list (list T))) :=
  v0 ← py_index v 0;
  let s1 := fsin v0 in
  let c1 := fcos v0 in
  v1 ← py_index v 1;
  let s2 := fsin v1 in
  let c2 := fcos v1 in
  v2 ← py_index v 2;
  let s3 := fsin v2 in
  let c3 := fcos v2 in
  v3 ← py_index v 3;
  let p1 := fexp (fimag * v3) in
  let m1 := fexp (- fimag * v3) in
  v4 ← py_index v 4;
  let p2 := fexp (fimag * v4) in
  let m2 := fexp (- fimag * v4) in
  v5 ← py_index v 5;
  let p3 := fexp (fimag * v5) in
  let m3 := fexp (- fimag * v5) in
  v6 ← py_index v 6;
  let p4 := fexp (fimag * v6) in
  let m4 := fexp (- fimag * v6) in
  v7 ← py_index v 7;
  let p5 := fexp (fimag * v7) in
  let m5 := fexp (- fimag * v7) in
  let o := fzero in
  let j := fimag in
  let U :=
    [[c1*c2*p1; s1*p3; c1*s2*p4];
     [s2*s3*m4*m5 - s1*c2*c3*p1*p2*m3; c1*c3*p2; -c2*s3*m1*m5 - s1*s2*c3*p2*m3*p4];
     [-s1*c2*s3*p1*m3*p5 - s2*c3*m2*m4; c1*s3*p5; c2*c3*m1*m2 - s1*s2*s3*m3*p4*p5]] in
  let Jt1 :=
    [[-s1*c2*p1; c1*p3; -s1*s2*p4];
     [-c1*c2*c3*p1*p2*m3; -s1*c3*p2; -c1*s2*c3*p2*m3*p4];
     [-c1*c2*s3*p1*m3*p5; -s1*s3*p5; -c1*s2*s3*m3*p4*p5]] in
  let Jt2 :=
    [[-c1*s2*p1; o; c1*c2*p4];
     [c2*s3*m4*m5 + s1*s2*c3*p1*p2*m3; o; s2*s3*m1*m5 - s1*c2*c3*p2*m3*p4];
     [s1*s2*s3*p1*m3*p5 - c2*c3*m2*m4; o; -s2*c3*m1*m2 - s1*c2*s3*m3*p4*p5]] in
  let Jt3 :=
    [[o; o; o];
     [s2*c3*m4*m5 + s1*c2*s3*p1*p2*m3; -c1*s3*p2; -c2*c3*m1*m5 + s1*s2*s3*p2*m3*p4];
     [-s1*c2*c3*p1*m3*p5 + s2*s3*m2*m4; c1*c3*p5; -c2*s3*m1*m2 - s1*s2*c3*m3*p4*p5]] in
  let Je1 :=
    [[j*c1*c2*p1; o; o];
     [-j*s1*c2*c3*p1*p2*m3; o; j*c2*s3*m1*m5];
     [-j*s1*c2*s3*p1*m3*p5; o; -j*c2*c3*m1*m2]] in
  let Je2 :=
    [[o; o; o];
     [-j*s1*c2*c3*p1*p2*m3; j*c1*c3*p2; -j*s1*s2*c3*p2*m3*p4];
     [j*s2*c3*m2*m4; o; -j*c2*c3*m1*m2]] in
  let Je3 :=
    [[o; j*s1*p3; o];
     [j*s1*c2*c3*p1*p2*m3; o; j*s1*s2*c3*p2*m3*p4];
     [j*s1*c2*s3*p1*m3*p5; o; j*s1*s2*s3*m3*p4*p5]] in
  let Je4 :=
    [[o; o; j*c1*s2*p4];
     [-j*s2*s3*m4*m5; o; -j*s1*s2*c3*p2*m3*p4];
     [j*s2*c3*m2*m4; o; -j*s1*s2*s3*m3*p4*p5]] in
  let Je5 :=
    [[o; o; o];
     [-j*s2*s3*m4*m5; o; j*c2*s3*m1*m5];
     [-j*s1*c2*s3*p1*m3*p5; j*c1*s3*p5; -j*s1*s2*s3*m3*p4*p5]] in
  Ok (U, [Jt1; Jt2; Jt3; Je1; Je2; Je3; Je4; Je5]).

End ClosedFormulas.

(** ** Differentiation along one parameter

    A number is paired with its derivative along the parameter.  The
    operations on such pairs are the rules of calculus: sums and products
    by linearity and the product rule, constants have derivative zero,
    and [cos' = -sin], [sin' = cos], [exp' = exp], [(x/2)' = 0.5] with the
    chain rule. *)
Section Derivatives.
Context {C : Type} `{Scalar C}.
Local Open Scope scalar_scope.

Definition constant (x : C) : C * C := (x, fzero).

#[global] Instance derivative_scalar : Scalar (C * C) := {|
  fzero := constant fzero;
  fone := constant fone;
  fhalf := constant fhalf;
  fimag := constant fimag;
  finv_sqrt2 := constant finv_sqrt2;
  fadd x y := (x.1 + y.1, x.2 + y.2);
  fmul x y := (x.1 * y.1, x.2 * y.1 + x.1 * y.2);
  fsub x y := (x.1 - y.1, x.2 - y.2);
  fneg x := (- x.1, - x.2);
  fhalve x := (fhalve x.1, fhalf * x.2);
  fcos x := (fcos x.1, - fsin x.1 * x.2);
  fsin x := (fsin x.1, fcos x.1 * x.2);
  fexp x := (fexp x.1, fexp x.1 * x.2)
|}.

(** The parameter vector [v] with parameter [k] as the variable: its
    derivative is one, that of the other parameters zero. *)
Definition along_parameter (k : nat) (v : list C) : list (C * C) :=
  imap (λ i x, (x, if (i =? k)%nat then fone else fzero)) v.

(** An array paired, entry by entry, with the array of its derivatives. *)
Definition with_derivative (U J : list (list C)) : list (list (C * C)) :=
  zip_with (zip_with pair) U J.

End Derivatives.

(** Integers as numbers, for the examples; the functions are arbitrary. *)
Definition Z_scalar : Scalar Z := {|
  fzero := 0%Z; fone := 1%Z; fhalf := 3%Z; fimag := 2%Z; finv_sqrt2 := 5%Z;
  fadd := Z.add; fmul := Z.mul; fsub := Z.sub; fneg := Z.opp;
  fhalve x := (x + 1)%Z;
  fcos x := (x * x)%Z;
  fsin x := (2 * x + 1)%Z;
  fexp x := (x - 4)%Z
|}.

(** ** Which arrays a method leaves alone *)
Section StoreVocabulary.
Context {ndarray : Type}.

(** The reference [r] names an array allocated after the store had the
    size of [h]: a new object, distinct from every array of [h]. *)
Definition allocated_after (h : heap ndarray) (r : ref) : Prop :=
  length h ≤ r.

(** Every array of [h] outside [W] is still in [h'], with the value it
    had in [h]. *)
Definition unchanged_outside (W : list ref) (h h' : heap ndarray) : Prop :=
  ∀ r x, r ∉ W → holds h r x → holds h' r x.

End StoreVocabulary.

(** A stand-in for the md5 digest, and floats as integers, for the
    examples of [assemble]. *)
Definition length_digest (s : string) : Z := Z.of_nat (String.length s).
Definition example_mod_2pi (x : Z) : Z := (x mod 6)%Z.
Definition example_pi_half : Z := 1%Z.


(** * Properties *)

(** ** Running store computations *)
Section StoreFacts.
Context {ndarray : Type}.
Implicit Types (h : heap ndarray) (r : ref) (x y : ndarray).

Lemma bind_run {A B} (m : Py ndarray A) (f : A → Py ndarray B) h a h' :
  m h = Ok (a, h') → (m ≫= f) h = f a h'.
Proof. intros E. unfold mbind, Py_bind. by rewrite E. Qed.

Lemma bind_inv {A B} (m : Py ndarray A) (f : A → Py ndarray B) h b h2 :
  (m ≫= f) h = Ok (b, h2) → ∃ a h1, m h = Ok (a, h1) ∧ f a h1 = Ok (b, h2).
Proof.
  unfold mbind, Py_bind. destruct (m h) as [[a h1]|e]; [|done]. eauto.
Qed.

Lemma np_get_run h r x : holds h r x → np_get r h = Ok (x, h).
Proof. unfold holds, np_get. by intros ->. Qed.

Lemma np_set_run h r x y :
  holds h r y → np_set r x h = Ok (tt, <[r := x]> h).
Proof. unfold holds, np_set. by intros ->. Qed.

Lemma holds_new h r x y : holds h r x → holds (h ++ [y]) r x.
Proof. unfold holds. intros E. by apply lookup_app_l_Some. Qed.

Lemma holds_new_eq h x : holds (h ++ [x]) (length h) x.
Proof. unfold holds. by rewrite lookup_app_r, Nat.sub_diag. Qed.

Lemma holds_lt h r x : holds h r x → r < length h.
Proof. apply lookup_lt_Some. Qed.

Lemma holds_set_eq h r x y : holds h r y → holds (<[r := x]> h) r x.
Proof. intros E. apply list_lookup_insert_eq. by eapply holds_lt. Qed.

Lemma holds_set_ne h r r' x y : r ≠ r' → holds h r' y → holds (<[r := x]> h) r' y.
Proof. intros Hne E. unfold holds. by rewrite list_lookup_insert_ne. Qed.

Lemma holds_prefix h h' r x : h `prefix_of` h' → holds h r x → holds h' r x.
Proof. intros Hp E. by eapply prefix_lookup_Some. Qed.

Lemma Forall2_holds_set h rs xs r x :
  r ∉ rs → Forall2 (holds h) rs xs → Forall2 (holds (<[r := x]> h)) rs xs.
Proof.
  intros Hnot HF. induction HF as [|r' x' rs xs Hr HF IH]; [constructor|].
  apply not_elem_of_cons in Hnot as [Hne Hnot].
  constructor; [by apply holds_set_ne|auto].
Qed.

Lemma Forall2_holds_prefix h h' rs xs :
  h `prefix_of` h' → Forall2 (holds h) rs xs → Forall2 (holds h') rs xs.
Proof.
  intros Hp HF. eapply Forall2_impl; [exact HF|].
  intros. by eapply holds_prefix.
Qed.

Lemma Forall2_holds_lt h rs xs r :
  Forall2 (holds h) rs xs → r ∈ rs → r < length h.
Proof.
  intros HF Hin. apply list_elem_of_lookup in Hin as [i Hi].
  destruct (Forall2_lookup_l _ _ _ _ _ HF Hi) as (x & _ & Hx).
  by eapply holds_lt.
Qed.

Lemma Forall2_holds_fresh h rs xs : Forall2 (holds h) rs xs → length h ∉ rs.
Proof. intros HF Hin. apply (Forall2_holds_lt _ _ _ _ HF) in Hin. lia. Qed.

Context (matmul : ndarray → ndarray → ndarray) (eye : ndarray)
        (adjoint : ndarray → ndarray) (kron : ndarray → ndarray → ndarray).

Lemma np_copy_run h a x :
  holds h a x → np_copy a h = Ok (length h, h ++ [x]).
Proof. intros E. unfold np_copy. by rewrite (bind_run _ _ _ _ _ (np_get_run _ _ _ E)). Qed.

Lemma np_eye_like_run h a x :
  holds h a x → np_eye_like eye a h = Ok (length h, h ++ [eye]).
Proof. intros E. unfold np_eye_like. by rewrite (bind_run _ _ _ _ _ (np_get_run _ _ _ E)). Qed.

Lemma np_T_conjugate_run h a x :
  holds h a x → np_T_conjugate adjoint a h = Ok (length h, h ++ [adjoint x]).
Proof. intros E. unfold np_T_conjugate. by rewrite (bind_run _ _ _ _ _ (np_get_run _ _ _ E)). Qed.

Lemma np_kron_run h a b x y :
  holds h a x → holds h b y →
  np_kron kron a b h = Ok (length h, h ++ [kron x y]).
Proof.
  intros Ea Eb. unfold np_kron.
  rewrite (bind_run _ _ _ _ _ (np_get_run _ _ _ Ea)).
  by rewrite (bind_run _ _ _ _ _ (np_get_run _ _ _ Eb)).
Qed.

Lemma np_matmul_out_run h a b out x y z :
  holds h a x → holds h b y → holds h out z →
  np_matmul_out matmul a b out h = Ok (out, <[out := matmul x y]> h).
Proof.
  intros Ea Eb Eo. unfold np_matmul_out.
  rewrite (bind_run _ _ _ _ _ (np_get_run _ _ _ Ea)).
  rewrite (bind_run _ _ _ _ _ (np_get_run _ _ _ Eb)).
  by rewrite (bind_run _ _ _ _ _ (np_set_run _ _ _ _ Eo)).
Qed.

End StoreFacts.

(** ** Slices *)
Lemma py_slice_all {A} (l : list A) (n : Z) :
  Z.of_nat (length l) = n → py_slice l 0 (0 + n) = l.
Proof.
  intros <-. unfold py_slice, py_clamp.
  assert (E : (0 <? 0)%Z = false) by done. rewrite E.
  assert (E' : (0 + Z.of_nat (length l) <? 0)%Z = false) by (apply Z.ltb_ge; lia).
  rewrite E'.
  replace (Z.to_nat (Z.min 0 (Z.of_nat (length l)))) with 0 by lia.
  replace (Z.to_nat _) with (length l) by lia.
  simpl. apply firstn_all.
Qed.

Lemma py_slice_take_drop {A} (l : list A) (a n : Z) :
  (0 ≤ a)%Z → (0 ≤ n)%Z → (a + n ≤ Z.of_nat (length l))%Z →
  py_slice l a (a + n) = take (Z.to_nat n) (drop (Z.to_nat a) l).
Proof.
  intros Ha Hn Hlen. unfold py_slice, py_clamp.
  assert (E1 : (a <? 0)%Z = false) by (apply Z.ltb_ge; lia).
  assert (E2 : (a + n <? 0)%Z = false) by (apply Z.ltb_ge; lia).
  rewrite E1, E2. f_equal; [|f_equal]; lia.
Qed.

(** [(pre + s + post)[len(pre) : len(pre) + len(s)]] is [s]. *)
Lemma py_slice_middle {A} (pre s post : list A) :
  py_slice (pre ++ s ++ post)
           (Z.of_nat (length pre)) (Z.of_nat (length pre) + Z.of_nat (length s)) = s.
Proof.
  rewrite py_slice_take_drop by (rewrite ?length_app; lia).
  by rewrite !Nat2Z.id, drop_app_length, take_app_length.
Qed.

Lemma py_slice_from_1 {A} (x : A) (l : list A) : py_slice_from (x :: l) 1 = l.
Proof.
  unfold py_slice_from, py_slice, py_clamp.
  assert (E : (1 <? 0)%Z = false) by done. rewrite E.
  assert (E' : (Z.of_nat (length (x :: l)) <? 0)%Z = false) by (apply Z.ltb_ge; lia).
  rewrite E', Z.min_id.
  replace (Z.min 1 (Z.of_nat (length (x :: l)))) with 1%Z by (simpl length; lia).
  replace (Z.to_nat (Z.of_nat (length (x :: l)) - 1)) with (length l) by (simpl length; lia).
  simpl. apply firstn_all.
Qed.

Section ComposeFacts.
Context {ndarray P : Type}.
Context (matmul : ndarray → ndarray → ndarray) (eye : ndarray)
        (adjoint : ndarray → ndarray) (kron : ndarray → ndarray → ndarray).
Implicit Types (h : heap ndarray) (gates : list (GateObj ndarray P)) (v : list P).

(** *** The first loop of the four methods

    Started on the concatenation of the slices, the loop calls child [k]
    on slice [k]: its index arithmetic and Python's slicing cut [v] where
    the slices meet. *)
Lemma total_inputs_cons (g : GateObj ndarray P) gates :
  total_inputs (g :: gates) = (num_inputs g + total_inputs gates)%Z.
Proof.
  unfold total_inputs. simpl.
  assert (∀ a, foldl (λ acc g0, (acc + num_inputs g0)%Z) a gates
               = (a + foldl (λ acc g0, (acc + num_inputs g0)%Z) 0%Z gates)%Z) as Hshift.
  { induction gates as [|g' gates IH]; intros a; simpl; [lia|].
    rewrite (IH (a + _)%Z), (IH (0 + _)%Z). lia. }
  rewrite Hshift. lia.
Qed.

Lemma sliced_total_inputs gates (slices : list (list P)) :
  sliced_per_child gates slices →
  Z.of_nat (length (concat slices)) = total_inputs gates.
Proof.
  induction 1 as [|g s gates slices Hg _ IH]; [done|].
  rewrite total_inputs_cons. simpl. rewrite length_app. lia.
Qed.

Lemma collect_matrices_from gates (slices : list (list P)) :
  sliced_per_child gates slices →
  ∀ pre h, collect_matrices gates (pre ++ concat slices) (Z.of_nat (length pre)) h
           = call_children matrix gates slices h.
Proof.
  induction 1 as [|g s gates slices Hg _ IH]; intros pre h; [done|].
  simpl. rewrite Hg, py_slice_middle.
  unfold mbind, Py_bind. destruct (matrix g s h) as [[U h']|e]; [|done].
  replace (Z.of_nat (length pre) + Z.of_nat (length s))%Z
    with (Z.of_nat (length (pre ++ s))) by (rewrite length_app; lia).
  by rewrite (app_assoc pre s), IH.
Qed.

Lemma collect_matjacs_from gates (slices : list (list P)) :
  sliced_per_child gates slices →
  ∀ pre h, collect_matjacs gates (pre ++ concat slices) (Z.of_nat (length pre)) h
           = call_children mat_jac gates slices h.
Proof.
  induction 1 as [|g s gates slices Hg _ IH]; intros pre h; [done|].
  simpl. rewrite Hg, py_slice_middle.
  unfold mbind, Py_bind. destruct (mat_jac g s h) as [[MJ h']|e]; [|done].
  replace (Z.of_nat (length pre) + Z.of_nat (length s))%Z
    with (Z.of_nat (length (pre ++ s))) by (rewrite length_app; lia).
  by rewrite (app_assoc pre s), IH.
Qed.

Lemma collect_matrices_slices gates (slices : list (list P)) h :
  sliced_per_child gates slices →
  collect_matrices gates (concat slices) 0 h = call_children matrix gates slices h.
Proof. intros Hs. exact (collect_matrices_from gates slices Hs [] h). Qed.

Lemma collect_matjacs_slices gates (slices : list (list P)) h :
  sliced_per_child gates slices →
  collect_matjacs gates (concat slices) 0 h = call_children mat_jac gates slices h.
Proof. intros Hs. exact (collect_matjacs_from gates slices Hs [] h). Qed.

Lemma collect_matrices_length gates v index h matrices h1 :
  collect_matrices gates v index h = Ok (matrices, h1) →
  length matrices = length gates.
Proof.
  revert index h matrices. induction gates as [|g gates IH]; intros index h matrices E.
  - by inversion E.
  - simpl in E. apply bind_inv in E as (U & h' & _ & E).
    apply bind_inv in E as (ms & h'' & E & E'). inversion E'; subst.
    simpl. f_equal. eauto.
Qed.

Lemma collect_matjacs_length gates v index h matjacs h1 :
  collect_matjacs gates v index h = Ok (matjacs, h1) →
  length matjacs = length gates.
Proof.
  revert index h matjacs. induction gates as [|g gates IH]; intros index h matjacs E.
  - by inversion E.
  - simpl in E. apply bind_inv in E as (U & h' & _ & E).
    apply bind_inv in E as (ms & h'' & E & E'). inversion E'; subst.
    simpl. f_equal. eauto.
Qed.

(** *** [KroneckerGate.matrix] *)
Lemma kron_matrix_loop_spec matrices : ∀ Us U u h,
  holds h U u → Forall2 (holds h) matrices Us →
  ∃ U' h', kron_matrix_loop kron matrices U h = Ok (U', h')
           ∧ holds h' U' (foldl kron u Us) ∧ h `prefix_of` h'.
Proof.
  induction matrices as [|m matrices IH]; intros Us U u h HU HF.
  - apply Forall2_nil_inv_l in HF as ->. simpl. eauto.
  - apply Forall2_cons_inv_l in HF as (x & Us' & Hm & HF & ->). simpl.
    rewrite (bind_run _ _ _ _ _ (np_kron_run kron _ _ _ _ _ HU Hm)).
    destruct (IH Us' (length h) (kron u x) (h ++ [kron u x])) as (U' & h' & E & HU' & Hp).
    + apply holds_new_eq.
    + eapply Forall2_impl; [exact HF|]. intros. by apply holds_new.
    + exists U', h'. split_and!; [done..|].
      etrans; [|exact Hp]. by apply prefix_app_r.
Qed.

Lemma collect_matrices_single (g : GateObj ndarray P) v :
  Z.of_nat (length v) = total_inputs [g] →
  ∀ h matrices h1,
  collect_matrices [g] v 0 h = Ok (matrices, h1) →
  ∃ U, matrices = [U] ∧ matrix g v h = Ok (U, h1).
Proof.
  intros Hv h matrices h1 E. unfold total_inputs in Hv. simpl in Hv, E.
  rewrite (py_slice_all v (num_inputs g)) in E by lia.
  apply bind_inv in E as (U & h' & E & E'). inversion E'; subst. eauto.
Qed.

(** After the first loop: the left fold of [np.kron] over what the loop
    collected. *)
Lemma KroneckerGate_matrix_of_loop gates v h matrices h1 Us :
  gates ≠ [] →
  Z.of_nat (length v) = total_inputs gates →
  collect_matrices gates v 0 h = Ok (matrices, h1) →
  Forall2 (holds h1) matrices Us →
  ∃ U h2,
    KroneckerGate_matrix kron gates v h = Ok (U, h2)
    ∧ h2 !! U = kron_chain kron Us
    ∧ (∀ U1 U2, Us = [U1; U2] → h2 !! U = Some (kron U1 U2)).
Proof.
  intros Hne Hv Hc HF.
  assert (Hlen := collect_matrices_length _ _ _ _ _ _ Hc).
  assert (∃ U h2, KroneckerGate_matrix kron gates v h = Ok (U, h2)
                  ∧ h2 !! U = kron_chain kron Us) as (U & h2 & E & HU).
  { unfold KroneckerGate_matrix.
    destruct gates as [|g [|g' gates]]; [done| |].
    - apply collect_matrices_single in Hc as (U & -> & E); [|done].
      apply Forall2_cons_inv_l in HF as (u & Us' & HU & HF & ->).
      apply Forall2_nil_inv_l in HF as ->.
      exists U, h1. simpl. split; [|done].
      unfold mbind, Py_bind. simpl. by rewrite E.
    - assert ((length (g :: g' :: gates) <? 2) = false) as -> by (apply Nat.ltb_ge; simpl; lia).
      rewrite (bind_run _ _ _ _ _ Hc).
      destruct matrices as [|m0 ms]; [done|].
      apply Forall2_cons_inv_l in HF as (u & Us' & HU & HF & ->).
      unfold mbind at 1, Py_bind, py_lift, py_index. simpl lookup. cbv iota beta.
      rewrite py_slice_from_1.
      destruct (kron_matrix_loop_spec ms Us' m0 u h1 HU HF) as (U' & h' & E & HU' & _).
      exists U', h'. by split. }
  exists U, h2. split_and!; [done..|].
  intros U1 U2 ->. by rewrite HU.
Qed.

(** C4: let [v] be sliced contiguously per child, in order, and let the
    children, each called on its slice, return the matrices [Us].  Then
    the matrix of a Kronecker gate with at least one child, on [v], is
    the left-to-right Kronecker product of [Us]; for two children it is
    [kron U1 U2], first child on the left. *)
Theorem KroneckerGate_matrix_spec gates (slices : list (list P)) h matrices h1 Us :
  gates ≠ [] →
  sliced_per_child gates slices →
  call_children matrix gates slices h = Ok (matrices, h1) →
  Forall2 (holds h1) matrices Us →
  ∃ U h2,
    KroneckerGate_matrix kron gates (concat slices) h = Ok (U, h2)
    ∧ h2 !! U = kron_chain kron Us
    ∧ (∀ U1 U2, Us = [U1; U2] → h2 !! U = Some (kron U1 U2)).
Proof.
  intros Hne Hs Hc HF.
  rewrite <- (collect_matrices_slices gates slices h Hs) in Hc.
  exact (KroneckerGate_matrix_of_loop gates (concat slices) h matrices h1 Us
           Hne (sliced_total_inputs gates slices Hs) Hc HF).
Qed.

(** *** [ProductGate.matrix] *)
Lemma product_matrix_loop_spec matrices : ∀ Us U u buffer1 buffer2 z h,
  holds h U u → holds h buffer1 z →
  Forall2 (holds h) matrices Us → buffer1 ∉ matrices →
  ∃ U' h', product_matrix_loop matmul matrices U buffer1 buffer2 h = Ok (U', h')
           ∧ holds h' U' (foldl (λ acc m, matmul m acc) u Us).
Proof.
  induction matrices as [|m matrices IH]; intros Us U u b1 b2 z h HU Hb HF Hnot.
  - apply Forall2_nil_inv_l in HF as ->. simpl. eauto.
  - apply Forall2_cons_inv_l in HF as (x & Us' & Hm & HF & ->). simpl.
    apply not_elem_of_cons in Hnot as [Hne Hnot].
    rewrite (bind_run _ _ _ _ _ (np_matmul_out_run matmul _ _ _ _ _ _ _ Hm HU Hb)).
    apply (IH Us' b1 (matmul x u) b1 b1 (matmul x u)); [| |  |done].
    + by eapply holds_set_eq.
    + by eapply holds_set_eq.
    + by apply Forall2_holds_set.
Qed.

(** After the first loop: every further matrix that the loop collected
    is multiplied on the left. *)
Lemma ProductGate_matrix_of_loop gates v h matrices h1 Us :
  gates ≠ [] →
  Z.of_nat (length v) = total_inputs gates →
  collect_matrices gates v 0 h = Ok (matrices, h1) →
  Forall2 (holds h1) matrices Us →
  ∃ U h2,
    ProductGate_matrix matmul gates v h = Ok (U, h2)
    ∧ h2 !! U = matmul_chain matmul Us.
Proof.
  intros Hne Hv Hc HF.
  assert (Hlen := collect_matrices_length _ _ _ _ _ _ Hc).
  unfold ProductGate_matrix.
  destruct gates as [|g [|g' gates]]; [done| |].
  - apply collect_matrices_single in Hc as (U & -> & E); [|done].
    apply Forall2_cons_inv_l in HF as (u & Us' & HU & HF & ->).
    apply Forall2_nil_inv_l in HF as ->.
    exists U, h1. simpl. split; [|done].
    unfold mbind, Py_bind. simpl. by rewrite E.
  - assert ((length (g :: g' :: gates) <? 2) = false) as -> by (apply Nat.ltb_ge; simpl; lia).
    rewrite (bind_run _ _ _ _ _ Hc).
    destruct matrices as [|m0 ms]; [done|].
    pose proof HF as HF0.
    apply Forall2_cons_inv_l in HF as (u & Us' & HU & HF & ->).
    unfold mbind at 1, Py_bind, py_lift, py_index. simpl lookup. cbv iota beta.
    rewrite (bind_run _ _ _ _ _ (np_copy_run _ _ _ HU)).
    rewrite (bind_run _ _ _ _ _ (np_copy_run _ _ _ (holds_new _ _ _ u HU))).
    rewrite py_slice_from_1.
    set (h' := (h1 ++ [u]) ++ [u]).
    assert (Hp : h1 `prefix_of` h') by (unfold h'; rewrite <- app_assoc; by apply prefix_app_r).
    destruct (product_matrix_loop_spec ms Us' m0 u (length h1) (length (h1 ++ [u])) u h')
      as (U' & h2 & E & HU').
    + by eapply holds_prefix.
    + apply holds_new, holds_new_eq.
    + by eapply Forall2_holds_prefix.
    + eapply Forall2_holds_fresh. exact HF.
    + exists U', h2. by split.
Qed.

(** C2: let [v] be sliced contiguously per child and let the children,
    each called on its slice, return the matrices [U1, ..., Un], in the
    order of the children.  Then the matrix of a product gate with at
    least one child, on [v], is [Un · (.. · (U2 · U1))]: every further
    child is multiplied on the left. *)
Theorem ProductGate_matrix_spec gates (slices : list (list P)) h matrices h1 Us :
  gates ≠ [] →
  sliced_per_child gates slices →
  call_children matrix gates slices h = Ok (matrices, h1) →
  Forall2 (holds h1) matrices Us →
  ∃ U h2,
    ProductGate_matrix matmul gates (concat slices) h = Ok (U, h2)
    ∧ h2 !! U = matmul_chain matmul Us.
Proof.
  intros Hne Hs Hc HF.
  rewrite <- (collect_matrices_slices gates slices h Hs) in Hc.
  exact (ProductGate_matrix_of_loop gates (concat slices) h matrices h1 Us
           Hne (sliced_total_inputs gates slices Hs) Hc HF).
Qed.

(** *** [KroneckerGate.mat_jac] *)
Lemma kron_chain_snoc (l : list ndarray) x :
  kron_chain kron (l ++ [x])
  = Some (match kron_chain kron l with None => x | Some u => kron u x end).
Proof. destruct l as [|y l]; simpl; [done|]. by rewrite foldl_snoc. Qed.

Lemma kron_chain_is_Some (l : list ndarray) : l ≠ [] → is_Some (kron_chain kron l).
Proof. destruct l; [done|]. simpl. eauto. Qed.

Lemma kron_jacs_right_spec jacs : ∀ (vals : list ndarray) M m h,
  holds h M m → Forall2 (holds h) jacs vals →
  ∃ jacs' h', kron_jacs_right kron jacs M h = Ok (jacs', h')
    ∧ Forall2 (holds h') jacs' ((λ x, kron x m) <$> vals)
    ∧ h `prefix_of` h'.
Proof.
  induction jacs as [|J jacs IH]; intros vals M m h HM HF.
  - apply Forall2_nil_inv_l in HF as ->. simpl. exists [], h. by split_and!.
  - apply Forall2_cons_inv_l in HF as (x & vals' & HJ & HF & ->). simpl.
    rewrite (bind_run _ _ _ _ _ (np_kron_run kron _ _ _ _ _ HJ HM)).
    destruct (IH vals' M m (h ++ [kron x m])) as (jacs' & h' & E & HF' & Hp).
    + by apply holds_new.
    + eapply Forall2_holds_prefix; [|exact HF]. by apply prefix_app_r.
    + rewrite (bind_run _ _ _ _ _ E). eexists _, h'. split; [done|].
      assert (Hp' : h `prefix_of` h') by (etrans; [|exact Hp]; by apply prefix_app_r).
      split; [|done]. constructor; [|done].
      eapply holds_prefix; [exact Hp|]. apply holds_new_eq.
Qed.

Lemma kron_jacs_append_spec Js : ∀ (Jvals : list ndarray) U (Usd : list ndarray) jacs vals h,
  kron_acc kron h U Usd →
  Forall2 (holds h) Js Jvals → Forall2 (holds h) jacs vals →
  ∃ jacs' h', kron_jacs_append kron Js U jacs h = Ok (jacs', h')
    ∧ Forall2 (holds h') jacs'
        (vals ++ ((λ J, match kron_chain kron Usd with None => J | Some u => kron u J end) <$> Jvals))
    ∧ h `prefix_of` h'.
Proof.
  induction Js as [|J Js IH]; intros Jvals U Usd jacs vals h HU HJs HF.
  - apply Forall2_nil_inv_l in HJs as ->. simpl. exists jacs, h.
    rewrite app_nil_r. by split_and!.
  - apply Forall2_cons_inv_l in HJs as (x & Jvals' & HJ & HJs & ->). simpl.
    destruct U as [u|]; simpl in HU.
    + destruct HU as (uv & EU & HU).
      rewrite (bind_run _ _ _ _ _ (np_kron_run kron _ _ _ _ _ HU HJ)).
      destruct (IH Jvals' (Some u) Usd (jacs ++ [length h]) (vals ++ [kron uv x]) (h ++ [kron uv x]))
        as (jacs' & h' & E & HF' & Hp).
      * simpl. exists uv. split; [done|]. by apply holds_new.
      * eapply Forall2_holds_prefix; [|exact HJs]. by apply prefix_app_r.
      * apply Forall2_app; [eapply Forall2_holds_prefix; [|exact HF]; by apply prefix_app_r|].
        constructor; [apply holds_new_eq|constructor].
      * exists jacs', h'. split; [done|]. rewrite EU in HF' |- *.
        rewrite <- app_assoc in HF'. split; [exact HF'|].
        etrans; [|exact Hp]. by apply prefix_app_r.
    + subst Usd. simpl.
      destruct (IH Jvals' None [] (jacs ++ [J]) (vals ++ [x]) h)
        as (jacs' & h' & E & HF' & Hp); [done|done| |].
      * apply Forall2_app; [done|]. by constructor.
      * exists jacs', h'. unfold mbind at 1, Py_bind, mret, Py_ret.
        split; [done|]. simpl in HF'. rewrite <- app_assoc in HF'. by split.
Qed.

Lemma elem_of_concat {A} (x : A) (l : list A) (ls : list (list A)) :
  x ∈ l → l ∈ ls → x ∈ concat ls.
Proof.
  intros Hx Hl. induction Hl as [l ls|l l' ls _ IH]; simpl; apply elem_of_app; auto.
Qed.

Lemma fmap_concat {A B} (f : A → B) (ls : list (list A)) :
  f <$> concat ls = concat ((λ l : list A, f <$> l) <$> ls).
Proof.
  induction ls as [|l ls IH]; [done|]. simpl. by rewrite fmap_app, IH.
Qed.

Lemma kron_jacobians_snoc (Usd : list ndarray) (Jssd : list (list ndarray)) um Jsv :
  length Usd = length Jssd →
  kron_jacobians kron (Usd ++ [um]) (Jssd ++ [Jsv])
  = ((λ x, kron x um) <$> kron_jacobians kron Usd Jssd)
    ++ ((λ J, match kron_chain kron Usd with None => J | Some u => kron u J end) <$> Jsv).
Proof.
  intros Hlen. unfold kron_jacobians.
  rewrite imap_app, concat_app. f_equal.
  - rewrite fmap_concat, fmap_imap. f_equal. apply imap_ext.
    intros c Js Hc. simpl. rewrite <- list_fmap_compose.
    apply list_fmap_ext. intros _ J _. simpl.
    assert (c < length Usd) by (rewrite Hlen; by eapply lookup_lt_Some).
    rewrite insert_app_l, kron_chain_snoc by done.
    destruct (kron_chain_is_Some (<[c:=J]> Usd)) as [u ->]; [|done].
    intros E. apply (f_equal length) in E. rewrite length_insert in E. simpl in E. lia.
  - simpl. rewrite app_nil_r. apply list_fmap_ext. intros _ J _.
    rewrite Nat.add_0_r, <- Hlen.
    replace (<[length Usd:=J]> (Usd ++ [um])) with (Usd ++ [J]).
    + by rewrite kron_chain_snoc.
    + rewrite <- (Nat.add_0_r (length Usd)) at 1. by rewrite insert_app_r.
Qed.

Lemma kron_mat_jac_loop_spec matjacs : ∀ (Usr : list ndarray) (Jssr : list (list ndarray))
    Usd Jssd U jacs h,
  Forall2 (holds h) matjacs.*1 Usr →
  Forall2 (Forall2 (holds h)) matjacs.*2 Jssr →
  length Usd = length Jssd →
  kron_acc kron h U Usd →
  Forall2 (holds h) jacs (kron_jacobians kron Usd Jssd) →
  ∃ U' jacs' h',
    kron_mat_jac_loop kron matjacs U jacs h = Ok ((U', jacs'), h')
    ∧ kron_acc kron h' U' (Usd ++ Usr)
    ∧ Forall2 (holds h') jacs' (kron_jacobians kron (Usd ++ Usr) (Jssd ++ Jssr)).
Proof.
  induction matjacs as [|[M Js] matjacs IH];
    intros Usr Jssr Usd Jssd U jacs h HUs HJss Hlen HU Hjacs.
  - apply Forall2_nil_inv_l in HUs as ->. apply Forall2_nil_inv_l in HJss as ->.
    rewrite !app_nil_r. simpl. by eexists _, _, _.
  - simpl in HUs, HJss.
    apply Forall2_cons_inv_l in HUs as (um & Usr' & HM & HUs & ->).
    apply Forall2_cons_inv_l in HJss as (Jsv & Jssr' & HJs & HJss & ->).
    simpl.
    destruct (kron_jacs_right_spec jacs _ M um h HM Hjacs) as (jacs1 & h1 & E1 & Hj1 & Hp1).
    rewrite (bind_run _ _ _ _ _ E1).
    assert (HU1 : kron_acc kron h1 U Usd).
    { destruct U as [u|]; [|done]. destruct HU as (x & ? & ?).
      exists x. split; [done|]. by eapply holds_prefix. }
    destruct (kron_jacs_append_spec Js Jsv U Usd jacs1 _ h1 HU1
                (Forall2_holds_prefix _ _ _ _ Hp1 HJs) Hj1) as (jacs2 & h2 & E2 & Hj2 & Hp2).
    rewrite (bind_run _ _ _ _ _ E2).
    rewrite <- kron_jacobians_snoc in Hj2 by done.
    assert (Hp : h `prefix_of` h2) by (by etrans).
    assert (HM2 : holds h2 M um) by (by eapply holds_prefix).
    assert (∃ u' h3, (match U with None => mret M | Some U0 => np_kron kron U0 M end) h2 = Ok (u', h3)
             ∧ kron_acc kron h3 (Some u') (Usd ++ [um]) ∧ h2 `prefix_of` h3) as (u' & h3 & E3 & HU3 & Hp3).
    { destruct U as [u|].
      - destruct HU as (x & EU & Hx).
        assert (Hx2 : holds h2 u x) by (by eapply holds_prefix).
        rewrite (np_kron_run kron _ _ _ _ _ Hx2 HM2).
        eexists _, _. split; [done|]. split; [|by apply prefix_app_r].
        simpl. rewrite kron_chain_snoc, EU. eexists. split; [done|]. apply holds_new_eq.
      - simpl in HU. subst Usd. exists M, h2. split; [done|]. split; [|done].
        simpl. eauto. }
    rewrite (bind_run _ _ _ _ _ E3).
    destruct (IH Usr' Jssr' (Usd ++ [um]) (Jssd ++ [Jsv]) (Some u') jacs2 h3)
      as (U' & jacs' & h' & E & HU' & Hj').
    + eapply Forall2_holds_prefix; [|exact HUs]. by etrans.
    + eapply Forall2_impl; [exact HJss|]. intros ? ? ?.
      eapply Forall2_holds_prefix; [|done]. by etrans.
    + rewrite !length_app. simpl. lia.
    + done.
    + by eapply Forall2_holds_prefix.
    + exists U', jacs', h'. rewrite <- (app_assoc Usd) in HU', Hj'.
      rewrite <- (app_assoc Jssd) in Hj'.
      split_and!; [exact E|exact HU'|exact Hj'].
Qed.



(** X8: when [v] is the concatenation of one slice per child, slice [k]
    with [num_inputs] of child [k] entries, the loop of the composite
    [matrix] and [mat_jac] methods calls child [k] on exactly slice [k],
    first child first; a single child is handed the whole of [v], which
    is its slice. *)
Theorem children_receive_their_slices gates (slices : list (list P)) h :
  sliced_per_child gates slices →
  collect_matrices gates (concat slices) 0 h = call_children matrix gates slices h
  ∧ collect_matjacs gates (concat slices) 0 h = call_children mat_jac gates slices h
  ∧ ∀ g s, gates = [g] → slices = [s] →
      KroneckerGate_matrix kron gates (concat slices) h = matrix g s h
      ∧ ProductGate_matrix matmul gates (concat slices) h = matrix g s h
      ∧ ProductGate_mat_jac matmul eye adjoint gates (concat slices) h = mat_jac g s h
      ∧ KroneckerGate_mat_jac kron gates (concat slices) h
        = ('(U, Js) ← mat_jac g s; mret (Some U, Js)) h.
Proof.
  intros Hs. split; [by apply collect_matrices_slices|].
  split; [by apply collect_matjacs_slices|].
  intros g s -> ->. simpl. rewrite app_nil_r. by split_and!.
Qed.

(** *** Flat parameter positions *)
Lemma total_inputs_length gates (Jss : list (list ndarray)) :
  Forall2 one_per_input gates Jss →
  total_inputs gates = Z.of_nat (length (concat Jss)).
Proof.
  induction 1 as [|g Js gates Jss Hg _ IH]; [done|].
  rewrite total_inputs_cons, IH. simpl. rewrite length_app.
  unfold one_per_input in Hg. lia.
Qed.

Lemma param_index_concat gates (Jss : list (list ndarray)) c i :
  Forall2 one_per_input gates Jss →
  param_index gates c i = length (concat (take c Jss)) + i.
Proof.
  intros HF. unfold param_index.
  rewrite (total_inputs_length (take c gates) (take c Jss)) by (by apply Forall2_take).
  lia.
Qed.

Lemma lookup_concat_imap {A B} (g : nat → A → B) (ls : list (list A)) : ∀ c l i x,
  ls !! c = Some l → l !! i = Some x →
  concat (imap (λ c l, g c <$> l) ls) !! (length (concat (take c ls)) + i) = Some (g c x).
Proof.
  revert g. induction ls as [|l0 ls IH]; intros g c l i x Hc Hi; [done|].
  rewrite imap_cons. simpl concat at 1. destruct c as [|c]; simpl in Hc.
  - inversion Hc; subst. simpl. rewrite lookup_app_l.
    + by rewrite list_lookup_fmap, Hi.
    + rewrite length_fmap. by eapply lookup_lt_Some.
  - simpl take. simpl concat. rewrite length_app, <- Nat.add_assoc.
    rewrite lookup_app_r by (rewrite length_fmap; lia).
    rewrite length_fmap. replace (_ + _ - _) with (length (concat (take c ls)) + i) by lia.
    by apply (IH (g ∘ S) c l).
Qed.

Lemma length_concat_imap {A B} (g : nat → A → B) (ls : list (list A)) :
  length (concat (imap (λ c l, g c <$> l) ls)) = length (concat ls).
Proof.
  revert g. induction ls as [|l ls IH]; intros g; [done|].
  rewrite imap_cons. simpl. rewrite !length_app, length_fmap. f_equal. apply (IH (g ∘ S)).
Qed.

Lemma jacobians_by_parameter gates (Jss : list (list ndarray))
    (g : nat → ndarray → ndarray) (jacs : list ref) h :
  Forall2 one_per_input gates Jss →
  Forall2 (holds h) jacs (concat (imap (λ c Js, g c <$> Js) Jss)) →
  Z.of_nat (length jacs) = total_inputs gates
  ∧ ∀ c i Js J, Jss !! c = Some Js → Js !! i = Some J →
      ∃ r, jacs !! param_index gates c i = Some r ∧ holds h r (g c J).
Proof.
  intros Hone Hjacs. split.
  - apply Forall2_length in Hjacs. rewrite Hjacs, length_concat_imap.
    symmetry. by apply total_inputs_length.
  - intros c i Js J HJs HJ.
    rewrite (param_index_concat gates Jss) by done.
    pose proof (lookup_concat_imap g Jss c Js i J HJs HJ) as Hx.
    destruct (Forall2_lookup_r _ _ _ _ _ Hjacs Hx) as (r & Hr & Hh). eauto.
Qed.

(** After the first loop: one Jacobian per flat parameter, each the
    Kronecker product with one factor replaced. *)
Lemma KroneckerGate_mat_jac_of_loop gates v h matjacs h1 Us Jss :
  gates ≠ [] →
  Z.of_nat (length v) = total_inputs gates →
  collect_matjacs gates v 0 h = Ok (matjacs, h1) →
  Forall2 (holds h1) matjacs.*1 Us →
  Forall2 (Forall2 (holds h1)) matjacs.*2 Jss →
  Forall2 one_per_input gates Jss →
  ∃ U jacs h2,
    KroneckerGate_mat_jac kron gates v h = Ok ((Some U, jacs), h2)
    ∧ h2 !! U = kron_chain kron Us
    ∧ Z.of_nat (length jacs) = total_inputs gates
    ∧ ∀ c i Js J, Jss !! c = Some Js → Js !! i = Some J →
        ∃ r, jacs !! param_index gates c i = Some r
             ∧ h2 !! r = kron_chain kron (<[c := J]> Us).
Proof.
  intros Hne Hv Hc HUs HJss Hone.
  assert (Hlen := collect_matjacs_length _ _ _ _ _ _ Hc).
  assert (HlenU : length Us = length gates).
  { apply Forall2_length in HUs. rewrite length_fmap in HUs. lia. }
  assert (∃ U jacs h2, KroneckerGate_mat_jac kron gates v h = Ok ((Some U, jacs), h2)
            ∧ h2 !! U = kron_chain kron Us
            ∧ Forall2 (holds h2) jacs (kron_jacobians kron Us Jss))
    as (U & jacs & h2 & E & HU & Hjacs).
  { unfold KroneckerGate_mat_jac.
    destruct gates as [|g [|g' gates]]; [done| |].
    - simpl in Hc. unfold total_inputs in Hv. simpl in Hv.
      rewrite (py_slice_all v (num_inputs g)) in Hc by lia.
      apply bind_inv in Hc as ([U Js] & h' & E & E'). inversion E'; subst. clear E'.
      simpl in HUs, HJss.
      apply Forall2_cons_inv_l in HUs as (u & Us' & HU & HUs & ->).
      apply Forall2_nil_inv_l in HUs as ->.
      apply Forall2_cons_inv_l in HJss as (Jsv & Jss' & HJs & HJss & ->).
      apply Forall2_nil_inv_l in HJss as ->.
      exists U, Js, h1. simpl. split_and!.
      + unfold mbind, Py_bind. simpl. by rewrite E.
      + done.
      + unfold kron_jacobians. simpl. rewrite app_nil_r.
        rewrite (list_fmap_ext _ id Jsv), list_fmap_id; [done|]. by intros.
    - assert ((length (g :: g' :: gates) <? 2) = false) as -> by (apply Nat.ltb_ge; simpl; lia).
      rewrite (bind_run _ _ _ _ _ Hc).
      destruct (kron_mat_jac_loop_spec matjacs Us Jss [] [] None [] h1)
        as (U' & jacs' & h' & E & HU' & Hj'); [done|done|done|done|constructor|].
      simpl in HU', Hj'. destruct U' as [u'|].
      + destruct HU' as (x & EU & Hx). exists u', jacs', h'. rewrite EU. by split_and!.
      + unfold kron_acc in HU'. rewrite HU' in HlenU. done. }
  exists U, jacs, h2. split_and!; [done|done| |].
  - apply Forall2_length in Hjacs. rewrite Hjacs. unfold kron_jacobians.
    rewrite length_concat_imap. symmetry. by apply total_inputs_length.
  - intros c i Js J HJs HJ.
    rewrite (param_index_concat gates Jss) by done.
    pose proof (lookup_concat_imap (λ c J, default J (kron_chain kron (<[c:=J]> Us))) Jss c Js i J HJs HJ) as Hx.
    destruct (Forall2_lookup_r _ _ _ _ _ Hjacs Hx) as (r & Hr & Hh).
    exists r. split; [done|]. unfold holds in Hh. rewrite Hh.
    destruct (kron_chain_is_Some (<[c:=J]> Us)) as [u ->]; [|done].
    intros E'. apply (f_equal length) in E'. rewrite length_insert in E'.
    destruct gates; [done|]. simpl in *. lia.
Qed.

(** C3 (for a gate with at least one child): let [v] be sliced
    contiguously per child and let the children, each called on its
    slice, return the matrices [Us] and the Jacobians [Jss], one per
    parameter.  Then the Jacobians of the Kronecker gate on [v] come one
    per flat parameter, in parameter order, and the one for parameter [i]
    of child [c] is the left-to-right Kronecker product of the children's
    matrices with the factor of child [c] replaced by that child's
    Jacobian. *)
Theorem KroneckerGate_mat_jac_spec gates (slices : list (list P)) h matjacs h1 Us Jss :
  gates ≠ [] →
  sliced_per_child gates slices →
  call_children mat_jac gates slices h = Ok (matjacs, h1) →
  Forall2 (holds h1) matjacs.*1 Us →
  Forall2 (Forall2 (holds h1)) matjacs.*2 Jss →
  Forall2 one_per_input gates Jss →
  ∃ U jacs h2,
    KroneckerGate_mat_jac kron gates (concat slices) h = Ok ((Some U, jacs), h2)
    ∧ h2 !! U = kron_chain kron Us
    ∧ Z.of_nat (length jacs) = total_inputs gates
    ∧ ∀ c i Js J, Jss !! c = Some Js → Js !! i = Some J →
        ∃ r, jacs !! param_index gates c i = Some r
             ∧ h2 !! r = kron_chain kron (<[c := J]> Us).
Proof.
  intros Hne Hs Hc HUs HJss Hone.
  rewrite <- (collect_matjacs_slices gates slices h Hs) in Hc.
  exact (KroneckerGate_mat_jac_of_loop gates (concat slices) h matjacs h1 Us Jss
           Hne (sliced_total_inputs gates slices Hs) Hc HUs HJss Hone).
Qed.

(** *** [ProductGate.mat_jac] *)
Section Scan.
Context `{!MatrixLaws matmul eye}.

Lemma mprod_cons U (Us : list ndarray) :
  mprod matmul eye (U :: Us) = matmul (mprod matmul eye Us) U.
Proof. done. Qed.

Lemma mprod_snoc (Us : list ndarray) U :
  mprod matmul eye (Us ++ [U]) = matmul U (mprod matmul eye Us).
Proof.
  induction Us as [|U' Us IH]; simpl.
  - by rewrite matmul_eye_l, matmul_eye_r.
  - fold (mprod matmul eye (Us ++ [U])). fold (mprod matmul eye Us).
    by rewrite IH, matmul_assoc.
Qed.

Lemma foldl_matmul_mprod (Us : list ndarray) : ∀ u,
  foldl (λ acc m, matmul m acc) u Us = matmul (mprod matmul eye Us) u.
Proof.
  induction Us as [|U Us IH]; intros u; simpl.
  - by rewrite matmul_eye_l.
  - fold (mprod matmul eye Us). by rewrite IH, matmul_assoc.
Qed.

Lemma matmul_chain_mprod (Us : list ndarray) :
  Us ≠ [] → matmul_chain matmul Us = Some (mprod matmul eye Us).
Proof.
  destruct Us as [|U Us]; [done|]. intros _. simpl.
  by rewrite foldl_matmul_mprod.
Qed.

Lemma mprod_strip U (Us : list ndarray) :
  unitary matmul eye adjoint U →
  matmul (mprod matmul eye (U :: Us)) (adjoint U) = mprod matmul eye Us.
Proof.
  intros HU. rewrite mprod_cons, <- matmul_assoc, HU. apply matmul_eye_r.
Qed.


Lemma product_suffix_loop_spec submats : ∀ (Us : list ndarray) A a ba1 ba2 z h,
  holds h A a → holds h ba1 z → Forall2 (holds h) submats Us → ba1 ∉ submats →
  ∃ A' ba2' h',
    product_suffix_loop matmul submats A ba1 ba2 h = Ok ((A', ba1, ba2'), h')
    ∧ holds h' A' (foldl (λ acc m, matmul m acc) a Us)
    ∧ ((submats = [] ∧ A' = A ∧ ba2' = ba2) ∨ (A' = ba1 ∧ ba2' = ba1))
    ∧ (∀ r x, r ≠ ba1 → holds h r x → holds h' r x)
    ∧ length h' = length h.
Proof.
  induction submats as [|m ms IH]; intros Us A a ba1 ba2 z h HA Hb HF Hnot.
  - apply Forall2_nil_inv_l in HF as ->. simpl. eexists _, _, _.
    split_and!; [done|done|by left|done|done].
  - apply Forall2_cons_inv_l in HF as (x & Us' & Hm & HF & ->). simpl.
    apply not_elem_of_cons in Hnot as [Hne Hnot].
    rewrite (bind_run _ _ _ _ _ (np_matmul_out_run matmul _ _ _ _ _ _ _ Hm HA Hb)).
    destruct (IH Us' ba1 (matmul x a) ba1 ba1 (matmul x a) (<[ba1:=matmul x a]> h))
      as (A' & ba2' & h' & E & HA' & Hcase & Hframe & Hlen).
    + by eapply holds_set_eq.
    + by eapply holds_set_eq.
    + by apply Forall2_holds_set.
    + done.
    + exists A', ba2', h'. split_and!; [done|done| | |].
      * right. destruct Hcase as [(_ & -> & ->)|]; done.
      * intros r y Hr Hy. apply Hframe; [done|]. by apply holds_set_ne.
      * by rewrite Hlen, length_insert.
Qed.

Lemma product_jacs_loop_spec Js : ∀ (Jsv : list ndarray) A a B b bj jacs vals h,
  holds h A a → holds h B b → (∃ z, holds h bj z) →
  Forall2 (holds h) Js Jsv → Forall2 (holds h) jacs vals →
  NoDup Js → A ∉ Js → B ∉ Js → bj ∉ Js → A ≠ bj → B ≠ bj →
  bj ∉ jacs → (∀ r, r ∈ Js → r ∉ jacs) →
  ∃ h',
    product_jacs_loop matmul Js A B bj jacs h = Ok (jacs ++ Js, h')
    ∧ Forall2 (holds h') (jacs ++ Js) (vals ++ ((λ J, matmul a (matmul J b)) <$> Jsv))
    ∧ (∀ r x, r ∉ Js → r ≠ bj → holds h r x → holds h' r x)
    ∧ (∃ z, holds h' bj z)
    ∧ length h' = length h.
Proof.
  induction Js as [|J Js IH];
    intros Jsv A a B b bj jacs vals h HA HB [z Hbj] HJs Hjacs Hnd HAn HBn Hbjn HAb HBb Hbjj Hdis.
  - apply Forall2_nil_inv_l in HJs as ->. simpl. exists h.
    rewrite !app_nil_r. split_and!; eauto.
  - apply Forall2_cons_inv_l in HJs as (x & Jsv' & HJ & HJs & ->).
    apply NoDup_cons in Hnd as [HJn Hnd].
    apply not_elem_of_cons in HAn as [HAJ HAn].
    apply not_elem_of_cons in HBn as [HBJ HBn].
    apply not_elem_of_cons in Hbjn as [HbjJ Hbjn].
    simpl.
    rewrite (bind_run _ _ _ _ _ (np_matmul_out_run matmul _ _ _ _ _ _ _ HJ HB Hbj)).
    set (h1 := <[bj:=matmul x b]> h).
    assert (HA1 : holds h1 A a) by (by apply holds_set_ne).
    assert (Hbj1 : holds h1 bj (matmul x b)) by (by eapply holds_set_eq).
    assert (HJ1 : holds h1 J x) by (by apply holds_set_ne).
    rewrite (bind_run _ _ _ _ _ (np_matmul_out_run matmul _ _ _ _ _ _ _ HA1 Hbj1 HJ1)).
    set (h2 := <[J:=matmul a (matmul x b)]> h1).
    assert (HA2 : holds h2 A a) by (by apply holds_set_ne).
    assert (HB2 : holds h2 B b) by (apply holds_set_ne; [done|]; by apply holds_set_ne).
    assert (Hbj2 : ∃ z, holds h2 bj z).
    { exists (matmul x b). apply holds_set_ne; [|done]. by intros ->. }
    assert (HJs2 : Forall2 (holds h2) Js Jsv').
    { apply Forall2_holds_set; [done|]. by apply Forall2_holds_set. }
    assert (Hjacs2 : Forall2 (holds h2) (jacs ++ [J]) (vals ++ [matmul a (matmul x b)])).
    { apply Forall2_app.
      - apply Forall2_holds_set; [apply Hdis; left|]. by apply Forall2_holds_set.
      - constructor; [|constructor]. by eapply holds_set_eq. }
    assert (Hbjj2 : bj ∉ jacs ++ [J]).
    { apply not_elem_of_app. split; [done|].
      apply not_elem_of_cons. split; [done|]. apply not_elem_of_nil. }
    assert (Hdis2 : ∀ r, r ∈ Js → r ∉ jacs ++ [J]).
    { intros r Hr. apply not_elem_of_app. split; [apply Hdis; by right|].
      apply not_elem_of_cons. split; [|apply not_elem_of_nil]. by intros ->. }
    destruct (IH Jsv' A a B b bj (jacs ++ [J]) (vals ++ [matmul a (matmul x b)]) h2
                HA2 HB2 Hbj2 HJs2 Hjacs2 Hnd HAn HBn Hbjn HAb HBb Hbjj2 Hdis2)
      as (h' & E & HF' & Hframe & Hbj' & Hlen).
    exists h'. rewrite <- (app_assoc jacs) in E, HF'. rewrite <- (app_assoc vals) in HF'.
    split_and!; [exact E|exact HF'| |done|].
    + intros r y Hr Hrb Hy. apply not_elem_of_cons in Hr as [HrJ Hr].
      apply Hframe; [done|done|]. apply holds_set_ne; [done|]. by apply holds_set_ne.
    + rewrite Hlen. unfold h2, h1. by rewrite !length_insert.
Qed.


Lemma product_jacobians_snoc (Us : list ndarray) (Jssd : list (list ndarray)) Jsv :
  product_jacobians matmul eye Us (Jssd ++ [Jsv])
  = product_jacobians matmul eye Us Jssd
    ++ ((λ J, matmul (prod_after matmul eye (length Jssd) Us)
                     (matmul J (prod_before matmul eye (length Jssd) Us))) <$> Jsv).
Proof.
  unfold product_jacobians. rewrite imap_app, concat_app. simpl.
  by rewrite app_nil_r, Nat.add_0_r.
Qed.

Lemma product_scan_loop_spec (submats : list ref) (Us : list ndarray) subjacs :
  ∀ (Jssr Jssd : list (list ndarray)) A B bb1 bj jacs h,
  Forall (unitary matmul eye adjoint) Us →
  length Jssd + length subjacs = length Us →
  Forall2 (holds h) submats Us →
  Forall2 (Forall2 (holds h)) subjacs Jssr →
  holds h A (mprod matmul eye (drop (length Jssd) Us)) →
  holds h B (mprod matmul eye (take (length Jssd) Us)) →
  (∃ z, holds h bb1 z) → (∃ z, holds h bj z) →
  NoDup [A; B; bb1; bj] →
  (∀ r, r ∈ [A; B; bb1; bj] → (r ∉ submats) ∧ (r ∉ concat subjacs) ∧ (r ∉ jacs)) →
  NoDup (concat subjacs) →
  (∀ r, r ∈ concat subjacs → (r ∉ submats) ∧ (r ∉ jacs)) →
  Forall2 (holds h) jacs (product_jacobians matmul eye Us Jssd) →
  ∃ B' h',
    product_scan_loop matmul adjoint subjacs (length Jssd) submats A B A A bb1 B bj jacs h
      = Ok ((B', jacs ++ concat subjacs), h')
    ∧ holds h' B' (mprod matmul eye Us)
    ∧ Forall2 (holds h') (jacs ++ concat subjacs)
        (product_jacobians matmul eye Us (Jssd ++ Jssr)).
Proof.
  induction subjacs as [|Js rest IH];
    intros Jssr Jssd A B bb1 bj jacs h Huni Hlen Hsub Hsj HA HB [zb Hbb1] [zj Hbj]
           Hnd Hbuf Hndj Hdisj Hjacs.
  - apply Forall2_nil_inv_l in Hsj as ->. simpl in *.
    rewrite Nat.add_0_r in Hlen. rewrite Hlen, firstn_all in HB.
    rewrite !app_nil_r. by eexists _, _.
  - apply Forall2_cons_inv_l in Hsj as (Jsv & Jssr' & HJs & Hrest & ->).
    set (i := length Jssd) in *. simpl in Hlen.
    assert (Hi : i < length Us) by lia.
    destruct (lookup_lt_is_Some_2 Us i Hi) as [ui Hui].
    destruct (Forall2_lookup_r _ _ _ _ _ Hsub Hui) as (si & Hsi & Hsiv).
    assert (Hsi_in : si ∈ submats) by (apply list_elem_of_lookup; eauto).
    (* the buffers are four different objects *)
    apply NoDup_cons in Hnd as [HA_n Hnd]. apply NoDup_cons in Hnd as [HB_n Hnd].
    apply NoDup_cons in Hnd as [Hbb1_n _].
    apply not_elem_of_cons in HA_n as [HAB HA_n].
    apply not_elem_of_cons in HA_n as [HAbb1 HA_n].
    apply not_elem_of_cons in HA_n as [HAbj _].
    apply not_elem_of_cons in HB_n as [HBbb1 HB_n].
    apply not_elem_of_cons in HB_n as [HBbj _].
    apply not_elem_of_cons in Hbb1_n as [Hbb1bj _].
    destruct (Hbuf A) as (HAsub & HAsj & HAjacs); [by left|].
    destruct (Hbuf B) as (HBsub & HBsj & HBjacs); [right; by left|].
    destruct (Hbuf bb1) as (Hb1sub & Hb1sj & Hb1jacs); [right; right; by left|].
    destruct (Hbuf bj) as (Hbjsub & Hbjsj & Hbjjacs); [right; right; right; by left|].
    simpl concat in *.
    apply NoDup_app in Hndj as (HndJs & HJsrest & Hndrest).
    apply not_elem_of_app in HAsj as [HAJs HArest].
    apply not_elem_of_app in HBsj as [HBJs HBrest].
    apply not_elem_of_app in Hb1sj as [Hb1Js Hb1rest].
    apply not_elem_of_app in Hbjsj as [HbjJs Hbjrest].
    (* run the body *)
    simpl product_scan_loop. unfold py_index. rewrite Hsi.
    unfold mbind at 1, Py_bind, py_lift. cbv iota beta.
    rewrite (bind_run _ _ _ _ _ (np_T_conjugate_run adjoint _ _ _ Hsiv)).
    set (h1 := h ++ [adjoint ui]).
    assert (Hp1 : h `prefix_of` h1) by (by apply prefix_app_r).
    assert (HA1 : holds h1 A (mprod matmul eye (drop i Us))) by (by eapply holds_prefix).
    assert (Ht1 : holds h1 (length h) (adjoint ui)) by apply holds_new_eq.
    rewrite (bind_run _ _ _ _ _ (np_matmul_out_run matmul _ _ _ _ _ _ _ HA1 Ht1 HA1)).
    rewrite (drop_S _ _ _ Hui), mprod_strip
      by (eapply Forall_lookup_1; [exact Huni|exact Hui]).
    set (a := mprod matmul eye (drop (S i) Us)).
    set (b := mprod matmul eye (take i Us)) in *.
    set (h2 := <[A:=a]> h1).
    assert (Hkeep2 : ∀ r x, r ≠ A → holds h r x → holds h2 r x).
    { intros r x Hr Hx. apply holds_set_ne; [done|]. by eapply holds_prefix. }
    assert (HA2 : holds h2 A a) by (by eapply holds_set_eq).
    assert (HJs2 : Forall2 (holds h2) Js Jsv).
    { apply Forall2_holds_set; [done|]. by eapply Forall2_holds_prefix. }
    assert (Hjacs2 : Forall2 (holds h2) jacs (product_jacobians matmul eye Us Jssd)).
    { apply Forall2_holds_set; [done|]. by eapply Forall2_holds_prefix. }
    assert (HdJ : ∀ r, r ∈ Js → r ∉ jacs).
    { intros r Hr. apply Hdisj, elem_of_app. by left. }
    destruct (product_jacs_loop_spec Js Jsv A a B b bj jacs
                (product_jacobians matmul eye Us Jssd) h2 HA2
                (Hkeep2 _ _ (not_eq_sym HAB) HB) (ex_intro _ zj (Hkeep2 _ _ (not_eq_sym HAbj) Hbj))
                HJs2 Hjacs2 HndJs HAJs HBJs HbjJs HAbj HBbj Hbjjacs HdJ)
      as (h3 & E3 & Hjacs3 & Hframe3 & [zj3 Hbj3] & Hlen3).
    rewrite (bind_run _ _ _ _ _ E3).
    unfold mbind at 1, Py_bind. cbv iota beta.
    assert (Hkeep3 : ∀ r x, r ≠ A → r ≠ bj → r ∉ Js → holds h r x → holds h3 r x).
    { intros r x ? ? ? Hx. apply Hframe3; [done|done|]. by apply Hkeep2. }
    assert (Hsi3 : holds h3 si ui).
    { apply Hkeep3; [by intros ->|by intros ->| |done].
      intros Hin. destruct (Hdisj si) as [Hn _]; [apply elem_of_app; by left|done]. }
    assert (HB3 : holds h3 B b) by (by apply Hkeep3).
    assert (Hbb13 : holds h3 bb1 zb) by (apply Hkeep3; [by intros ->|done|done|done]).
    rewrite (bind_run _ _ _ _ _ (np_matmul_out_run matmul _ _ _ _ _ _ _ Hsi3 HB3 Hbb13)).
    set (h4 := <[bb1:=matmul ui b]> h3).
    assert (Hkeep4 : ∀ r x, r ≠ A → r ≠ bj → r ≠ bb1 → r ∉ Js → holds h r x → holds h4 r x).
    { intros r x ? ? ? ? Hx. apply holds_set_ne; [done|]. by apply Hkeep3. }
    (* the next iteration *)
    assert (Hlen' : length (Jssd ++ [Jsv]) + length rest = length Us).
    { rewrite length_app. simpl. lia. }
    assert (Hi' : length (Jssd ++ [Jsv]) = S i) by (rewrite length_app; simpl; lia).
    assert (Hsub4 : Forall2 (holds h4) submats Us).
    { apply Forall2_same_length_lookup. split; [by eapply Forall2_length|].
      intros k r x Hr Hx. pose proof (Forall2_lookup_lr _ _ _ _ _ _ Hsub Hr Hx) as Hh.
      assert (Hin : r ∈ submats) by (apply list_elem_of_lookup; eauto).
      apply Hkeep4; [by intros ->|by intros ->|by intros ->| |done].
      intros HrJ. destruct (Hdisj r) as [Hn _]; [apply elem_of_app; by left|done]. }
    assert (Hrest4 : Forall2 (Forall2 (holds h4)) rest Jssr').
    { apply Forall2_same_length_lookup. split; [by eapply Forall2_length|].
      intros k rs xs Hrs Hxs. pose proof (Forall2_lookup_lr _ _ _ _ _ _ Hrest Hrs Hxs) as HF.
      apply Forall2_same_length_lookup. split; [by eapply Forall2_length|].
      intros j r x Hr Hx. pose proof (Forall2_lookup_lr _ _ _ _ _ _ HF Hr Hx) as Hh.
      assert (Hin : r ∈ concat rest).
      { apply (elem_of_concat r rs); apply list_elem_of_lookup; eauto. }
      apply Hkeep4; [by intros ->|by intros ->|by intros ->| |done].
      intros HrJ. by apply (HJsrest r). }
    assert (HA4 : holds h4 A (mprod matmul eye (drop (length (Jssd ++ [Jsv])) Us))).
    { rewrite Hi'. apply holds_set_ne; [by apply not_eq_sym|].
      apply Hframe3; [done|done|done]. }
    assert (HB4 : holds h4 bb1 (mprod matmul eye (take (length (Jssd ++ [Jsv])) Us))).
    { rewrite Hi', (take_S_r _ _ _ Hui), mprod_snoc. by eapply holds_set_eq. }
    assert (HBold4 : ∃ z, holds h4 B z).
    { exists b. apply holds_set_ne; [by apply not_eq_sym|done]. }
    assert (Hbj4 : ∃ z, holds h4 bj z).
    { exists zj3. apply holds_set_ne; [done|done]. }
    assert (Hnd4 : NoDup [A; bb1; B; bj]).
    { repeat (apply NoDup_cons; split); rewrite ?not_elem_of_cons;
        try apply NoDup_nil_2; try apply not_elem_of_nil;
        repeat split; try done; try apply not_elem_of_nil; by apply not_eq_sym. }
    assert (Hbuf4 : ∀ r, r ∈ [A; bb1; B; bj] →
              (r ∉ submats) ∧ (r ∉ concat rest) ∧ (r ∉ jacs ++ Js)).
    { intros r Hr. rewrite !elem_of_cons, elem_of_nil in Hr.
      rewrite not_elem_of_app.
      destruct Hr as [->|[->|[->|[->|[]]]]]; done. }
    assert (Hdisj4 : ∀ r, r ∈ concat rest → (r ∉ submats) ∧ (r ∉ jacs ++ Js)).
    { intros r Hr. destruct (Hdisj r) as [Hn Hn']; [apply elem_of_app; by right|].
      split; [done|]. apply not_elem_of_app. split; [done|].
      intros HrJ. by apply (HJsrest r). }
    assert (Hjacs4 : Forall2 (holds h4) (jacs ++ Js)
                       (product_jacobians matmul eye Us (Jssd ++ [Jsv]))).
    { rewrite product_jacobians_snoc. apply Forall2_holds_set; [|exact Hjacs3].
      by apply not_elem_of_app. }
    destruct (IH Jssr' (Jssd ++ [Jsv]) A bb1 B bj (jacs ++ Js) h4
                Huni Hlen' Hsub4 Hrest4 HA4 HB4 HBold4 Hbj4 Hnd4 Hbuf4 Hndrest Hdisj4 Hjacs4)
      as (B' & h' & E & HB' & Hj').
    rewrite Hi' in E. exists B', h'.
    rewrite <- (app_assoc jacs) in E, Hj'. rewrite <- (app_assoc Jssd) in Hj'.
    split_and!; [exact E|exact HB'|exact Hj'].
Qed.


(** After the first loop: the full product and one Jacobian per flat
    parameter, when the collected matrices are unitary and the collected
    Jacobian arrays are objects of their own. *)
Lemma ProductGate_mat_jac_of_loop gates v h matjacs h1 Us Jss :
  gates ≠ [] →
  Z.of_nat (length v) = total_inputs gates →
  collect_matjacs gates v 0 h = Ok (matjacs, h1) →
  Forall2 (holds h1) matjacs.*1 Us →
  Forall2 (Forall2 (holds h1)) matjacs.*2 Jss →
  NoDup (concat matjacs.*2) →
  (∀ r, r ∈ concat matjacs.*2 → r ∉ matjacs.*1) →
  Forall2 one_per_input gates Jss →
  Forall (unitary matmul eye adjoint) Us →
  ∃ B jacs h2,
    ProductGate_mat_jac matmul eye adjoint gates v h = Ok ((B, jacs), h2)
    ∧ holds h2 B (mprod matmul eye Us)
    ∧ Z.of_nat (length jacs) = total_inputs gates
    ∧ ∀ k i Js J, Jss !! k = Some Js → Js !! i = Some J →
        ∃ r, jacs !! param_index gates k i = Some r
             ∧ holds h2 r (matmul (prod_after matmul eye k Us)
                                  (matmul J (prod_before matmul eye k Us))).
Proof.
  intros Hne Hv Hc HUs HJss Hnd Hdis Hone Huni.
  assert (Hlen := collect_matjacs_length _ _ _ _ _ _ Hc).
  assert (∃ B jacs h2,
            ProductGate_mat_jac matmul eye adjoint gates v h = Ok ((B, jacs), h2)
            ∧ holds h2 B (mprod matmul eye Us)
            ∧ Forall2 (holds h2) jacs (product_jacobians matmul eye Us Jss))
    as (B & jacs & h2 & E & HB & Hjacs).
  { unfold ProductGate_mat_jac.
    destruct gates as [|g [|g' gates]]; [done| |].
    - simpl in Hc. unfold total_inputs in Hv. simpl in Hv.
      rewrite (py_slice_all v (num_inputs g)) in Hc by lia.
      apply bind_inv in Hc as ([U Js] & h' & E & E'). inversion E'; subst. clear E'.
      simpl in HUs, HJss.
      apply Forall2_cons_inv_l in HUs as (u & Us' & HU & HUs & ->).
      apply Forall2_nil_inv_l in HUs as ->.
      apply Forall2_cons_inv_l in HJss as (Jsv & Jss' & HJs & HJss & ->).
      apply Forall2_nil_inv_l in HJss as ->.
      exists U, Js, h1. simpl. split_and!.
      + unfold mbind, Py_bind. simpl. by rewrite E.
      + by rewrite matmul_eye_l.
      + unfold product_jacobians, prod_after, prod_before. simpl. rewrite app_nil_r.
        rewrite (list_fmap_ext _ id Jsv), list_fmap_id; [done|].
        intros. simpl. by rewrite matmul_eye_l, matmul_eye_r.
    - assert ((length (g :: g' :: gates) <? 2) = false) as -> by (apply Nat.ltb_ge; simpl; lia).
      unfold collect_submats_subjacs.
      rewrite (bind_run _ _ _ _ _ (bind_run _ _ _ _ _ Hc)).
      destruct matjacs as [|[m0 Js0] matjacs]; [done|].
      set (submats := ((m0, Js0) :: matjacs).*1) in *.
      set (subjacs := ((m0, Js0) :: matjacs).*2) in *.
      assert (Hs0 : submats !! 0 = Some m0) by done.
      pose proof HUs as HUs0.
      destruct Us as [|u0 Us']; [by apply Forall2_length in HUs|].
      apply Forall2_cons_1 in HUs0 as [Hm0 HUs'].
      unfold py_index. rewrite Hs0.
      unfold mbind at 1, Py_bind, py_lift. cbv iota beta.
      rewrite (bind_run _ _ _ _ _ (np_eye_like_run eye _ _ _ Hm0)).
      set (b0 := length h1). set (ha := h1 ++ [eye]).
      assert (Hm0a : holds ha m0 u0) by (by apply holds_new).
      rewrite (bind_run _ _ _ _ _ (np_copy_run _ _ _ Hm0a)).
      set (c1 := length ha). set (hb := ha ++ [u0]).
      assert (Hb0b : holds hb b0 eye) by (apply holds_new, holds_new_eq).
      rewrite (bind_run _ _ _ _ _ (np_copy_run _ _ _ Hb0b)).
      set (c2 := length hb). set (hc := hb ++ [eye]).
      assert (Hb0c : holds hc b0 eye) by (by apply holds_new).
      rewrite (bind_run _ _ _ _ _ (np_copy_run _ _ _ Hb0c)).
      set (c3 := length hc). set (hd := hc ++ [eye]).
      assert (Hp : h1 `prefix_of` hd).
      { unfold hd, hc, hb, ha. rewrite <- !app_assoc. by apply prefix_app_r. }
      assert (Hc1 : c1 = S b0) by (unfold c1, ha, b0; rewrite length_app; simpl; lia).
      assert (Hc2 : c2 = S (S b0)) by (unfold c2, hb; rewrite length_app; fold c1; simpl; lia).
      assert (Hc3 : c3 = S (S (S b0))) by (unfold c3, hc; rewrite length_app; fold c2; simpl; lia).
      assert (Hsubs_lt : ∀ r, r ∈ submats → r < b0).
      { intros r Hr. exact (Forall2_holds_lt h1 submats _ r HUs Hr). }
      assert (Hjacs_lt : ∀ r, r ∈ concat subjacs → r < b0).
      { intros r Hr. apply list_elem_of_In, in_concat in Hr as (rs & Hrs & Hr).
        apply list_elem_of_In in Hrs, Hr. apply list_elem_of_lookup in Hrs as [k Hk].
        destruct (Forall2_lookup_l _ _ _ _ _ HJss Hk) as (xs & _ & HF).
        exact (Forall2_holds_lt h1 rs xs r HF Hr). }
      replace (py_slice_from submats 1) with (matjacs.*1)
        by (unfold submats; simpl; by rewrite py_slice_from_1).
      destruct (product_suffix_loop_spec matjacs.*1 Us' m0 u0 c1 m0 u0 hd)
        as (A' & ba2' & h5 & E5 & HA5 & Hcase & Hframe5 & Hlen5).
      { by eapply holds_prefix. }
      { unfold hd, hc. do 2 apply holds_new. apply holds_new_eq. }
      { by eapply Forall2_holds_prefix. }
      { intros Hin. assert (c1 < b0); [|lia]. apply Hsubs_lt. unfold submats. simpl. by right. }
      rewrite (bind_run _ _ _ _ _ E5). cbv beta iota.
      destruct Hcase as [(Hnil & _)|[-> ->]].
      { destruct matjacs; [|done]. simpl in Hlen. lia. }
      rewrite foldl_matmul_mprod, <- mprod_cons in HA5.
      destruct (product_scan_loop_spec submats (u0 :: Us') subjacs Jss [] c1 b0 c2 c3 [] h5)
        as (B' & h' & E & HB' & Hj').
      + done.
      + simpl. apply Forall2_length in HUs.
        unfold subjacs, submats in *. rewrite !length_fmap in *. done.
      + eapply Forall2_same_length_lookup. split; [by eapply Forall2_length|].
        intros k r x Hr Hx. apply Hframe5.
        * assert (r < b0); [|lia]. apply Hsubs_lt, list_elem_of_lookup. eauto.
        * eapply holds_prefix; [exact Hp|]. by eapply (Forall2_lookup_lr _ _ _ _ _ _ HUs).
      + eapply Forall2_same_length_lookup. split; [by eapply Forall2_length|].
        intros k rs xs Hrs Hxs. pose proof (Forall2_lookup_lr _ _ _ _ _ _ HJss Hrs Hxs) as HF.
        eapply Forall2_same_length_lookup. split; [by eapply Forall2_length|].
        intros j r x Hr Hx. apply Hframe5.
        * assert (r < b0); [|lia]. apply Hjacs_lt, (elem_of_concat r rs); apply list_elem_of_lookup; eauto.
        * eapply holds_prefix; [exact Hp|]. by eapply (Forall2_lookup_lr _ _ _ _ _ _ HF).
      + done.
      + simpl. apply Hframe5; [lia|]. unfold hd. by apply holds_new.
      + exists eye. apply Hframe5; [lia|]. unfold hd. apply holds_new, holds_new_eq.
      + exists eye. apply Hframe5; [lia|]. apply holds_new_eq.
      + repeat (apply NoDup_cons; split); rewrite ?not_elem_of_cons;
          try apply NoDup_nil_2; try apply not_elem_of_nil;
          repeat split; try apply not_elem_of_nil; lia.
      + intros r Hr. rewrite !elem_of_cons, elem_of_nil in Hr.
        assert (b0 ≤ r) by (destruct Hr as [->|[->|[->|[->|[]]]]]; lia).
        split_and!; [| |apply not_elem_of_nil].
        * intros Hin. apply Hsubs_lt in Hin. lia.
        * intros Hin. apply Hjacs_lt in Hin. lia.
      + done.
      + intros r Hr. split; [by apply Hdis|apply not_elem_of_nil].
      + constructor.
      + exists B', (concat subjacs), h'. simpl in E, Hj'. by split_and!. }
  exists B, jacs, h2. split; [done|]. split; [done|].
  by apply (jacobians_by_parameter gates Jss
              (λ k J, matmul (prod_after matmul eye k Us)
                             (matmul J (prod_before matmul eye k Us)))).
Qed.

End Scan.
End ComposeFacts.

(** *** The product rule *)
Section ProductRule.
Context {ndarray : Type} (matmul madd : ndarray → ndarray → ndarray)
        (eye mzero : ndarray).
Context `{!MatrixLaws matmul eye} `{!TangentLaws matmul madd mzero}.

(** The pairs of the unit and of a constant matrix. *)
Lemma tmul_chain_start (X : ndarray * ndarray) (rest : list (ndarray * ndarray)) :
  foldl (λ acc m, tmul matmul madd m acc) X rest
  = foldl (λ acc m, tmul matmul madd m acc) (eye, mzero) (X :: rest).
Proof.
  simpl. f_equal. destruct X as [U D]. unfold tmul. simpl.
  by rewrite !(matmul_eye_r (matmul:=matmul) (eye:=eye)),
    (matmul_0_r (madd:=madd) (mzero:=mzero)), (madd_0_r (matmul:=matmul) (mzero:=mzero)).
Qed.

Lemma along_snoc k J (Us : list ndarray) U :
  along mzero k J (Us ++ [U])
  = along mzero k J Us ++ [(U, if decide (length Us = k) then J else mzero)].
Proof. unfold along. rewrite imap_app. simpl. by rewrite Nat.add_0_r. Qed.

(** The chain of [ProductGate.matrix] on pairs: while only child [k]
    moves, the derivative stays zero before [k], is [J · (product before
    k)] at [k], and is multiplied on the left by every later child. *)
Lemma product_rule_fold (Us : list ndarray) k J :
  foldl (λ acc m, tmul matmul madd m acc) (eye, mzero) (along mzero k J Us)
  = (mprod matmul eye Us,
     if decide (k < length Us)
     then matmul (prod_after matmul eye k Us) (matmul J (prod_before matmul eye k Us))
     else mzero).
Proof.
  assert (Hsnoc : ∀ (Vs : list ndarray) V,
            mprod matmul eye (Vs ++ [V]) = matmul V (mprod matmul eye Vs))
    by (intros; by apply mprod_snoc).
  induction Us as [|U Us IH] using rev_ind; [done|].
  rewrite along_snoc, foldl_app, IH. simpl. unfold tmul. simpl.
  rewrite Hsnoc, length_app. simpl. f_equal.
  unfold prod_after, prod_before.
  repeat case_decide; try lia.
  - rewrite (matmul_0_l (madd:=madd) (mzero:=mzero)), (madd_0_l (matmul:=matmul) (mzero:=mzero)).
    rewrite drop_app_le by lia. rewrite take_app_le by lia.
    by rewrite Hsnoc, !(matmul_assoc (matmul:=matmul) (eye:=eye)).
  - rewrite (matmul_0_r (madd:=madd) (mzero:=mzero)), (madd_0_r (matmul:=matmul) (mzero:=mzero)).
    subst k. rewrite drop_ge by (rewrite length_app; simpl; lia).
    rewrite take_app_length. simpl.
    by rewrite (matmul_eye_l (matmul:=matmul) (eye:=eye)).
  - by rewrite (matmul_0_r (madd:=madd) (mzero:=mzero)), (madd_0_r (matmul:=matmul) (mzero:=mzero)),
      (matmul_0_l (madd:=madd) (mzero:=mzero)).
Qed.

(** The product rule for the matrix of a product gate: when only child
    [k] moves, with derivative [J], the chain on pairs holds the product
    and [(product after k) · (J · (product before k))]. *)
Lemma product_rule (Us : list ndarray) k J :
  k < length Us →
  matmul_chain (tmul matmul madd) (along mzero k J Us)
  = Some (mprod matmul eye Us,
          matmul (prod_after matmul eye k Us) (matmul J (prod_before matmul eye k Us))).
Proof.
  intros Hk. pose proof (product_rule_fold Us k J) as Hfold.
  rewrite decide_True in Hfold by done.
  destruct (along mzero k J Us) as [|X rest] eqn:E.
  - apply (f_equal length) in E. unfold along in E. rewrite length_imap in E.
    simpl in E. lia.
  - unfold matmul_chain. by rewrite tmul_chain_start, Hfold.
Qed.
End ProductRule.

(** *** [ProductGate.mat_jac] and the derivative of [ProductGate.matrix] *)
Section ProductJacobian.
Context {ndarray P : Type}.
Context (matmul madd : ndarray → ndarray → ndarray) (eye mzero : ndarray)
        (adjoint : ndarray → ndarray).
Context `{!MatrixLaws matmul eye} `{!TangentLaws matmul madd mzero}.

(** C1, amended: let the product gate have at least one child, let [v]
    be sliced contiguously per child, and let the children, each called
    on its slice, return unitary matrices [Us] and their Jacobians [Jss],
    one per parameter, as arrays of their own (no array returned twice,
    none shared with a child's matrix).  Then [mat_jac] returns one
    Jacobian per flat parameter, in parameter order; the one for
    parameter [i] of child [k] is [(product of the children after k) · J
    · (product of the children before k)], and it is the derivative of the
    gate's own [matrix] along that parameter: run on matrices paired with
    their derivatives along the parameter ([J] for child [k], zero for
    the other children), [ProductGate.matrix] returns the product paired
    with this Jacobian. *)
Theorem ProductGate_mat_jac_spec (gates : list (GateObj ndarray P))
    (slices : list (list P)) h matjacs h1 Us Jss :
  gates ≠ [] →
  sliced_per_child gates slices →
  call_children mat_jac gates slices h = Ok (matjacs, h1) →
  Forall2 (holds h1) matjacs.*1 Us →
  Forall2 (Forall2 (holds h1)) matjacs.*2 Jss →
  NoDup (concat matjacs.*2) →
  (∀ r, r ∈ concat matjacs.*2 → r ∉ matjacs.*1) →
  Forall2 one_per_input gates Jss →
  Forall (unitary matmul eye adjoint) Us →
  ∃ B jacs h2,
    ProductGate_mat_jac matmul eye adjoint gates (concat slices) h = Ok ((B, jacs), h2)
    ∧ holds h2 B (mprod matmul eye Us)
    ∧ Z.of_nat (length jacs) = total_inputs gates
    ∧ ∀ k i Js J, Jss !! k = Some Js → Js !! i = Some J →
        ∃ r dUdp,
          jacs !! param_index gates k i = Some r
          ∧ holds h2 r dUdp
          ∧ dUdp = matmul (prod_after matmul eye k Us)
                          (matmul J (prod_before matmul eye k Us))
          ∧ ∀ (Q : Type) (dgates : list (GateObj (ndarray * ndarray) Q))
              (dslices : list (list Q)) hd ds hd1,
              sliced_per_child dgates dslices →
              call_children matrix dgates dslices hd = Ok (ds, hd1) →
              Forall2 (holds hd1) ds (along mzero k J Us) →
              ∃ dU hd2,
                ProductGate_matrix (tmul matmul madd) dgates (concat dslices) hd
                  = Ok (dU, hd2)
                ∧ holds hd2 dU (mprod matmul eye Us, dUdp).
Proof.
  intros Hne Hs Hc HUs HJss Hnd Hdis Hone Huni.
  rewrite <- (collect_matjacs_slices gates slices h Hs) in Hc.
  destruct (ProductGate_mat_jac_of_loop matmul eye adjoint gates (concat slices) h
              matjacs h1 Us Jss Hne (sliced_total_inputs gates slices Hs)
              Hc HUs HJss Hnd Hdis Hone Huni)
    as (B & jacs & h2 & E & HB & Hlen & Hj).
  exists B, jacs, h2. split_and!; [done..|].
  intros k i Js J HJs HJ.
  destruct (Hj k i Js J HJs HJ) as (r & Hr & Hh).
  exists r, (matmul (prod_after matmul eye k Us) (matmul J (prod_before matmul eye k Us))).
  split_and!; [done..|].
  intros Q dgates dslices hd ds hd1 Hds Hdc HdF.
  assert (Hk : k < length Us).
  { apply lookup_lt_Some in HJs.
    apply Forall2_length in HUs, HJss. rewrite !length_fmap in *. lia. }
  rewrite <- (collect_matrices_slices dgates dslices hd Hds) in Hdc.
  assert (Hdne : dgates ≠ []).
  { intros ->. simpl in Hdc. injection Hdc as <- <-.
    apply Forall2_nil_inv_l in HdF. unfold along in HdF.
    apply (f_equal length) in HdF. rewrite length_imap in HdF. simpl in HdF. lia. }
  destruct (ProductGate_matrix_of_loop (tmul matmul madd) dgates (concat dslices) hd
              ds hd1 (along mzero k J Us) Hdne
              (sliced_total_inputs dgates dslices Hds) Hdc HdF)
    as (dU & hd2 & Ed & HdU).
  exists dU, hd2. split; [done|].
  unfold holds. rewrite HdU. by apply product_rule.
Qed.
End ProductJacobian.

(** ** Structure: flattening, insertion, validation, identity *)
Section StructureFacts.
Context {ndarray : Type}.
Implicit Types (g self : Gate ndarray) (gates subs : list (Gate ndarray)).

Lemma forallb_Forall {A} (f : A → bool) (l : list A) :
  forallb f l = true ↔ Forall (λ x, f x = true) l.
Proof.
  induction l as [|x l IH]; simpl.
  - split; [constructor|done].
  - rewrite andb_true_iff, Forall_cons, IH. done.
Qed.

Lemma ProductGate_init_loop_absorb gates : ∀ acc,
  ProductGate_init_loop gates acc = acc ++ absorb gates.
Proof.
  induction gates as [|g gates IH]; intros acc; simpl.
  - by rewrite app_nil_r.
  - destruct g; simpl; rewrite IH, <- app_assoc; done.
Qed.

Lemma subgates_of_ProductGate_init gates :
  subgates_of (ProductGate_init gates) = absorb gates.
Proof. simpl. apply ProductGate_init_loop_absorb. Qed.

Lemma flattened_ProductGate n subs q :
  flattened (ProductGate n subs q) = forallb child_ok subs.
Proof. done. Qed.

Lemma absorb_child_ok gates :
  Forall (λ g, flattened g = true) gates → forallb child_ok (absorb gates) = true.
Proof.
  induction 1 as [|g gates Hg _ IH]; [done|].
  unfold absorb in *. simpl. rewrite forallb_app, IH, andb_true_r.
  destruct (is_ProductGate g) eqn:E.
  - destruct g; try discriminate. exact Hg.
  - simpl. unfold child_ok. by rewrite E, Hg.
Qed.

Lemma Forall_py_slice {A} (Q : A → Prop) (l : list A) a b :
  Forall Q l → Forall Q (py_slice l a b).
Proof. intros H. unfold py_slice. by apply Forall_take, Forall_drop. Qed.

Lemma flattened_children self :
  flattened self = true → Forall (λ g, flattened g = true) (subgates_of self).
Proof.
  destruct self; simpl; try (intros; by constructor).
  - intros H. by apply forallb_Forall in H.
  - intros H. apply forallb_Forall in H. eapply Forall_impl; [exact H|].
    intros x Hx. by apply andb_prop in Hx as [_ ?].
Qed.

Lemma flattened_ProductGate_init (gates : list (Gate ndarray)) :
  Forall (λ g, flattened g = true) gates → flattened (ProductGate_init gates) = true.
Proof.
  intros Hgs. unfold ProductGate_init. rewrite flattened_ProductGate.
  rewrite ProductGate_init_loop_absorb. simpl. by apply absorb_child_ok.
Qed.

Lemma flattened_KroneckerGate_init (gates : list (Gate ndarray)) :
  Forall (λ g, flattened g = true) gates → flattened (KroneckerGate_init gates) = true.
Proof. intros Hgs. simpl. by apply forallb_Forall. Qed.

(** C8: a product gate built from gates that satisfy the invariant has as
    children the arguments with every [ProductGate] argument replaced by
    its own children, and satisfies the invariant again; so do the results
    of [appending] and [inserting]; a Kronecker gate keeps the arguments
    it was given as its children, Kronecker gates included. *)
Theorem ProductGate_flattens gates :
  Forall (λ g, flattened g = true) gates →
  subgates_of (ProductGate_init gates) = absorb gates
  ∧ Forall (λ c, is_ProductGate c = false) (subgates_of (ProductGate_init gates))
  ∧ flattened (ProductGate_init gates) = true
  ∧ (∀ self, flattened self = true →
       flattened (ProductGate_appending self gates) = true
       ∧ ∀ depth, flattened (ProductGate_inserting self gates depth) = true)
  ∧ subgates_of (KroneckerGate_init gates) = gates
  ∧ flattened (KroneckerGate_init gates) = true.
Proof.
  intros Hg. split_and!.
  - apply subgates_of_ProductGate_init.
  - rewrite subgates_of_ProductGate_init.
    pose proof (absorb_child_ok gates Hg) as H. apply forallb_Forall in H.
    eapply Forall_impl; [exact H|]. intros c Hc.
    apply andb_prop in Hc as [Hc _]. by destruct (is_ProductGate c).
  - by apply flattened_ProductGate_init.
  - intros self Hself. pose proof (flattened_children self Hself) as Hch. split.
    + apply flattened_ProductGate_init. by apply Forall_app.
    + intros depth. apply flattened_ProductGate_init.
      rewrite !Forall_app. split_and!; [|done|]; by apply Forall_py_slice.
  - done.
  - by apply flattened_KroneckerGate_init.
Qed.

(** X3: no gate that the constructors and builder methods return has a
    [ProductGate] directly inside a [ProductGate], at any depth. *)
Lemma constructed_flattened (g : Gate ndarray) :
  constructed g → flattened g = true.
Proof.
  induction 1 as [g Hp|other df _ IH|gates _ IH|self gate _ IHs _ _ IHg
                 |gates _ IH|self gates _ IHs _ _ IH|self gates depth _ IHs _ _ IH].
  - by destruct g.
  - done.
  - apply flattened_KroneckerGate_init, Forall_forall. auto.
  - apply flattened_KroneckerGate_init, Forall_app. split.
    + by apply flattened_children.
    + by constructor.
  - apply flattened_ProductGate_init, Forall_forall. auto.
  - apply flattened_ProductGate_init, Forall_app. split.
    + by apply flattened_children.
    + apply Forall_forall. auto.
  - apply flattened_ProductGate_init. rewrite !Forall_app. split_and!.
    + by apply Forall_py_slice, flattened_children.
    + apply Forall_forall. auto.
    + by apply Forall_py_slice, flattened_children.
Qed.

(** *** [ProductGate.inserting] *)
Lemma py_slice_to_m1 {A} (front : list A) (last : A) :
  py_slice_to (front ++ [last]) (-1) = front.
Proof.
  unfold py_slice_to, py_slice, py_clamp. rewrite length_app.
  assert (E : (0 <? 0)%Z = false) by done.
  assert (E' : (-1 <? 0)%Z = true) by done. rewrite E, E'.
  replace (Z.to_nat (Z.min 0 _)) with 0 by (simpl length; lia).
  replace (Z.to_nat _) with (length front) by (simpl length; lia).
  by rewrite drop_0, take_app_length.
Qed.

Lemma py_slice_from_m1 {A} (front : list A) (last : A) :
  py_slice_from (front ++ [last]) (-1) = [last].
Proof.
  unfold py_slice_from, py_slice, py_clamp. rewrite length_app.
  assert (E : (Z.of_nat (length front + length [last]) <? 0)%Z = false)
    by (apply Z.ltb_ge; lia).
  assert (E' : (-1 <? 0)%Z = true) by done. rewrite E, E', Z.min_id.
  replace (Z.to_nat (Z.max _ 0)) with (length front) by (simpl length; lia).
  rewrite drop_app_length.
  replace (Z.to_nat _) with 1 by (simpl length; lia). done.
Qed.

Lemma py_slice_to_neg {A} (l : list A) (p : positive) :
  py_slice_to l (Z.neg p) = take (length l - Pos.to_nat p) l.
Proof.
  unfold py_slice_to, py_slice, py_clamp.
  assert (E : (0 <? 0)%Z = false) by done.
  assert (E' : (Z.neg p <? 0)%Z = true) by (apply Z.ltb_lt; lia). rewrite E, E'.
  replace (Z.to_nat (Z.min 0 _)) with 0 by lia.
  replace (Z.to_nat _) with (length l - Pos.to_nat p) by lia.
  by rewrite drop_0.
Qed.

Lemma py_slice_from_neg {A} (l : list A) (p : positive) :
  py_slice_from l (Z.neg p) = drop (length l - Pos.to_nat p) l.
Proof.
  unfold py_slice_from, py_slice, py_clamp.
  assert (E : (Z.of_nat (length l) <? 0)%Z = false) by (apply Z.ltb_ge; lia).
  assert (E' : (Z.neg p <? 0)%Z = true) by (apply Z.ltb_lt; lia). rewrite E, E', Z.min_id.
  replace (Z.to_nat (Z.max _ 0)) with (length l - Pos.to_nat p) by lia.
  apply take_ge. rewrite length_drop. lia.
Qed.
(** C9 (what the code does): with a negative [depth = -k] the new gates
    are spliced in before the receiver's last [k] children; with the
    default [depth = -1] and a receiver that has children they go before
    its last child, not before all of its children. *)
Theorem ProductGate_inserting_default (self : Gate ndarray) gs (k : positive)
    n front last q :
  ProductGate_inserting self gs (Z.neg k)
    = ProductGate_init
        (take (length (subgates_of self) - Pos.to_nat k) (subgates_of self)
         ++ gs
         ++ drop (length (subgates_of self) - Pos.to_nat k) (subgates_of self))
  ∧ ProductGate_inserting (ProductGate n (front ++ [last]) q) gs inserting_default_depth
    = ProductGate_init (front ++ gs ++ [last])
  ∧ subgates_of (ProductGate_inserting (ProductGate_init [XGate; YGate]) [ZGate]
                   inserting_default_depth)
    = ([XGate; ZGate; YGate] : list (Gate ndarray)).
Proof.
  split_and!; [| |done].
  - unfold ProductGate_inserting. by rewrite py_slice_to_neg, py_slice_from_neg.
  - unfold ProductGate_inserting, inserting_default_depth. simpl subgates_of.
    by rewrite py_slice_to_m1, py_slice_from_m1.
Qed.

(** *** [validate_structure] *)

(** C6 (what the code does): [ProductGate.validate_structure] never
    returns a boolean.  Its body ends in [valid = True] without a
    [return], so it returns [None] when no check fails, and the call of
    the unbound [warn] raises [NameError] when one does. *)
Theorem ProductGate_validate_structure_result :
  (∀ n (subs : list (Gate ndarray)) q,
     validate_structure (ProductGate n subs q) = Ok PyNone
     ∨ ∃ e, validate_structure (ProductGate n subs q) = Raise e)
  ∧ validate_structure (ProductGate_init [XGate; YGate] : Gate ndarray) = Ok PyNone
  ∧ validate_structure (ProductGate_init [XGate; CNOTGate] : Gate ndarray) = Raise NameError
  ∧ validate_structure (ProductGate 5 [XGate] 1 : Gate ndarray) = Raise NameError.
Proof.
  split_and!; [|done..].
  intros n subs q. simpl.
  match goal with |- context [mbind _ ?m] => destruct m as [[valid k]|e] end; simpl;
    [|right; by eexists].
  destruct (negb (k =? n)%Z); simpl; [right; by eexists|by left].
Qed.

(** C7 (what the code does): the first test is
    [control >= qudits or target > qudits], a failing test raises
    [NameError] at the call of the unbound [warn], and every other gate,
    among them [target == qudits] and negative indices, is accepted. *)
Theorem NonadjacentCNOTGate_validate_structure_result q c t :
  validate_structure (NonadjacentCNOTGate q c t : Gate ndarray)
    = (if (c >=? q)%Z || (t >? q)%Z || (c =? t)%Z
       then Raise NameError else Ok (PyBool true))
  ∧ validate_structure (NonadjacentCNOTGate 3 0 3 : Gate ndarray) = Ok (PyBool true)
  ∧ validate_structure (NonadjacentCNOTGate 3 (-1) 0 : Gate ndarray) = Ok (PyBool true)
  ∧ validate_structure (NonadjacentCNOTGate 2 0 0 : Gate ndarray) = Raise NameError
  ∧ validate_structure (NonadjacentCNOTGate 2 2 0 : Gate ndarray) = Raise NameError.
Proof.
  split_and!; [|done..]. simpl.
  destruct ((c >=? q)%Z || (t >? q)%Z); simpl; [done|].
  by destruct (c =? t)%Z.
Qed.
End StructureFacts.

Section IdentityFacts.
Context {ndarray : Type} (md5_int : string → Z).
Implicit Types (a b g : Gate ndarray).

Local Ltac decide_names :=
  first [ reflexivity
        | rewrite (bool_decide_eq_false_2 (_ = _)) by (simpl; discriminate); reflexivity ].

Lemma repr_KroneckerGate_inv n (subs : list (Gate ndarray)) q r :
  repr (KroneckerGate n subs q) = Ok r → ∃ s, r = "KroneckerGate(" +:+ s.
Proof.
  simpl. match goal with |- context [mbind _ ?m] => destruct m as [rs|e] end; simpl; [|done].
  intros [= <-]. eauto.
Qed.

Lemma repr_ProductGate_inv n (subs : list (Gate ndarray)) q r :
  repr (ProductGate n subs q) = Ok r → ∃ s, r = "ProductGate(" +:+ s.
Proof.
  simpl. match goal with |- context [mbind _ ?m] => destruct m as [rs|e] end; simpl; [|done].
  intros [= <-]. eauto.
Qed.

(** X1: where both representations exist, [==] agrees with their equality,
    also for the classes that compare types instead. *)
Lemma py_eq_repr a b ra rb :
  repr a = Ok ra → repr b = Ok rb → py_eq a b = Ok (bool_decide (ra = rb)).
Proof.
  intros Ha Hb. unfold py_eq. destruct (defines_eq (type a)) eqn:E.
  - unfold type_eq.
    destruct a; try discriminate E; simpl in Ha; injection Ha as <-;
      (destruct b;
       [ simpl in Hb; destruct (_ && _); injection Hb as <-; decide_names
       | try (simpl in Hb; injection Hb as <-; decide_names) ..
       ]).
    all: try discriminate Hb.
    all: try (simpl in Hb; destruct (repr b) as [r|]; simpl in Hb;
              [injection Hb as <-; decide_names|discriminate Hb]).
    all: try (apply repr_KroneckerGate_inv in Hb as [s ->]; decide_names).
    all: try (apply repr_ProductGate_inv in Hb as [s ->]; decide_names).
  - unfold Gate_eq. by rewrite Ha, Hb.
Qed.

Lemma py_hash_repr g r :
  defines_eq (type g) = false → repr g = Ok r → py_hash md5_int g = Ok (md5_int r).
Proof. intros E Hr. unfold py_hash, Gate_hash. by rewrite E, Hr. Qed.

(** C5 (what the code does): the seven classes that define [__eq__]
    without [__hash__] are unhashable, although a composite that contains
    them hashes to the digest of its representation; and a [UGate] cannot
    even be compared, because its [__repr__] raises. *)
Theorem eq_defining_classes_unhashable :
  py_hash md5_int (U3Gate : Gate ndarray) = Raise TypeError
  ∧ py_hash md5_int (U2Gate : Gate ndarray) = Raise TypeError
  ∧ py_hash md5_int (U1Gate : Gate ndarray) = Raise TypeError
  ∧ py_hash md5_int (CNOTGate : Gate ndarray) = Raise TypeError
  ∧ py_hash md5_int (CZGate : Gate ndarray) = Raise TypeError
  ∧ py_hash md5_int (ISwapGate : Gate ndarray) = Raise TypeError
  ∧ py_hash md5_int (XXGate : Gate ndarray) = Raise TypeError
  ∧ py_hash md5_int (ProductGate_init [U3Gate; CNOTGate] : Gate ndarray)
    = Ok (md5_int "ProductGate(U3Gate(), CNOTGate())")
  ∧ (∀ U d q name, py_eq (UGate U d q name : Gate ndarray) (UGate U d q name)
                   = Raise NameError).
Proof. split_and!; done. Qed.
End IdentityFacts.

(** ** [CPIPhaseGate] *)
Section CPIPhaseFacts.
Context {C : Type} (c0 c1 : C) (cadd cmul : C → C → C) (copp : C → C).
Context {rng R : Type} (random : rng → R * rng) (cexp_2j_pi : R → C).
Context (md5_int : string → Z).
Context `{!ScalarLaws c0 c1 cadd cmul copp}.

Local Abbreviation init := (CPIPhaseGate_init c0 c1 cadd cmul copp random cexp_2j_pi).
Local Abbreviation phases_of s := (draw_phases random cexp_2j_pi 5 s).1.

Lemma draw_phases_length n s : length (draw_phases random cexp_2j_pi n s).1 = n.
Proof.
  revert s. induction n as [|n IH]; intros s; simpl; [done|].
  destruct (random s) as [r s1]. specialize (IH s1).
  destruct (draw_phases random cexp_2j_pi n s1) as [ps s2]. simpl in *. by rewrite IH.
Qed.

Lemma cpi_phase_product e0 e1 e2 e3 e4 :
  dense_matmul c0 cadd cmul (cpi_phase_base c0 c1 copp)
    (np_diag c0 (replicate 4 c1 ++ [e0; e1; e2; e3; e4]))
  = cpi_phase_matrix c0 c1 cmul copp e0 e1 e2 e3 e4.
Proof.
  unfold dense_matmul, cpi_phase_base, np_diag, cpi_phase_matrix, dense_dot. simpl.
  pose proof (cmul_0_l (c0:=c0) (c1:=c1) (cadd:=cadd) (copp:=copp)) as M0l.
  pose proof (cmul_0_r (c0:=c0) (c1:=c1) (cadd:=cadd) (copp:=copp)) as M0r.
  pose proof (cmul_1_l (c0:=c0) (c1:=c1) (cadd:=cadd) (copp:=copp)) as M1l.
  pose proof (cadd_0_l (c0:=c0) (c1:=c1) (cmul:=cmul) (copp:=copp)) as A0l.
  pose proof (cadd_0_r (c0:=c0) (c1:=c1) (cmul:=cmul) (copp:=copp)) as A0r.
  rewrite ?M0l, ?M0r, ?M1l, ?A0l, ?A0r.
  reflexivity.
Qed.

Lemma CPIPhaseGate_init_matrix s :
  ∃ e0 e1 e2 e3 e4,
    phases_of s = [e0; e1; e2; e3; e4]
    ∧ (init s).1 = CPIPhaseGate (cpi_phase_matrix c0 c1 cmul copp e0 e1 e2 e3 e4).
Proof.
  pose proof (draw_phases_length 5 s) as Hlen.
  unfold CPIPhaseGate_init.
  destruct (draw_phases random cexp_2j_pi 5 s) as [ps s'] eqn:E. simpl in Hlen.
  destruct ps as [|e0 [|e1 [|e2 [|e3 [|e4 [|? ?]]]]]]; try discriminate Hlen.
  exists e0, e1, e2, e3, e4. split; [done|].
  rewrite <- cpi_phase_product. reflexivity.
Qed.

(** C10: two [CPIPhaseGate] objects, built from any two states of the
    random generator, are equal under [==] and have the same hash, the
    digest of ["CPIPhaseGate()"]; [matrix] of one object does not depend
    on its argument; and the matrices of the two objects coincide exactly
    when the five phases drawn for them coincide. *)
Theorem CPIPhaseGate_equal_but_different (s1 s2 : rng) (v v' : list R) :
  let g1 := (init s1).1 in
  let g2 := (init s2).1 in
  py_eq g1 g2 = Ok true
  ∧ py_hash md5_int g1 = Ok (md5_int "CPIPhaseGate()")
  ∧ py_hash md5_int g2 = py_hash md5_int g1
  ∧ CPIPhaseGate_matrix g1 v = CPIPhaseGate_matrix g1 v'
  ∧ (CPIPhaseGate_matrix g1 v = CPIPhaseGate_matrix g2 v
     ↔ phases_of s1 = phases_of s2).
Proof.
  destruct (CPIPhaseGate_init_matrix s1) as (a0 & a1 & a2 & a3 & a4 & Ea & ->).
  destruct (CPIPhaseGate_init_matrix s2) as (b0 & b1 & b2 & b3 & b4 & Eb & ->).
  rewrite Ea, Eb. simpl. split_and!; [done..|].
  split.
  - intros [= H0 H1 H2 H3 H4]. apply cmul_m1_inj in H0. by subst.
  - by intros [= -> -> -> -> ->].
Qed.
End CPIPhaseFacts.

(** ** Declared counts and the builders *)
Section CountFacts.
Context {ndarray : Type}.
Implicit Types (g : Gate ndarray) (gates : list (Gate ndarray)).
Local Open Scope Z_scope.

(** Induction over a gate tree, with the children of a composite covered
    by [Forall]. *)
Lemma Gate_tree_ind (Q : Gate ndarray → Prop)
    (Hprim : ∀ g, is_primitive g = true → Q g)
    (Hup : ∀ sub df, Q sub → Q (UpgradedConstantGate sub df))
    (Hkron : ∀ n subs q, Forall Q subs → Q (KroneckerGate n subs q))
    (Hprod : ∀ n subs q, Forall Q subs → Q (ProductGate n subs q)) :
  ∀ g, Q g.
Proof.
  fix IH 1. intros g.
  destruct g as [| | | | | | | | | | | | | | | | | | |sub df| | |n subs q|n subs q];
    try (apply Hprim; reflexivity).
  - apply Hup, IH.
  - apply Hkron. induction subs as [|s subs IHs]; constructor; [apply IH|exact IHs].
  - apply Hprod. induction subs as [|s subs IHs]; constructor; [apply IH|exact IHs].
Qed.

Lemma py_sum_from (f : Gate ndarray → Z) gates : ∀ a,
  foldl (λ acc g, acc + f g) a gates = a + py_sum f gates.
Proof.
  unfold py_sum. induction gates as [|g gates IH]; intros a; simpl; [lia|].
  rewrite (IH (a + f g)), (IH (0 + f g)). lia.
Qed.

Lemma py_sum_cons (f : Gate ndarray → Z) g gates :
  py_sum f (g :: gates) = f g + py_sum f gates.
Proof. unfold py_sum at 1. simpl. rewrite py_sum_from. lia. Qed.

Lemma py_sum_app (f : Gate ndarray → Z) gates1 gates2 :
  py_sum f (gates1 ++ gates2) = py_sum f gates1 + py_sum f gates2.
Proof.
  induction gates1 as [|g gates1 IH]; simpl; [done|].
  rewrite !py_sum_cons, IH. lia.
Qed.

Lemma absorb_app gates1 gates2 :
  absorb (gates1 ++ gates2) = absorb gates1 ++ absorb gates2.
Proof. unfold absorb. apply flat_map_app. Qed.

Lemma absorb_ProductGate_init gates :
  absorb [ProductGate_init gates] = absorb gates.
Proof.
  unfold absorb at 1. simpl. rewrite app_nil_r. by rewrite ProductGate_init_loop_absorb.
Qed.

Lemma consistent_nonneg : ∀ g, consistent g = true → 0 ≤ gate_num_inputs g.
Proof.
  apply (Gate_tree_ind (λ g, consistent g = true → 0 ≤ gate_num_inputs g)).
  - intros g Hp _. destruct g; simpl; try lia; discriminate Hp.
  - intros sub df _ _. simpl. lia.
  - intros n subs q IH. simpl. rewrite !andb_true_iff.
    intros [[Hn _] Hs]. apply bool_decide_eq_true_1 in Hn. subst n.
    apply forallb_Forall in Hs.
    induction subs as [|s subs IHs]; [done|].
    rewrite py_sum_cons. inversion IH; inversion Hs; subst.
    specialize (IHs ltac:(done) ltac:(done)). pose proof (H1 ltac:(done)). lia.
  - intros n subs q IH. simpl. rewrite !andb_true_iff.
    intros [Hn Hs]. apply bool_decide_eq_true_1 in Hn. subst n.
    apply forallb_Forall in Hs.
    induction subs as [|s subs IHs]; [done|].
    rewrite py_sum_cons. inversion IH; inversion Hs; subst.
    specialize (IHs ltac:(done) ltac:(done)). pose proof (H1 ltac:(done)). lia.
Qed.

Lemma consistent_children g :
  consistent g = true → Forall (λ s, consistent s = true) (subgates_of g).
Proof.
  destruct g; simpl; try (intros; by constructor).
  - rewrite !andb_true_iff. intros [_ H]. by apply forallb_Forall.
  - rewrite !andb_true_iff. intros [_ H]. by apply forallb_Forall.
Qed.

Lemma absorb_consistent gates :
  Forall (λ g, consistent g = true) gates →
  Forall (λ g, consistent g = true) (absorb gates)
  ∧ py_sum gate_num_inputs (absorb gates) = py_sum gate_num_inputs gates.
Proof.
  induction 1 as [|g gates Hg _ [IH1 IH2]]; [done|].
  change (g :: gates) with ([g] ++ gates).
  rewrite absorb_app, Forall_app, !py_sum_app, IH2. split_and!; [|done|f_equal].
  - unfold absorb. simpl. rewrite app_nil_r. destruct (is_ProductGate g).
    + by apply consistent_children.
    + by constructor.
  - unfold absorb. simpl. rewrite app_nil_r. destruct g; try done.
    simpl in Hg. apply andb_prop in Hg as [Hn _].
    apply bool_decide_eq_true_1 in Hn. simpl.
    rewrite (py_sum_cons _ _ []). simpl. rewrite <- Hn. unfold py_sum at 1. simpl. lia.
Qed.

Lemma consistent_ProductGate_init gates :
  Forall (λ g, consistent g = true) gates → consistent (ProductGate_init gates) = true.
Proof.
  intros H. destruct (absorb_consistent gates H) as [H1 H2].
  unfold ProductGate_init. simpl. rewrite ProductGate_init_loop_absorb. simpl.
  rewrite H2, bool_decide_eq_true_2 by done. simpl. by apply forallb_Forall.
Qed.

Lemma consistent_KroneckerGate_init gates :
  Forall (λ g, consistent g = true) gates → consistent (KroneckerGate_init gates) = true.
Proof.
  intros H. simpl. rewrite !bool_decide_eq_true_2 by done. simpl. by apply forallb_Forall.
Qed.

(** X6: a composite built by a constructor or a builder method from
    consistent gates is consistent: the parameter count it declares is the
    sum over its children, also after [ProductGate] has spliced in the
    children of its [ProductGate] arguments, and no count is negative. *)
Theorem constructors_consistent gates :
  Forall (λ g, consistent g = true) gates →
  consistent (ProductGate_init gates) = true
  ∧ gate_num_inputs (ProductGate_init gates)
    = py_sum gate_num_inputs (subgates_of (ProductGate_init gates))
  ∧ 0 ≤ gate_num_inputs (ProductGate_init gates)
  ∧ consistent (KroneckerGate_init gates) = true
  ∧ (∀ self, consistent self = true →
       consistent (ProductGate_appending self gates) = true
       ∧ (∀ depth, consistent (ProductGate_inserting self gates depth) = true)
       ∧ (∀ gate, consistent gate = true →
            consistent (KroneckerGate_appending self gate) = true)).
Proof.
  intros H. pose proof (consistent_ProductGate_init gates H) as HP. split_and!.
  - done.
  - rewrite subgates_of_ProductGate_init. destruct (absorb_consistent gates H) as [_ ->]. done.
  - by apply consistent_nonneg.
  - by apply consistent_KroneckerGate_init.
  - intros self Hself. pose proof (consistent_children self Hself) as Hch. split_and!.
    + apply consistent_ProductGate_init. by apply Forall_app.
    + intros depth. apply consistent_ProductGate_init.
      rewrite !Forall_app. split_and!; [|done|]; by apply Forall_py_slice.
    + intros gate Hgate. apply consistent_KroneckerGate_init, Forall_app.
      split; [done|by constructor].
Qed.

(** X4: [ProductGate] is associative as a constructor: a product gate
    passed as an argument can be replaced by its own arguments, and the
    object built has the same [num_inputs], children and [qudits]. *)
Theorem ProductGate_init_assoc (pre mid post : list (Gate ndarray)) :
  pre ++ mid ≠ [] →
  ProductGate_init (pre ++ [ProductGate_init mid] ++ post)
  = ProductGate_init (pre ++ mid ++ post).
Proof.
  intros Hne. unfold ProductGate_init at 1 3. f_equal.
  - rewrite !py_sum_app, py_sum_cons. simpl. unfold py_sum at 3. simpl. lia.
  - rewrite !ProductGate_init_loop_absorb. simpl.
    change (ProductGate_init mid :: post) with ([ProductGate_init mid] ++ post).
    by rewrite !absorb_app, absorb_ProductGate_init.
  - destruct pre as [|p pre]; [|done]. simpl in *.
    destruct mid as [|m mid]; [done|]. done.
Qed.

Lemma py_slice_to_nonneg {A} (l : list A) (d : Z) :
  0 ≤ d → py_slice_to l d = take (Z.to_nat d) l.
Proof.
  intros Hd. unfold py_slice_to, py_slice, py_clamp.
  assert (E : (0 <? 0) = false) by done.
  assert (E' : (d <? 0) = false) by (apply Z.ltb_ge; lia). rewrite E, E'.
  replace (Z.to_nat (Z.min 0 _)) with 0%nat by lia. rewrite drop_0.
  destruct (decide (d ≤ Z.of_nat (length l))).
  - f_equal. lia.
  - rewrite !take_ge; [done|lia..].
Qed.

Lemma py_slice_from_nonneg {A} (l : list A) (d : Z) :
  0 ≤ d → py_slice_from l d = drop (Z.to_nat d) l.
Proof.
  intros Hd. unfold py_slice_from, py_slice, py_clamp.
  assert (E : (Z.of_nat (length l) <? 0) = false) by (apply Z.ltb_ge; lia).
  assert (E' : (d <? 0) = false) by (apply Z.ltb_ge; lia). rewrite E, E', Z.min_id.
  destruct (decide (d ≤ Z.of_nat (length l))).
  - replace (Z.to_nat (Z.min d _)) with (Z.to_nat d) by lia.
    apply take_ge. rewrite length_drop. lia.
  - replace (Z.to_nat (Z.min d _)) with (length l) by lia.
    rewrite !drop_ge; [by rewrite take_nil|lia..].
Qed.

(** X5: with a non-negative [depth], [inserting] puts the new gates after
    the receiver's first [depth] children: [depth=0] is what inserts at
    the beginning, and a [depth] of at least the number of children is
    [appending]. *)
Theorem ProductGate_inserting_nonneg (self : Gate ndarray) gs (depth : Z) :
  0 ≤ depth →
  ProductGate_inserting self gs depth
  = ProductGate_init (take (Z.to_nat depth) (subgates_of self) ++ gs
                      ++ drop (Z.to_nat depth) (subgates_of self))
  ∧ ProductGate_inserting self gs 0 = ProductGate_init (gs ++ subgates_of self)
  ∧ (Z.of_nat (length (subgates_of self)) ≤ depth →
     ProductGate_inserting self gs depth = ProductGate_appending self gs).
Proof.
  intros Hd. split_and!.
  - unfold ProductGate_inserting. by rewrite py_slice_to_nonneg, py_slice_from_nonneg.
  - unfold ProductGate_inserting. by rewrite py_slice_to_nonneg, py_slice_from_nonneg.
  - intros Hlen. unfold ProductGate_inserting, ProductGate_appending.
    rewrite py_slice_to_nonneg, py_slice_from_nonneg by done.
    rewrite take_ge, drop_ge by lia. by rewrite app_nil_r.
Qed.

(** *** [KroneckerGate.validate_structure] *)

Lemma KroneckerGate_validate_loop (subs : list (Gate ndarray)) rs :
  Forall2 (λ s r, validate_structure s = Ok r) subs rs →
  ∀ valid num_inputs dits,
  (fix loop (l : list (Gate ndarray)) (valid : bool) (num_inputs dits : Z)
     : result (bool * Z * Z) :=
     match l with
     | [] => Ok (valid, num_inputs, dits)
     | subgate :: l' =>
         r ← validate_structure subgate;
         let valid := if negb (truthy r) then false else valid in
         loop l' valid (num_inputs + gate_num_inputs subgate)
              (dits + gate_qudits subgate)
     end) subs valid num_inputs dits
  = Ok (valid && forallb truthy rs,
        num_inputs + py_sum gate_num_inputs subs,
        dits + py_sum gate_qudits subs).
Proof.
  induction 1 as [|s r subs rs Hs _ IH]; intros valid n d.
  - unfold py_sum. simpl. rewrite andb_true_r. do 2 f_equal; [f_equal|]; lia.
  - rewrite Hs. simpl. rewrite IH, !py_sum_cons. do 2 f_equal; [f_equal|]; [|lia..].
    destruct (truthy r), valid; done.
Qed.

(** X7: when the children's own checks return, [validate_structure] of a
    Kronecker gate returns a boolean, the conjunction of the children's
    answers, provided the declared counts are the sums over the children;
    a mismatch of either count raises [NameError] at the call of the
    unbound [warn].  A child that is a [ProductGate] answers [None], so a
    Kronecker gate above it is reported invalid. *)
Theorem KroneckerGate_validate_structure_spec n (subs : list (Gate ndarray)) q rs :
  Forall2 (λ s r, validate_structure s = Ok r) subs rs →
  validate_structure (KroneckerGate n subs q)
  = (if bool_decide (n = py_sum gate_num_inputs subs ∧ q = py_sum gate_qudits subs)
     then Ok (PyBool (forallb truthy rs))
     else Raise NameError)
  ∧ validate_structure (KroneckerGate_init subs) = Ok (PyBool (forallb truthy rs))
  ∧ validate_structure
      (KroneckerGate_init [XGate; ProductGate_init [YGate; ZGate]] : Gate ndarray)
    = Ok (PyBool false).
Proof.
  intros H.
  assert (Hgen : ∀ n q, validate_structure (KroneckerGate n subs q)
    = (if bool_decide (n = py_sum gate_num_inputs subs ∧ q = py_sum gate_qudits subs)
       then Ok (PyBool (forallb truthy rs))
       else Raise NameError)).
  { clear n q. intros n q.
    simpl. rewrite (KroneckerGate_validate_loop subs rs H). simpl.
    rewrite !Z.add_0_l.
    destruct (Z.eqb_spec (py_sum gate_num_inputs subs) n) as [E1|E1]; simpl.
    - destruct (Z.eqb_spec (py_sum gate_qudits subs) q) as [E2|E2]; simpl.
      + by rewrite bool_decide_eq_true_2.
      + rewrite bool_decide_eq_false_2; [done|]. intros [_ ?]. by apply E2.
    - rewrite bool_decide_eq_false_2; [done|]. intros [? _]. by apply E1. }
  split_and!; [apply Hgen| |done].
  unfold KroneckerGate_init. rewrite Hgen. by rewrite bool_decide_eq_true_2.
Qed.

End CountFacts.

Section IdentityMore.
Context {ndarray : Type} (md5_int : string → Z).
Implicit Types (a b g : Gate ndarray).

(** X2: gates that compare equal hash equal, whenever both can be hashed. *)
Theorem py_eq_py_hash a b x y :
  py_eq a b = Ok true →
  py_hash md5_int a = Ok x → py_hash md5_int b = Ok y →
  x = y.
Proof.
  unfold py_eq, py_hash, Gate_hash, Gate_eq.
  destruct (defines_eq (type a)); [done|].
  destruct (defines_eq (type b)); [done|].
  destruct (repr a) as [ra|]; [|done]. destruct (repr b) as [rb|]; [|done]. simpl.
  intros [= E] [= <-] [= <-]. apply bool_decide_eq_true_1 in E. by subst.
Qed.

End IdentityMore.

(** ** [assemble] *)
Section AssembleFacts.
Context {ndarray P : Type} (mod_2pi : P → P) (pi_half : P).
Implicit Types (g : Gate ndarray) (v : list P) (i index : Z)
               (out : list (descriptor P)).
Local Open Scope Z_scope.

Local Abbreviation assemble := (assemble (ndarray:=ndarray) mod_2pi pi_half).
Local Abbreviation kron_loop := (kron_assemble_loop (ndarray:=ndarray) mod_2pi pi_half).
Local Abbreviation product_loop := (product_assemble_loop (ndarray:=ndarray) mod_2pi pi_half).

(** *** Slices with non-negative bounds *)
Lemma py_slice_nonneg {A} (l : list A) (a b : Z) :
  0 ≤ a → 0 ≤ b →
  py_slice l a b = take (Z.to_nat b - Z.to_nat a) (drop (Z.to_nat a) l).
Proof.
  intros Ha Hb. unfold py_slice, py_clamp.
  assert (Ea : (a <? 0) = false) by (apply Z.ltb_ge; lia).
  assert (Eb : (b <? 0) = false) by (apply Z.ltb_ge; lia). rewrite Ea, Eb.
  destruct (decide (a ≤ Z.of_nat (length l))) as [Hal|Hal].
  - replace (Z.to_nat (Z.min a _)) with (Z.to_nat a) by lia.
    destruct (decide (b ≤ Z.of_nat (length l))).
    + f_equal. lia.
    + rewrite !take_ge; [done|rewrite length_drop; lia..].
  - rewrite !drop_ge by lia. by rewrite !take_nil.
Qed.

Lemma py_slice_length {A} (l : list A) (a n : Z) :
  0 ≤ a → 0 ≤ n → a + n ≤ Z.of_nat (length l) →
  Z.of_nat (length (py_slice l a (a + n))) = n.
Proof.
  intros. rewrite py_slice_nonneg by lia. rewrite length_take, length_drop. lia.
Qed.

(** A slice of a slice is a slice of the whole sequence. *)
Lemma py_slice_py_slice {A} (l : list A) (a n c k : Z) :
  0 ≤ a → 0 ≤ c → 0 ≤ k → c + k ≤ n →
  py_slice (py_slice l a (a + n)) c (c + k) = py_slice l (a + c) (a + c + k).
Proof.
  intros. rewrite !py_slice_nonneg by lia.
  replace (Z.to_nat (a + n) - Z.to_nat a)%nat with (Z.to_nat n) by lia.
  replace (Z.to_nat (c + k) - Z.to_nat c)%nat with (Z.to_nat k) by lia.
  replace (Z.to_nat (a + c + k) - Z.to_nat (a + c))%nat with (Z.to_nat k) by lia.
  replace (Z.to_nat (a + c)) with (Z.to_nat a + Z.to_nat c)%nat by lia.
  rewrite <- drop_drop.
  generalize (drop (Z.to_nat a) l). intros l'.
  rewrite !take_drop_commute, take_take. do 2 f_equal. lia.
Qed.

Lemma py_slice_drop {A} (l : list A) (a c k : Z) :
  0 ≤ a → 0 ≤ c → 0 ≤ k →
  py_slice (drop (Z.to_nat a) l) c (c + k) = py_slice l (a + c) (a + c + k).
Proof.
  intros. rewrite !py_slice_nonneg by lia.
  replace (Z.to_nat (c + k) - Z.to_nat c)%nat with (Z.to_nat k) by lia.
  replace (Z.to_nat (a + c + k) - Z.to_nat (a + c))%nat with (Z.to_nat k) by lia.
  replace (Z.to_nat (a + c)) with (Z.to_nat a + Z.to_nat c)%nat by lia.
  by rewrite drop_drop.
Qed.

(** *** The loops *)
Lemma assemble_KroneckerGate n subs q v i :
  assemble (KroneckerGate n subs q) v i
  = out ← kron_loop subs v [] 0 i; Ok [block_tuple out].
Proof.
  simpl. f_equal. generalize (@nil (descriptor P)), 0, i.
  induction subs as [|s subs IH]; intros out index i'; simpl; [done|].
  destruct (assemble s _ i'); simpl; [apply IH|done].
Qed.

Lemma assemble_ProductGate n subs q v i :
  assemble (ProductGate n subs q) v i = product_loop subs v [] 0 i.
Proof.
  simpl. generalize (@nil (descriptor P)), 0.
  induction subs as [|s subs IH]; intros out index; simpl; [done|].
  destruct (assemble s _ i); simpl; [apply IH|done].
Qed.

Lemma product_loop_acc subs v i : ∀ out index,
  product_loop subs v out index i
  = o ← product_loop subs v [] index i; Ok (out ++ o).
Proof.
  induction subs as [|s subs IH]; intros out index; simpl.
  - by rewrite app_nil_r.
  - destruct (assemble s _ i) as [o|]; simpl; [|done].
    rewrite (IH (out ++ o)), (IH o).
    destruct (product_loop subs v [] _ i); simpl; [|done]. by rewrite app_assoc.
Qed.

Lemma product_loop_app subs1 subs2 v i : ∀ out index,
  product_loop (subs1 ++ subs2) v out index i
  = out1 ← product_loop subs1 v out index i;
    product_loop subs2 v out1 (index + py_sum gate_num_inputs subs1) i.
Proof.
  induction subs1 as [|s subs1 IH]; intros out index; simpl.
  - unfold py_sum. simpl. by rewrite Z.add_0_r.
  - destruct (assemble s _ i) as [o|]; simpl; [|done].
    rewrite IH, py_sum_cons.
    destruct (product_loop subs1 v _ _ i); simpl; [|done]. by rewrite Z.add_assoc.
Qed.

(** Running the loop on a slice is running it on the whole vector from
    the start of the slice. *)
Lemma product_loop_slice subs v i a n : ∀ out c,
  Forall (λ s, 0 ≤ gate_num_inputs s) subs →
  0 ≤ a → 0 ≤ c → c + py_sum gate_num_inputs subs ≤ n →
  product_loop subs (py_slice v a (a + n)) out c i
  = product_loop subs v out (a + c) i.
Proof.
  induction subs as [|s subs IH]; intros out c Hs Ha Hc Hn; simpl; [done|].
  inversion Hs as [|? ? Hs1 Hs2]; subst. rewrite py_sum_cons in Hn.
  assert (0 ≤ py_sum gate_num_inputs subs).
  { clear -Hs2. induction Hs2; [done|]. rewrite py_sum_cons. lia. }
  rewrite py_slice_py_slice by lia.
  destruct (assemble s _ i) as [o|]; simpl; [|done].
  rewrite IH by (done || lia). by rewrite Z.add_assoc.
Qed.

Lemma product_loop_drop subs v i a : ∀ out c,
  Forall (λ s, 0 ≤ gate_num_inputs s) subs →
  0 ≤ a → 0 ≤ c →
  product_loop subs (drop (Z.to_nat a) v) out c i
  = product_loop subs v out (a + c) i.
Proof.
  induction subs as [|s subs IH]; intros out c Hs Ha Hc; simpl; [done|].
  inversion Hs as [|? ? Hs1 Hs2]; subst.
  rewrite py_slice_drop by lia.
  destruct (assemble s _ i) as [o|]; simpl; [|done].
  rewrite IH by (done || lia). by rewrite Z.add_assoc.
Qed.

Lemma product_loop_single g v i out index :
  product_loop [g] v out index i
  = o ← assemble g (py_slice v index (index + gate_num_inputs g)) i; Ok (out ++ o).
Proof. reflexivity. Qed.

Lemma consistent_Forall_nonneg (subs : list (Gate ndarray)) :
  Forall (λ s, consistent s = true) subs → Forall (λ s, 0 ≤ gate_num_inputs s) subs.
Proof. intros H. eapply Forall_impl; [exact H|]. intros s. apply consistent_nonneg. Qed.

Lemma product_loop_absorb (gates : list (Gate ndarray)) v i :
  Forall (λ s, consistent s = true) gates →
  ∀ out index, 0 ≤ index →
  product_loop (absorb gates) v out index i = product_loop gates v out index i.
Proof.
  induction 1 as [|g gates Hg Hgs IH]; intros out index Hi; [done|].
  change (g :: gates) with ([g] ++ gates).
  rewrite absorb_app, !product_loop_app.
  pose proof (consistent_nonneg g Hg) as Hn.
  assert (E : product_loop (absorb [g]) v out index i = product_loop [g] v out index i
              ∧ py_sum gate_num_inputs (absorb [g]) = py_sum gate_num_inputs [g]).
  { split; [|apply absorb_consistent; by constructor].
    unfold absorb. simpl flat_map. rewrite app_nil_r.
    destruct g; try reflexivity.
    simpl is_ProductGate. simpl subgates_of. rewrite product_loop_single.
    simpl in Hg. apply andb_prop in Hg as [Hni Hch].
    apply bool_decide_eq_true_1 in Hni. apply forallb_Forall in Hch.
    rewrite assemble_ProductGate. simpl gate_num_inputs.
    rewrite product_loop_slice; [|by apply consistent_Forall_nonneg|lia..].
    rewrite Z.add_0_r, (product_loop_acc _ _ _ out).
    by destruct (product_loop _ v [] index i). }
  destruct E as [-> ->].
  destruct (product_loop [g] v out index i); simpl; [|done].
  apply IH. rewrite py_sum_cons. unfold py_sum. simpl. lia.
Qed.

Lemma assemble_ProductGate_init (gates : list (Gate ndarray)) v i :
  Forall (λ s, consistent s = true) gates →
  assemble (ProductGate_init gates) v i = product_loop gates v [] 0 i.
Proof.
  intros H. unfold ProductGate_init.
  rewrite assemble_ProductGate, ProductGate_init_loop_absorb. simpl.
  by apply product_loop_absorb.
Qed.

(** X12: splicing the children of product-gate arguments into the new
    product gate does not change what is assembled: the flattened gate
    assembles to what the arguments, kept as they were given, assemble to
    one after another on consecutive slices of [v]. *)
Theorem ProductGate_assemble_flattening (gates : list (Gate ndarray)) n q v i :
  Forall (λ s, consistent s = true) gates →
  assemble (ProductGate_init gates) v i = assemble (ProductGate n gates q) v i.
Proof.
  intros H. rewrite assemble_ProductGate. by apply assemble_ProductGate_init.
Qed.

(** X13: assembling an appended product gate is assembling the receiver on
    its own share of [v] and then the new gates on the rest. *)
Theorem ProductGate_assemble_appending (self : Gate ndarray) gates v i :
  type self = cProductGate → consistent self = true →
  Forall (λ s, consistent s = true) gates →
  assemble (ProductGate_appending self gates) v i
  = o1 ← assemble self (py_slice_to v (gate_num_inputs self)) i;
    o2 ← assemble (ProductGate_init gates) (py_slice_from v (gate_num_inputs self)) i;
    Ok (o1 ++ o2).
Proof.
  intros Ht Hself Hgates. destruct self as [| | | | | | | | | | | | | | | | | | | | | | |n subs q];
    try discriminate Ht.
  pose proof (consistent_nonneg _ Hself) as Hn.
  pose proof (consistent_children _ Hself) as Hch.
  simpl in Hself. apply andb_prop in Hself as [Hni _].
  apply bool_decide_eq_true_1 in Hni. simpl in Hn, Hch.
  unfold ProductGate_appending. simpl subgates_of. simpl gate_num_inputs.
  rewrite !assemble_ProductGate_init by (by apply Forall_app || done).
  rewrite assemble_ProductGate.
  rewrite product_loop_app, Z.add_0_l, <- Hni.
  unfold py_slice_to. change (py_slice v 0 n) with (py_slice v 0 (0 + n)).
  rewrite (product_loop_slice subs v i 0 n); [|by apply consistent_Forall_nonneg|lia..].
  rewrite Z.add_0_l. rewrite py_slice_from_nonneg by done.
  rewrite product_loop_drop; [|by apply consistent_Forall_nonneg|lia..].
  rewrite Z.add_0_r.
  destruct (product_loop subs v [] 0 i) as [o1|]; [|done].
  apply product_loop_acc.
Qed.

(** *** Which gates can be assembled *)

Lemma product_loop_total subs v i :
  Forall (λ s, ∀ v i, gate_num_inputs s ≤ Z.of_nat (length v) →
                      ∃ out, assemble s v i = Ok out) subs →
  Forall (λ s, 0 ≤ gate_num_inputs s) subs →
  ∀ out index, 0 ≤ index →
  index + py_sum gate_num_inputs subs ≤ Z.of_nat (length v) →
  ∃ out', product_loop subs v out index i = Ok out'.
Proof.
  induction 1 as [|s subs Hs _ IH]; intros Hn out index Hi Hlen; simpl; [by eexists|].
  inversion Hn as [|? ? Hn1 Hn2]; subst. rewrite py_sum_cons in Hlen.
  assert (0 ≤ py_sum gate_num_inputs subs).
  { clear -Hn2. induction Hn2; [done|]. rewrite py_sum_cons. lia. }
  destruct (Hs (py_slice v index (index + gate_num_inputs s)) i) as [o ->].
  { rewrite py_slice_length; lia. }
  simpl. apply IH; [done|lia..].
Qed.

Lemma kron_loop_total subs v :
  Forall (λ s, ∀ v i, gate_num_inputs s ≤ Z.of_nat (length v) →
                      ∃ out, assemble s v i = Ok out) subs →
  Forall (λ s, 0 ≤ gate_num_inputs s) subs →
  ∀ out index i, 0 ≤ index →
  index + py_sum gate_num_inputs subs ≤ Z.of_nat (length v) →
  ∃ out', kron_loop subs v out index i = Ok out'.
Proof.
  induction 1 as [|s subs Hs _ IH]; intros Hn out index i Hi Hlen; simpl; [by eexists|].
  inversion Hn as [|? ? Hn1 Hn2]; subst. rewrite py_sum_cons in Hlen.
  assert (0 ≤ py_sum gate_num_inputs subs).
  { clear -Hn2. induction Hn2; [done|]. rewrite py_sum_cons. lia. }
  destruct (Hs (py_slice v index (index + gate_num_inputs s)) i) as [o ->].
  { rewrite py_slice_length; lia. }
  simpl. apply IH; [done|lia..].
Qed.

Lemma py_index_Some {A} (l : list A) (k : nat) :
  (k < length l)%nat → ∃ x, py_index l k = Ok x.
Proof.
  intros H. unfold py_index. destruct (lookup_lt_is_Some_2 l k H) as [x ->]. by eexists.
Qed.

(** X9: a consistent gate tree without a [CUGate] assembles, at every
    offset, from every parameter vector that holds at least [num_inputs]
    numbers. *)
Theorem assemble_total : ∀ g v i,
  consistent g = true → has_no_CUGate g = true →
  gate_num_inputs g ≤ Z.of_nat (length v) →
  ∃ out, assemble g v i = Ok out.
Proof.
  intros g. pattern g. apply Gate_tree_ind; clear g.
  - intros g Hp v i _ Hcu Hlen.
    assert (Hm : length (mod_2pi <$> v) = length v) by apply length_fmap.
    destruct g; try discriminate Hp; try discriminate Hcu; simpl in Hlen;
      try (by eexists); simpl.
    all: repeat match goal with
         | |- context [py_index ?l ?k] =>
             let x := fresh "x" in let E := fresh "E" in
             destruct (py_index_Some l k) as [x E]; [lia|rewrite E; simpl]
         end; by eexists.
  - intros sub df IH v i Hc Hcu Hlen. simpl in *.
    apply andb_prop in Hc as [H0 Hc]. apply bool_decide_eq_true_1 in H0.
    apply IH; [done..|lia].
  - intros n subs q IH v i Hc Hcu Hlen. rewrite assemble_KroneckerGate.
    pose proof (consistent_children _ Hc) as Hch. simpl in Hc, Hcu, Hlen, Hch.
    apply andb_prop in Hc as [Hc _]. apply andb_prop in Hc as [Hn _].
    apply bool_decide_eq_true_1 in Hn. apply forallb_Forall in Hcu.
    destruct (kron_loop_total subs v) with (out := @nil (descriptor P)) (index := 0) (i := i)
      as [out ->]; [| |done|lia|by eexists].
    + rewrite Forall_forall in IH, Hch, Hcu. apply Forall_forall. intros s Hs v' i' Hv.
      apply IH; auto.
    + by apply consistent_Forall_nonneg.
  - intros n subs q IH v i Hc Hcu Hlen. rewrite assemble_ProductGate.
    pose proof (consistent_children _ Hc) as Hch. simpl in Hc, Hcu, Hlen, Hch.
    apply andb_prop in Hc as [Hn _].
    apply bool_decide_eq_true_1 in Hn. apply forallb_Forall in Hcu.
    apply product_loop_total; [| |done|lia].
    + rewrite Forall_forall in IH, Hch, Hcu. apply Forall_forall. intros s Hs v' i' Hv.
      apply IH; auto.
    + by apply consistent_Forall_nonneg.
Qed.

Lemma product_loop_raises subs v i :
  Exists (λ s, ∀ v i, ∃ e, assemble s v i = Raise e) subs →
  ∀ out index, ∃ e, product_loop subs v out index i = Raise e.
Proof.
  induction 1 as [s subs Hs|s subs _ IH]; intros out index; simpl.
  - destruct (Hs (py_slice v index (index + gate_num_inputs s)) i) as [e ->]. by eexists.
  - destruct (assemble s _ i); simpl; [apply IH|by eexists].
Qed.

Lemma kron_loop_raises subs v :
  Exists (λ s, ∀ v i, ∃ e, assemble s v i = Raise e) subs →
  ∀ out index i, ∃ e, kron_loop subs v out index i = Raise e.
Proof.
  induction 1 as [s subs Hs|s subs _ IH]; intros out index i; simpl.
  - destruct (Hs (py_slice v index (index + gate_num_inputs s)) i) as [e ->]. by eexists.
  - destruct (assemble s _ i); simpl; [apply IH|by eexists].
Qed.

Lemma forallb_false_Exists {A} (f : A → bool) (l : list A) :
  forallb f l = false → Exists (λ x, f x = false) l.
Proof.
  induction l as [|x l IH]; simpl; [done|].
  destruct (f x) eqn:E; simpl; [intros H; right; auto|left; done].
Qed.

(** X10: [CUGate.assemble] raises [NameError] on every input, and so no gate
    tree that holds a [CUGate] anywhere can be assembled. *)
Theorem assemble_CUGate_raises :
  (∀ U gatename flipped v i,
     assemble (CUGate U gatename flipped) v i = Raise NameError)
  ∧ ∀ g, has_no_CUGate g = false → ∀ v i, ∃ e, assemble g v i = Raise e.
Proof.
  split; [done|].
  intros g. pattern g. apply Gate_tree_ind; clear g.
  - intros g Hp Hcu v i. destruct g; try discriminate Hp; try discriminate Hcu.
    by eexists.
  - intros sub df IH Hcu v i. simpl in *. by apply IH.
  - intros n subs q IH Hcu v i. rewrite assemble_KroneckerGate. simpl in Hcu.
    apply forallb_false_Exists in Hcu.
    destruct (kron_loop_raises subs v) with (out := @nil (descriptor P)) (index := 0) (i := i)
      as [e ->]; [|by eexists].
    rewrite Forall_forall in IH. apply Exists_exists in Hcu as (s & Hs & Hcu).
    apply Exists_exists. exists s. split; [done|]. by apply IH.
  - intros n subs q IH Hcu v i. rewrite assemble_ProductGate. simpl in Hcu.
    apply forallb_false_Exists in Hcu.
    apply product_loop_raises.
    rewrite Forall_forall in IH. apply Exists_exists in Hcu as (s & Hs & Hcu).
    apply Exists_exists. exists s. split; [done|]. by apply IH.
Qed.

End AssembleFacts.

Section AssembleRange.
Context {ndarray P : Type} (mod_2pi : P → P) (pi_half : P).
Implicit Types (g : Gate ndarray) (v : list P) (i index : Z)
               (out : list (descriptor P)).
Local Open Scope Z_scope.

Local Abbreviation assemble := (assemble (ndarray:=ndarray) mod_2pi pi_half).
Local Abbreviation kron_loop := (kron_assemble_loop (ndarray:=ndarray) mod_2pi pi_half).
Local Abbreviation product_loop := (product_assemble_loop (ndarray:=ndarray) mod_2pi pi_half).

Lemma all_indices_app out1 out2 :
  all_indices (out1 ++ out2) = all_indices out1 ++ all_indices out2.
Proof. apply flat_map_app. Qed.

Lemma py_sum_nonneg (f : Gate ndarray → Z) (l : list (Gate ndarray)) :
  Forall (λ s, 0 ≤ f s) l → 0 ≤ py_sum f l.
Proof. induction 1; [done|]. rewrite py_sum_cons. lia. Qed.

Lemma adjacent_layout_nonneg : ∀ g, adjacent_layout g = true → 0 ≤ gate_qudits g.
Proof.
  intros g. pattern g. apply Gate_tree_ind; clear g.
  - intros g Hp H. destruct g; try discriminate Hp; try discriminate H; simpl; try lia.
    simpl in H. by apply bool_decide_eq_true_1 in H.
  - intros sub df IH H. simpl in *. by apply IH.
  - intros n subs q IH H. simpl in *. apply andb_prop in H as [Hq Hs].
    apply bool_decide_eq_true_1 in Hq. subst q. apply forallb_Forall in Hs.
    apply py_sum_nonneg. rewrite Forall_forall in IH, Hs. apply Forall_forall.
    intros s Hin. apply IH; auto.
  - intros n subs q _ H. simpl in *. apply andb_prop in H as [Hq _].
    by apply bool_decide_eq_true_1 in Hq.
Qed.

Lemma product_loop_range subs v i q :
  Forall (λ s, ∀ v i out, assemble s v i = Ok out →
               Forall (λ x, i ≤ x < i + gate_qudits s) (all_indices out)) subs →
  Forall (λ s, gate_qudits s = q) subs →
  ∀ out index out',
  Forall (λ x, i ≤ x < i + q) (all_indices out) →
  product_loop subs v out index i = Ok out' →
  Forall (λ x, i ≤ x < i + q) (all_indices out').
Proof.
  induction 1 as [|s subs Hs _ IH]; intros Hq out index out' Hout; simpl.
  - by intros [= <-].
  - inversion Hq as [|? ? Hq1 Hq2]; subst.
    destruct (assemble s _ i) as [o|] eqn:E; simpl; [|done].
    apply IH; [done|]. rewrite all_indices_app, Forall_app. split; [done|].
    by eapply Hs.
Qed.

Lemma kron_loop_range subs v lo hi :
  Forall (λ s, ∀ v i out, assemble s v i = Ok out →
               Forall (λ x, i ≤ x < i + gate_qudits s) (all_indices out)) subs →
  Forall (λ s, 0 ≤ gate_qudits s) subs →
  ∀ out index i out',
  lo ≤ i → i + py_sum gate_qudits subs ≤ hi →
  Forall (λ x, lo ≤ x < hi) (all_indices out) →
  kron_loop subs v out index i = Ok out' →
  Forall (λ x, lo ≤ x < hi) (all_indices out').
Proof.
  induction 1 as [|s subs Hs _ IH]; intros Hq out index i out' Hlo Hhi Hout; simpl.
  - by intros [= <-].
  - inversion Hq as [|? ? Hq1 Hq2]; subst. rewrite py_sum_cons in Hhi.
    pose proof (py_sum_nonneg _ _ Hq2).
    destruct (assemble s _ i) as [o|] eqn:E; simpl; [|done].
    apply IH; [done|lia|lia|]. rewrite all_indices_app, Forall_app. split; [done|].
    eapply Forall_impl; [by eapply Hs|]. simpl. intros x Hx. lia.
Qed.

(** X11: a gate tree whose layout is consistent addresses only the qudits
    it acts on: every index in what [assemble(v, i)] returns lies in
    [i, ..., i + qudits - 1]. *)
Theorem assemble_indices_in_range : ∀ g v i out,
  adjacent_layout g = true →
  assemble g v i = Ok out →
  Forall (λ x, i ≤ x < i + gate_qudits g) (all_indices out).
Proof.
  intros g. pattern g. apply Gate_tree_ind; clear g.
  - intros g Hp v i out Hl.
    destruct g; try discriminate Hp; try discriminate Hl; simpl.
    all: repeat match goal with
         | |- context [py_index ?l ?k] => destruct (py_index l k); simpl; [|done]
         end.
    all: intros [= <-]; unfold all_indices; simpl; repeat constructor; lia.
  - intros sub df IH v i out Hl. simpl in *. by apply IH.
  - intros n subs q IH v i out Hl. rewrite assemble_KroneckerGate.
    destruct (kron_loop subs v [] 0 i) as [o|] eqn:E; simpl; [|done].
    intros [= <-]. unfold all_indices. simpl. rewrite app_nil_r.
    simpl in Hl. apply andb_prop in Hl as [Hq Hs].
    apply bool_decide_eq_true_1 in Hq. subst q. apply forallb_Forall in Hs.
    eapply (kron_loop_range subs v i (i + py_sum gate_qudits subs)); [| | | | |exact E].
    + rewrite Forall_forall in IH, Hs. apply Forall_forall. intros s Hin v' i' out'.
      apply IH; auto.
    + eapply Forall_impl; [exact Hs|]. intros s. apply adjacent_layout_nonneg.
    + lia.
    + lia.
    + constructor.
  - intros n subs q IH v i out Hl. rewrite assemble_ProductGate.
    simpl in Hl. apply andb_prop in Hl as [_ Hs]. apply forallb_Forall in Hs.
    intros E. eapply (product_loop_range subs v i q); [| | |exact E].
    + rewrite Forall_forall in IH, Hs. apply Forall_forall. intros s Hin v' i' out'.
      apply IH; [done|]. specialize (Hs s Hin). by apply andb_prop in Hs as [_ ?].
    + eapply Forall_impl; [exact Hs|]. intros s Hx. simpl in Hx.
      apply andb_prop in Hx as [Hx _]. by apply bool_decide_eq_true_1 in Hx.
    + constructor.
Qed.

End AssembleRange.

(** ** The Jacobians of the closed formulas *)
Section DerivativeFacts.
Context {C : Type} `{Scalar C}.
Context (Cring : ring_theory (R:=C) fzero fone fadd fmul fsub fneg eq).
Add Ring C_ring : Cring.
Local Open Scope scalar_scope.

Local Ltac entries :=
  repeat first [ apply (f_equal2 (@cons _)) | apply (f_equal2 (@pair _ _)) ];
  try reflexivity; try ring.

Lemma py_index_lt {A} (l : list A) (k : nat) :
  (length l ≤ k)%nat → py_index l k = Raise IndexError.
Proof. intros Hk. unfold py_index. by rewrite lookup_ge_None_2. Qed.

Local Ltac too_short v :=
  let rec go v := first [ destruct v as [|? v]; [reflexivity|go v] | simpl in *; lia ] in
  go v.

(** X14: [U3Gate.mat_jac] returns the matrix that [matrix] returns and, for
    each of the three parameters in order, the derivative of that matrix
    along the parameter, entry by entry; both methods raise [IndexError]
    on fewer than three parameters. *)
Theorem U3Gate_mat_jac_derivative (v : list C) :
  ((length v < 3)%nat →
     U3Gate_matrix v = Raise IndexError ∧ U3Gate_mat_jac v = Raise IndexError)
  ∧ ((3 ≤ length v)%nat →
     ∃ U Js,
       U3Gate_mat_jac v = Ok (U, Js)
       ∧ U3Gate_matrix v = Ok U
       ∧ length Js = 3%nat
       ∧ ∀ k J, Js !! k = Some J →
           U3Gate_matrix (along_parameter k v) = Ok (with_derivative U J)).
Proof.
  split.
  - intros Hlen. unfold U3Gate_matrix, U3Gate_mat_jac.
    destruct v as [|v0 [|v1 [|v2 v]]]; simpl in *; try done. lia.
  - intros Hlen. destruct v as [|v0 [|v1 [|v2 v]]]; simpl in Hlen; try lia.
    do 2 eexists. split; [reflexivity|]. split; [reflexivity|]. split; [reflexivity|].
    intros k J Hk.
    do 3 (destruct k as [|k]; [injection Hk as <-; unfold U3Gate_matrix, along_parameter,
            with_derivative; simpl; f_equal; entries|]).
    discriminate Hk.
Qed.

(** X15: [U2Gate.mat_jac] returns the matrix that [matrix] returns and, for
    each of the two parameters in order, the derivative of that matrix
    along the parameter; both methods raise [IndexError] on fewer than two
    parameters. *)
Theorem U2Gate_mat_jac_derivative (v : list C) :
  ((length v < 2)%nat →
     U2Gate_matrix v = Raise IndexError ∧ U2Gate_mat_jac v = Raise IndexError)
  ∧ ((2 ≤ length v)%nat →
     ∃ U Js,
       U2Gate_mat_jac v = Ok (U, Js)
       ∧ U2Gate_matrix v = Ok U
       ∧ length Js = 2%nat
       ∧ ∀ k J, Js !! k = Some J →
           U2Gate_matrix (along_parameter k v) = Ok (with_derivative U J)).
Proof.
  split.
  - intros Hlen. unfold U2Gate_matrix, U2Gate_mat_jac.
    destruct v as [|v0 [|v1 v]]; simpl in *; try done. lia.
  - intros Hlen. destruct v as [|v0 [|v1 v]]; simpl in Hlen; try lia.
    do 2 eexists. split; [reflexivity|]. split; [reflexivity|]. split; [reflexivity|].
    intros k J Hk.
    do 2 (destruct k as [|k]; [injection Hk as <-; unfold U2Gate_matrix, along_parameter,
            with_derivative; simpl; f_equal; entries|]).
    discriminate Hk.
Qed.

(** X16: [SingleQutritGate.mat_jac] returns the matrix that [matrix]
    returns and, for each of the eight parameters in order, the derivative
    of that matrix along the parameter; both methods raise [IndexError]
    on fewer than eight parameters. *)
Theorem SingleQutritGate_mat_jac_derivative (v : list C) :
  ((length v < 8)%nat →
     SingleQutritGate_matrix v = Raise IndexError
     ∧ SingleQutritGate_mat_jac v = Raise IndexError)
  ∧ ((8 ≤ length v)%nat →
     ∃ U Js,
       SingleQutritGate_mat_jac v = Ok (U, Js)
       ∧ SingleQutritGate_matrix v = Ok U
       ∧ length Js = 8%nat
       ∧ ∀ k J, Js !! k = Some J →
           SingleQutritGate_matrix (along_parameter k v) = Ok (with_derivative U J)).
Proof.
  split.
  - intros Hlen. unfold SingleQutritGate_matrix, SingleQutritGate_mat_jac.
    destruct v as [|v0 [|v1 [|v2 [|v3 [|v4 [|v5 [|v6 [|v7 v]]]]]]]];
      simpl in *; try done. lia.
  - intros Hlen.
    destruct v as [|v0 [|v1 [|v2 [|v3 [|v4 [|v5 [|v6 [|v7 v]]]]]]]];
      simpl in Hlen; try lia.
    do 2 eexists. split; [reflexivity|]. split; [reflexivity|]. split; [reflexivity|].
    intros k J Hk.
    do 8 (destruct k as [|k]; [injection Hk as <-;
            unfold SingleQutritGate_matrix, along_parameter, with_derivative;
            simpl; f_equal; entries|]).
    discriminate Hk.
Qed.

End DerivativeFacts.

(** ** Aliasing in the composite gates *)
Section AliasFacts.
Context {ndarray P : Type}.
Context (matmul : ndarray → ndarray → ndarray) (eye : ndarray)
        (adjoint : ndarray → ndarray) (kron : ndarray → ndarray → ndarray).
Implicit Types (h : heap ndarray) (gates : list (GateObj ndarray P)) (v : list P)
               (r : ref).

Lemma mret_inv {A} (a b : A) h h' :
  (mret a : Py ndarray A) h = Ok (b, h') → b = a ∧ h' = h.
Proof. by intros [= -> ->]. Qed.

Lemma np_get_inv r x h h' :
  np_get r h = Ok (x, h') → h' = h ∧ holds h r x.
Proof.
  unfold np_get, holds. destruct (h !! r) as [y|]; [|done]. by intros [= -> ->].
Qed.

Lemma np_kron_inv a b r h h' :
  np_kron kron a b h = Ok (r, h') → r = length h ∧ ∃ z, h' = h ++ [z].
Proof.
  unfold np_kron. intros E.
  apply bind_inv in E as (x & h1 & E1 & E). apply np_get_inv in E1 as [-> _].
  apply bind_inv in E as (y & h2 & E2 & E). apply np_get_inv in E2 as [-> _].
  unfold np_new in E. injection E as <- <-. eauto.
Qed.

(** *** [KroneckerGate]: nothing is overwritten *)
Lemma kron_matrix_loop_inv matrices : ∀ U h U' h',
  kron_matrix_loop kron matrices U h = Ok (U', h') →
  h `prefix_of` h' ∧ (matrices = [] ∧ U' = U ∨ allocated_after h U').
Proof.
  induction matrices as [|m matrices IH]; intros U h U' h' E; simpl in E.
  - apply mret_inv in E as [-> ->]. split; [done|by left].
  - apply bind_inv in E as (U1 & h1 & E1 & E).
    apply np_kron_inv in E1 as [-> [z ->]].
    apply IH in E as [Hp Hf]. split.
    + etrans; [|exact Hp]. by apply prefix_app_r.
    + right. unfold allocated_after in *. rewrite length_app in Hf. simpl in Hf.
      destruct Hf as [[_ ->]|Hf]; lia.
Qed.

Lemma kron_jacs_right_inv jacs : ∀ M h jacs' h',
  kron_jacs_right kron jacs M h = Ok (jacs', h') →
  h `prefix_of` h' ∧ Forall (allocated_after h) jacs'.
Proof.
  induction jacs as [|J jacs IH]; intros M h jacs' h' E; simpl in E.
  - apply mret_inv in E as [-> ->]. done.
  - apply bind_inv in E as (J1 & h1 & E1 & E).
    apply np_kron_inv in E1 as [-> [z ->]].
    apply bind_inv in E as (rest & h2 & E2 & E).
    apply mret_inv in E as [-> ->].
    apply IH in E2 as [Hp Hf].
    assert (Hp' : h `prefix_of` h2) by (etrans; [|exact Hp]; by apply prefix_app_r).
    split; [done|]. constructor; [unfold allocated_after; lia|].
    eapply Forall_impl; [exact Hf|]. unfold allocated_after. intros r.
    rewrite length_app. simpl. lia.
Qed.

Lemma kron_jacs_append_inv Js : ∀ u jacs h jacs' h',
  kron_jacs_append kron Js (Some u) jacs h = Ok (jacs', h') →
  h `prefix_of` h' ∧ ∃ new, jacs' = jacs ++ new ∧ Forall (allocated_after h) new.
Proof.
  induction Js as [|J Js IH]; intros u jacs h jacs' h' E; simpl in E.
  - apply mret_inv in E as [-> ->]. split; [done|]. exists []. by rewrite app_nil_r.
  - apply bind_inv in E as (J1 & h1 & E1 & E).
    apply np_kron_inv in E1 as [-> [z ->]].
    apply IH in E as [Hp (new & -> & Hf)].
    split; [etrans; [|exact Hp]; by apply prefix_app_r|].
    exists (length h :: new). rewrite <- app_assoc. split; [done|].
    constructor; [unfold allocated_after; lia|].
    eapply Forall_impl; [exact Hf|]. unfold allocated_after. intros r.
    rewrite length_app. simpl. lia.
Qed.

Lemma kron_jacs_append_None Js : ∀ jacs h,
  kron_jacs_append kron Js None jacs h = Ok (jacs ++ Js, h).
Proof.
  induction Js as [|J Js IH]; intros jacs h; simpl.
  - by rewrite app_nil_r.
  - unfold mbind at 1, Py_bind, mret, Py_ret. rewrite IH. by rewrite <- app_assoc.
Qed.

Lemma kron_mat_jac_loop_first M Js rest h :
  kron_mat_jac_loop kron ((M, Js) :: rest) None [] h
  = kron_mat_jac_loop kron rest (Some M) Js h.
Proof.
  simpl. unfold mbind at 1, Py_bind. simpl.
  unfold mbind at 1, Py_bind. by rewrite kron_jacs_append_None.
Qed.

Lemma Forall_allocated_after_prefix h h' (rs : list ref) :
  h `prefix_of` h' → Forall (allocated_after h') rs → Forall (allocated_after h) rs.
Proof.
  intros Hp HF. eapply Forall_impl; [exact HF|]. unfold allocated_after. intros r.
  apply prefix_length in Hp. lia.
Qed.

Lemma kron_mat_jac_loop_inv matjacs : ∀ u jacs h U' jacs' h',
  kron_mat_jac_loop kron matjacs (Some u) jacs h = Ok ((U', jacs'), h') →
  h `prefix_of` h'
  ∧ ∃ u', U' = Some u'
     ∧ (matjacs = [] ∧ u' = u ∧ jacs' = jacs
        ∨ allocated_after h u' ∧ Forall (allocated_after h) jacs').
Proof.
  induction matjacs as [|[M Js] matjacs IH]; intros u jacs h U' jacs' h' E; simpl in E.
  - apply mret_inv in E as [[= -> ->] ->]. split; [done|]. exists u. split; [done|by left].
  - apply bind_inv in E as (jacs1 & h1 & E1 & E).
    apply kron_jacs_right_inv in E1 as [Hp1 Hf1].
    apply bind_inv in E as (jacs2 & h2 & E2 & E).
    apply kron_jacs_append_inv in E2 as [Hp2 (new & -> & Hf2)].
    apply bind_inv in E as (U3 & h3 & E3 & E).
    apply np_kron_inv in E3 as [-> [z ->]].
    apply IH in E as [Hp3 (u' & -> & Hcase)].
    assert (Hp12 : h `prefix_of` h2) by (by etrans).
    assert (Hp13 : h `prefix_of` h2 ++ [z]) by (etrans; [exact Hp12|]; by apply prefix_app_r).
    split; [by etrans|]. exists u'. split; [done|]. right.
    destruct Hcase as [(-> & -> & ->)|[Hu Hj]].
    + split.
      * unfold allocated_after. apply prefix_length in Hp12. lia.
      * apply Forall_app. split; [done|].
        exact (Forall_allocated_after_prefix _ _ _ Hp1 Hf2).
    + split.
      * unfold allocated_after in *. apply prefix_length in Hp13. lia.
      * exact (Forall_allocated_after_prefix _ _ _ Hp13 Hj).
Qed.

(** X17: with two children or more, [KroneckerGate.matrix] overwrites
    nothing: every array that exists once the children have returned is
    unchanged, and the matrix handed back is a new array.  With one child
    the child's own array is handed back, and without children the method
    raises [IndexError]. *)
Theorem KroneckerGate_matrix_allocates gates v h matrices h1 Us :
  2 ≤ length gates →
  collect_matrices gates v 0 h = Ok (matrices, h1) →
  Forall2 (holds h1) matrices Us →
  (∃ U h2,
     KroneckerGate_matrix kron gates v h = Ok (U, h2)
     ∧ h1 `prefix_of` h2
     ∧ allocated_after h1 U)
  ∧ (∀ g, KroneckerGate_matrix kron [g] v h = matrix g v h)
  ∧ KroneckerGate_matrix kron ([] : list (GateObj ndarray P)) v h = Raise IndexError.
Proof.
  intros Hn Hc HF. split_and!; [|done|done].
  assert (Hlen := collect_matrices_length _ _ _ _ _ _ Hc).
  unfold KroneckerGate_matrix.
  assert ((length gates <? 2) = false) as -> by (apply Nat.ltb_ge; lia).
  rewrite (bind_run _ _ _ _ _ Hc).
  destruct matrices as [|m0 [|m1 ms]]; [simpl in Hlen; lia..|].
  apply Forall2_cons_inv_l in HF as (u & Us' & HU & HF & ->).
  unfold mbind at 1, Py_bind, py_lift, py_index. simpl lookup. cbv iota beta.
  rewrite py_slice_from_1.
  destruct (kron_matrix_loop_spec kron (m1 :: ms) Us' m0 u h1 HU HF) as (U' & h' & E & _ & Hp).
  exists U', h'. split; [done|]. split; [done|].
  apply kron_matrix_loop_inv in E as [_ [[? _]|Hf]]; done.
Qed.

(** X18: with two children or more, [KroneckerGate.mat_jac] overwrites
    nothing either, and the matrix and every Jacobian handed back are new
    arrays; with one child the child's own result is handed back. *)
Theorem KroneckerGate_mat_jac_allocates gates v h matjacs h1 Us Jss :
  2 ≤ length gates →
  collect_matjacs gates v 0 h = Ok (matjacs, h1) →
  Forall2 (holds h1) matjacs.*1 Us →
  Forall2 (Forall2 (holds h1)) matjacs.*2 Jss →
  (∃ U jacs h2,
     KroneckerGate_mat_jac kron gates v h = Ok ((Some U, jacs), h2)
     ∧ h1 `prefix_of` h2
     ∧ allocated_after h1 U
     ∧ Forall (allocated_after h1) jacs)
  ∧ (∀ g, KroneckerGate_mat_jac kron [g] v h
          = ('(U, Js) ← mat_jac g v; mret (Some U, Js)) h).
Proof.
  intros Hn Hc HUs HJss. split; [|done].
  assert (Hlen := collect_matjacs_length _ _ _ _ _ _ Hc).
  unfold KroneckerGate_mat_jac.
  assert ((length gates <? 2) = false) as -> by (apply Nat.ltb_ge; lia).
  rewrite (bind_run _ _ _ _ _ Hc).
  destruct (kron_mat_jac_loop_spec kron matjacs Us Jss [] [] None [] h1)
    as (U' & jacs' & h' & E & _ & _); [done|done|done|done|constructor|].
  rewrite E.
  destruct matjacs as [|[M0 Js0] [|mj1 rest]]; [simpl in Hlen; lia..|].
  rewrite kron_mat_jac_loop_first in E.
  apply (kron_mat_jac_loop_inv (mj1 :: rest)) in E as [Hp (u' & -> & [[? _]|[Hu Hj]])];
    [done|].
  by exists u', jacs', h'.
Qed.

(** *** [ProductGate]: what is overwritten *)
Lemma np_new_inv (x : ndarray) r h h' :
  np_new x h = Ok (r, h') → r = length h ∧ h' = h ++ [x].
Proof. unfold np_new. by intros [= <- <-]. Qed.

Lemma np_copy_inv a r h h' :
  np_copy a h = Ok (r, h') → r = length h ∧ ∃ z, h' = h ++ [z].
Proof.
  unfold np_copy. intros E. apply bind_inv in E as (x & h1 & E1 & E).
  apply np_get_inv in E1 as [-> _]. apply np_new_inv in E as [-> ->]. eauto.
Qed.

Lemma np_eye_like_inv a r h h' :
  np_eye_like eye a h = Ok (r, h') → r = length h ∧ ∃ z, h' = h ++ [z].
Proof.
  unfold np_eye_like. intros E. apply bind_inv in E as (x & h1 & E1 & E).
  apply np_get_inv in E1 as [-> _]. apply np_new_inv in E as [-> ->]. eauto.
Qed.

Lemma np_T_conjugate_inv a r h h' :
  np_T_conjugate adjoint a h = Ok (r, h') → r = length h ∧ ∃ z, h' = h ++ [z].
Proof.
  unfold np_T_conjugate. intros E. apply bind_inv in E as (x & h1 & E1 & E).
  apply np_get_inv in E1 as [-> _]. apply np_new_inv in E as [-> ->]. eauto.
Qed.

Lemma np_matmul_out_inv a b out r h h' :
  np_matmul_out matmul a b out h = Ok (r, h') →
  r = out ∧ ∃ z, h' = <[out := z]> h.
Proof.
  unfold np_matmul_out. intros E.
  apply bind_inv in E as (x & h1 & E1 & E). apply np_get_inv in E1 as [-> _].
  apply bind_inv in E as (y & h2 & E2 & E). apply np_get_inv in E2 as [-> _].
  apply bind_inv in E as ([] & h3 & E3 & E). apply mret_inv in E as [-> ->].
  unfold np_set in E3. destruct (h !! out); [|done]. injection E3 as <-. eauto.
Qed.

Lemma np_matmul_out_live a b out h :
  a < length h → b < length h → out < length h →
  ∃ z, np_matmul_out matmul a b out h = Ok (out, <[out := z]> h).
Proof.
  intros Ha Hb Ho.
  destruct (lookup_lt_is_Some_2 h a Ha) as [x Hx].
  destruct (lookup_lt_is_Some_2 h b Hb) as [y Hy].
  destruct (lookup_lt_is_Some_2 h out Ho) as [z Hz].
  exists (matmul x y). by eapply np_matmul_out_run.
Qed.

Local Ltac list_in :=
  simpl; try clear kron; try clear adjoint; try clear eye; try clear matmul;
  repeat match goal with H : _ ∈ _ |- _ => revert H end;
  repeat first [ setoid_rewrite elem_of_app | setoid_rewrite elem_of_cons
               | setoid_rewrite elem_of_nil ];
  intuition congruence.

(** Arrays of [h] are found in [h'] with the same value, outside [W]. *)
Lemma unchanged_outside_refl W h : unchanged_outside W h h.
Proof using Type. by intros r x. Qed.

Lemma unchanged_outside_trans W h1 h2 h3 :
  unchanged_outside W h1 h2 → unchanged_outside W h2 h3 → unchanged_outside W h1 h3.
Proof using Type. intros H12 H23 r x Hr Hx. apply H23; [done|]. by apply H12. Qed.

Lemma unchanged_outside_new W h z : unchanged_outside W h (h ++ [z]).
Proof using Type. intros r x _. apply holds_new. Qed.

Lemma unchanged_outside_set W h r z :
  r ∈ W → unchanged_outside W h (<[r := z]> h).
Proof using Type.
  intros Hr r' x Hr' Hx. eapply holds_set_ne; [|done]. intros ->. done.
Qed.

Lemma unchanged_outside_subseteq W W' h h' :
  (∀ r, r ∈ W → r ∈ W') → unchanged_outside W h h' → unchanged_outside W' h h'.
Proof using Type. intros Hsub H r x Hr. apply H. intros Hin. by apply Hr, Hsub. Qed.

Lemma unchanged_outside_length W h h' :
  unchanged_outside W h h' → Forall (λ r, length h ≤ r) W → h `prefix_of` h'.
Proof using Type.
  intros H HW.
  assert (Hall : ∀ r x, holds h r x → holds h' r x).
  { intros r x Hx. apply H; [|done]. intros Hin.
    rewrite Forall_forall in HW. apply HW in Hin. apply holds_lt in Hx. lia. }
  exists (drop (length h) h').
  rewrite <- (take_drop (length h) h') at 1. f_equal.
  apply list_eq. intros i. destruct (decide (i < length h)) as [Hi|Hi].
  - rewrite lookup_take_lt by done.
    destruct (lookup_lt_is_Some_2 h i Hi) as [x Hx]. rewrite Hx. by apply Hall.
  - rewrite lookup_take_ge by lia. by rewrite lookup_ge_None_2 by lia.
Qed.

(** [ProductGate.matrix]: the loop writes to [buffer1] only. *)
Lemma product_matrix_loop_inv matrices : ∀ U buffer1 buffer2 h U' h',
  product_matrix_loop matmul matrices U buffer1 buffer2 h = Ok (U', h') →
  (matrices = [] ∧ U' = U ∨ U' = buffer1)
  ∧ unchanged_outside [buffer1] h h'.
Proof using matmul.
  induction matrices as [|m matrices IH]; intros U b1 b2 h U' h' E; simpl in E.
  - apply mret_inv in E as [-> ->]. split; [by left|apply unchanged_outside_refl].
  - apply bind_inv in E as (U1 & h1 & E1 & E).
    apply np_matmul_out_inv in E1 as [-> [z ->]].
    apply IH in E as [Hcase Hu]. split.
    + right. by destruct Hcase as [[_ ->]| ->].
    + eapply unchanged_outside_trans; [|exact Hu].
      apply unchanged_outside_set. list_in.
Qed.

(** X19: with two children or more, [ProductGate.matrix] writes only to
    the buffers it allocates in the call: every array that exists once
    the children have returned is unchanged, and the product handed back
    is a new array.  With one child the child's own array is handed back,
    and without children the method raises [IndexError]. *)
Theorem ProductGate_matrix_buffers gates v h matrices h1 Us :
  2 ≤ length gates →
  collect_matrices gates v 0 h = Ok (matrices, h1) →
  Forall2 (holds h1) matrices Us →
  (∃ U h2,
     ProductGate_matrix matmul gates v h = Ok (U, h2)
     ∧ h1 `prefix_of` h2
     ∧ allocated_after h1 U)
  ∧ (∀ g, ProductGate_matrix matmul [g] v h = matrix g v h)
  ∧ ProductGate_matrix matmul ([] : list (GateObj ndarray P)) v h = Raise IndexError.
Proof using matmul.
  intros Hn Hc HF. split_and!; [|done|done].
  assert (Hlen := collect_matrices_length _ _ _ _ _ _ Hc).
  unfold ProductGate_matrix.
  assert ((length gates <? 2) = false) as -> by (apply Nat.ltb_ge; lia).
  rewrite (bind_run _ _ _ _ _ Hc).
  destruct matrices as [|m0 [|m1 ms]]; [simpl in Hlen; lia..|].
  pose proof HF as HF0.
  apply Forall2_cons_inv_l in HF as (u & Us' & HU & HF & ->).
  unfold mbind at 1, Py_bind, py_lift, py_index. simpl lookup. cbv iota beta.
  rewrite (bind_run _ _ _ _ _ (np_copy_run _ _ _ HU)).
  rewrite (bind_run _ _ _ _ _ (np_copy_run _ _ _ (holds_new _ _ _ u HU))).
  rewrite py_slice_from_1.
  destruct (product_matrix_loop_spec matmul (m1 :: ms) Us' m0 u (length h1)
              (length (h1 ++ [u])) u ((h1 ++ [u]) ++ [u]))
    as (U' & h' & E & _).
  { do 2 apply holds_new. done. }
  { apply holds_new, holds_new_eq. }
  { eapply Forall2_impl; [exact HF|]. intros. by do 2 apply holds_new. }
  { intros Hin. apply (Forall2_holds_lt _ _ _ _ HF) in Hin. lia. }
  exists U', h'. split; [done|].
  apply product_matrix_loop_inv in E as [Hcase Hu].
  destruct Hcase as [[? _]| ->]; [done|]. split; [|unfold allocated_after; lia].
  apply (unchanged_outside_length [length h1]); [|by constructor].
  eapply unchanged_outside_trans; [|exact Hu].
  eapply unchanged_outside_trans; apply unchanged_outside_new.
Qed.

(** [ProductGate.mat_jac]: the loops *)
Lemma product_suffix_loop_inv submats : ∀ A ba1 ba2 h A' ba1' ba2' h',
  product_suffix_loop matmul submats A ba1 ba2 h = Ok ((A', ba1', ba2'), h') →
  ba1' = ba1
  ∧ (submats = [] ∧ A' = A ∧ ba2' = ba2 ∨ A' = ba1 ∧ ba2' = ba1)
  ∧ length h' = length h
  ∧ unchanged_outside [ba1] h h'.
Proof using matmul.
  induction submats as [|m submats IH]; intros A ba1 ba2 h A' ba1' ba2' h' E; simpl in E.
  - apply mret_inv in E as [[= -> -> ->] ->].
    split_and!; [done|by left|done|apply unchanged_outside_refl].
  - apply bind_inv in E as (A1 & h1 & E1 & E).
    apply np_matmul_out_inv in E1 as [-> [z ->]].
    apply IH in E as (-> & Hcase & Hlen & Hu). split_and!; [done| | |].
    + right. by destruct Hcase as [(_ & -> & ->)|[-> ->]].
    + by rewrite Hlen, length_insert.
    + eapply unchanged_outside_trans; [|exact Hu].
      apply unchanged_outside_set. list_in.
Qed.

Lemma product_suffix_loop_live submats : ∀ A ba1 ba2 h,
  Forall (λ r, r < length h) submats → A < length h → ba1 < length h →
  ∃ res h', product_suffix_loop matmul submats A ba1 ba2 h = Ok (res, h').
Proof.
  induction submats as [|m submats IH]; intros A ba1 ba2 h Hs HA Hb; simpl.
  - by eexists _, _.
  - inversion Hs as [|? ? Hm Hs']; subst.
    destruct (np_matmul_out_live m A ba1 h) as [z E]; [done..|].
    rewrite (bind_run _ _ _ _ _ E).
    apply IH; rewrite ?length_insert; done.
Qed.

Lemma product_jacs_loop_inv Js : ∀ A B bj jacs h jacs' h',
  product_jacs_loop matmul Js A B bj jacs h = Ok (jacs', h') →
  jacs' = jacs ++ Js
  ∧ length h' = length h
  ∧ unchanged_outside (bj :: Js) h h'.
Proof using matmul.
  induction Js as [|J Js IH]; intros A B bj jacs h jacs' h' E; simpl in E.
  - apply mret_inv in E as [-> ->]. rewrite app_nil_r.
    split_and!; [done..|apply unchanged_outside_refl].
  - apply bind_inv in E as (tmp & h1 & E1 & E).
    apply np_matmul_out_inv in E1 as [-> [z ->]].
    apply bind_inv in E as (J' & h2 & E2 & E).
    apply np_matmul_out_inv in E2 as [-> [z' ->]].
    apply IH in E as (-> & Hlen & Hu). split_and!.
    + by rewrite <- app_assoc.
    + by rewrite Hlen, !length_insert.
    + apply (unchanged_outside_trans _ _ (<[bj:=z]> h));
        [apply unchanged_outside_set; list_in|].
      apply (unchanged_outside_trans _ _ (<[J:=z']> (<[bj:=z]> h)));
        [apply unchanged_outside_set; list_in|].
      eapply unchanged_outside_subseteq; [|exact Hu]. list_in.
Qed.

Lemma product_jacs_loop_live Js : ∀ A B bj jacs h,
  Forall (λ r, r < length h) Js → A < length h → B < length h → bj < length h →
  ∃ jacs' h', product_jacs_loop matmul Js A B bj jacs h = Ok (jacs', h').
Proof.
  induction Js as [|J Js IH]; intros A B bj jacs h HJs HA HB Hbj; simpl.
  - by eexists _, _.
  - inversion HJs as [|? ? HJ HJs']; subst.
    destruct (np_matmul_out_live J B bj h) as [z E]; [done..|].
    rewrite (bind_run _ _ _ _ _ E).
    destruct (np_matmul_out_live A bj J (<[bj:=z]> h)) as [z' E'];
      [rewrite length_insert; done..|].
    rewrite (bind_run _ _ _ _ _ E').
    apply IH; rewrite ?length_insert; done.
Qed.

Lemma Forall_lt_le (rs : list ref) n m :
  n ≤ m → Forall (λ r, r < n) rs → Forall (λ r, r < m) rs.
Proof. intros Hle HF. eapply Forall_impl; [exact HF|]. intros r. simpl. lia. Qed.

Lemma product_scan_loop_inv subjacs : ∀ i submats A B ba1 ba2 bb1 bb2 bj jacs h B' jacs' h',
  product_scan_loop matmul adjoint subjacs i submats A B ba1 ba2 bb1 bb2 bj jacs h
    = Ok ((B', jacs'), h') →
  jacs' = jacs ++ concat subjacs
  ∧ B' ∈ [B; bb1; bb2]
  ∧ unchanged_outside ([ba1; ba2; bb1; bb2; bj] ++ concat subjacs) h h'.
Proof using matmul.
  induction subjacs as [|Js subjacs IH];
    intros i submats A B ba1 ba2 bb1 bb2 bj jacs h B' jacs' h' E; simpl in E.
  - apply mret_inv in E as [[= -> ->] ->]. rewrite app_nil_r.
    split_and!; [done|list_in|apply unchanged_outside_refl].
  - apply bind_inv in E as (Ui & h1 & E1 & E).
    assert (h1 = h) as ->.
    { unfold py_lift in E1. destruct (py_index submats i); [|done]. by injection E1. }
    apply bind_inv in E as (Ut & h2 & E2 & E).
    apply np_T_conjugate_inv in E2 as [-> [z ->]].
    apply bind_inv in E as (A1 & h3 & E3 & E).
    apply np_matmul_out_inv in E3 as [-> [z3 ->]].
    apply bind_inv in E as (jacs1 & h4 & E4 & E).
    apply product_jacs_loop_inv in E4 as (-> & _ & Hu4).
    apply bind_inv in E as (Ui' & h5 & E5 & E).
    assert (h5 = h4) as ->.
    { unfold py_lift in E5. destruct (py_index submats i); [|done]. by injection E5. }
    apply bind_inv in E as (B1 & h6 & E6 & E).
    apply np_matmul_out_inv in E6 as [-> [z6 ->]].
    apply IH in E as (-> & HB & Hu). split_and!.
    + simpl. by rewrite <- app_assoc.
    + list_in.
    + apply (unchanged_outside_trans _ _ (h ++ [z])); [apply unchanged_outside_new|].
      apply (unchanged_outside_trans _ _ (<[ba1:=z3]> (h ++ [z])));
        [apply unchanged_outside_set; list_in|].
      apply (unchanged_outside_trans _ _ h4).
      { eapply unchanged_outside_subseteq; [|exact Hu4]. list_in. }
      apply (unchanged_outside_trans _ _ (<[bb1:=z6]> h4));
        [apply unchanged_outside_set; list_in|].
      eapply unchanged_outside_subseteq; [|exact Hu]. list_in.
Qed.

Lemma product_scan_loop_live subjacs : ∀ i submats A B ba1 ba2 bb1 bb2 bj jacs h,
  i + length subjacs ≤ length submats →
  Forall (λ r, r < length h) submats →
  Forall (Forall (λ r, r < length h)) subjacs →
  Forall (λ r, r < length h) [A; B; ba1; ba2; bb1; bb2; bj] →
  ∃ res h',
    product_scan_loop matmul adjoint subjacs i submats A B ba1 ba2 bb1 bb2 bj jacs h
      = Ok (res, h').
Proof using matmul.
  induction subjacs as [|Js subjacs IH];
    intros i submats A B ba1 ba2 bb1 bb2 bj jacs h Hi Hs HJ Hb; simpl.
  - by eexists _, _.
  - simpl in Hi. inversion HJ as [|? ? HJs HJ']; subst.
    destruct (lookup_lt_is_Some_2 submats i ltac:(lia)) as [Ui HUi].
    assert (HUil : Ui < length h).
    { rewrite Forall_forall in Hs. apply Hs. by eapply list_elem_of_lookup_2. }
    repeat (apply Forall_cons in Hb as [? Hb]).
    unfold py_lift, py_index. rewrite HUi.
    unfold mbind at 1, Py_bind.
    destruct (lookup_lt_is_Some_2 h Ui HUil) as [u Hu].
    rewrite (bind_run _ _ _ _ _ (np_T_conjugate_run adjoint _ _ _ Hu)).
    destruct (np_matmul_out_live A (length h) ba1 (h ++ [adjoint u])) as [z E];
      [rewrite length_app; simpl; lia..|].
    rewrite (bind_run _ _ _ _ _ E).
    destruct (product_jacs_loop_live Js ba1 B bj jacs (<[ba1:=z]> (h ++ [adjoint u])))
      as (jacs1 & h4 & E4).
    { rewrite length_insert, length_app. simpl.
      eapply Forall_lt_le; [|exact HJs]. lia. }
    1-3: rewrite length_insert, length_app; simpl; lia.
    rewrite (bind_run _ _ _ _ _ E4).
    pose proof E4 as E4'. apply product_jacs_loop_inv in E4' as (_ & Hlen4 & _).
    rewrite length_insert, length_app in Hlen4. simpl in Hlen4.
    unfold mbind at 1, Py_bind.
    destruct (np_matmul_out_live Ui B bb1 h4) as [z6 E6]; [lia..|].
    rewrite (bind_run _ _ _ _ _ E6).
    apply IH.
    + lia.
    + rewrite length_insert. eapply Forall_lt_le; [|exact Hs]. lia.
    + rewrite length_insert. eapply Forall_impl; [exact HJ'|].
      intros l Hl. eapply Forall_lt_le; [|exact Hl]. lia.
    + rewrite length_insert, !Forall_cons, Forall_nil. lia.
Qed.

(** X20: [ProductGate.mat_jac] writes its results into the children's
    Jacobian arrays.  With two children or more, the list of Jacobians
    handed back holds exactly the array objects that the children handed
    in, child by child; the call has overwritten them, while every other
    array that exists once the children have returned, the children's
    matrices among them, is unchanged; the product handed back is a new
    array.  No assumption on the values is needed: the call returns
    whenever the children hand in live arrays. *)
Theorem ProductGate_mat_jac_overwrites gates v h matjacs h1 Us Jss :
  2 ≤ length gates →
  collect_matjacs gates v 0 h = Ok (matjacs, h1) →
  Forall2 (holds h1) matjacs.*1 Us →
  Forall2 (Forall2 (holds h1)) matjacs.*2 Jss →
  ∃ B jacs h2,
    ProductGate_mat_jac matmul eye adjoint gates v h = Ok ((B, jacs), h2)
    ∧ jacs = concat matjacs.*2
    ∧ allocated_after h1 B
    ∧ unchanged_outside (concat matjacs.*2) h1 h2.
Proof using matmul eye adjoint.
  intros Hn Hc HUs HJss.
  assert (Hlen := collect_matjacs_length _ _ _ _ _ _ Hc).
  unfold ProductGate_mat_jac.
  assert ((length gates <? 2) = false) as -> by (apply Nat.ltb_ge; lia).
  unfold collect_submats_subjacs.
  rewrite (bind_run _ _ _ _ _ (bind_run _ _ _ _ _ Hc)).
  destruct matjacs as [|[m0 Js0] [|mj1 matjacs]]; [simpl in Hlen; lia..|].
  set (submats := ((m0, Js0) :: mj1 :: matjacs).*1) in *.
  set (subjacs := ((m0, Js0) :: mj1 :: matjacs).*2) in *.
  set (b0 := length h1).
  assert (Hsubs_lt : Forall (λ r, r < b0) submats).
  { apply Forall_forall. intros r Hr. exact (Forall2_holds_lt h1 submats _ r HUs Hr). }
  assert (Hjacs_lt : Forall (Forall (λ r, r < b0)) subjacs).
  { apply Forall_forall. intros rs Hrs. apply Forall_forall. intros r Hr.
    apply list_elem_of_lookup in Hrs as [k Hk].
    destruct (Forall2_lookup_l _ _ _ _ _ HJss Hk) as (xs & _ & HF).
    exact (Forall2_holds_lt h1 rs xs r HF Hr). }
  assert (Hs0 : submats !! 0 = Some m0) by done.
  destruct Us as [|u0 Us']; [by apply Forall2_length in HUs|].
  pose proof HUs as HUs0. apply Forall2_cons_1 in HUs0 as [Hm0 _].
  unfold py_index. rewrite Hs0.
  unfold mbind at 1, Py_bind, py_lift. cbv iota beta.
  rewrite (bind_run _ _ _ _ _ (np_eye_like_run eye _ _ _ Hm0)).
  fold b0. set (ha := h1 ++ [eye]).
  assert (Hm0a : holds ha m0 u0) by (by apply holds_new).
  rewrite (bind_run _ _ _ _ _ (np_copy_run _ _ _ Hm0a)).
  set (c1 := length ha). set (hb := ha ++ [u0]).
  assert (Hb0b : holds hb b0 eye) by (apply holds_new, holds_new_eq).
  rewrite (bind_run _ _ _ _ _ (np_copy_run _ _ _ Hb0b)).
  set (c2 := length hb). set (hc := hb ++ [eye]).
  assert (Hb0c : holds hc b0 eye) by (by apply holds_new).
  rewrite (bind_run _ _ _ _ _ (np_copy_run _ _ _ Hb0c)).
  set (c3 := length hc). set (hd := hc ++ [eye]).
  assert (Hc1 : c1 = S b0) by (unfold c1, ha, b0; rewrite length_app; simpl; lia).
  assert (Hc2 : c2 = S (S b0)) by (unfold c2, hb; rewrite length_app; fold c1; simpl; lia).
  assert (Hc3 : c3 = S (S (S b0))) by (unfold c3, hc; rewrite length_app; fold c2; simpl; lia).
  assert (Hld : length hd = S (S (S (S b0))))
    by (unfold hd; rewrite length_app; fold c3; simpl; lia).
  replace (py_slice_from submats 1) with ((mj1 :: matjacs).*1)
    by (unfold submats; simpl; by rewrite py_slice_from_1).
  destruct (product_suffix_loop_live (mj1 :: matjacs).*1 m0 c1 m0 hd)
    as ([[A' ba1'] ba2'] & h5 & E5).
  { rewrite Hld. apply Forall_cons in Hsubs_lt as [_ Hs].
    eapply Forall_lt_le; [|exact Hs]. lia. }
  { rewrite Hld. apply Forall_cons in Hsubs_lt as [Hm _]. simpl in Hm. lia. }
  { rewrite Hld. lia. }
  rewrite (bind_run _ _ _ _ _ E5). cbv beta iota.
  apply product_suffix_loop_inv in E5 as (-> & Hcase & Hlen5 & Hu5).
  destruct Hcase as [(Hnil & _)|[-> ->]]; [done|].
  destruct (product_scan_loop_live subjacs 0 submats c1 b0 c1 c1 c2 b0 c3 [] h5)
    as ([B' jacs'] & h' & E).
  { unfold subjacs, submats. rewrite !length_fmap. lia. }
  { rewrite Hlen5, Hld. eapply Forall_lt_le; [|exact Hsubs_lt]. lia. }
  { rewrite Hlen5, Hld. eapply Forall_impl; [exact Hjacs_lt|].
    intros l Hl. eapply Forall_lt_le; [|exact Hl]. lia. }
  { rewrite Hlen5, Hld, !Forall_cons, Forall_nil. lia. }
  exists B', jacs', h'. split; [exact E|].
  apply product_scan_loop_inv in E as (-> & HB & Hu).
  split_and!; [done| |].
  - unfold allocated_after. fold b0.
    rewrite !elem_of_cons, elem_of_nil in HB. destruct HB as [->|[->|[->|[]]]]; lia.
  - intros r x Hr Hx. pose proof (holds_lt _ _ _ Hx) as Hlt. fold b0 in Hlt.
    apply Hu.
    { rewrite elem_of_app, !elem_of_cons, elem_of_nil.
      intros [[->|[->|[->|[->|[->|[]]]]]]|Hin]; try lia. done. }
    apply Hu5.
    { rewrite elem_of_cons, elem_of_nil. intros [->|[]]. lia. }
    unfold hd, hc, hb, ha. by do 4 apply holds_new.
Qed.

End AliasFacts.


(** * Instances and examples *)

#[global] Instance m2_laws : MatrixLaws m2_mul m2_eye.
Proof.
  split.
  - intros [a b c d] [a' b' c' d'] [a'' b'' c'' d'']. unfold m2_mul. simpl.
    f_equal; ring.
  - intros [a b c d]. unfold m2_mul, m2_eye. simpl. f_equal; ring.
  - intros [a b c d]. unfold m2_mul, m2_eye. simpl. f_equal; ring.
Qed.

#[global] Instance m2_tangent_laws : TangentLaws m2_mul m2_add m2_zero.
Proof.
  split; intros [a b c d]; unfold m2_mul, m2_add, m2_zero; simpl; f_equal; ring.
Qed.

#[global] Instance Z_scalar_laws : ScalarLaws 0%Z 1%Z Z.add Z.mul Z.opp.
Proof. split; intros; lia. Qed.

(** The chain of three children on the parameters [1; 3]: the product is
    the third quarter turn times the swap times the first quarter turn. *)
Lemma ProductGate_matrix_witness :
  ∃ U h2,
    ProductGate_matrix m2_mul example_gates [1; 3]%Z example_heap = Ok (U, h2)
    ∧ h2 !! U = Some (mk2 0 (-1) (-1) 0).
Proof.
  destruct (ProductGate_matrix_spec m2_mul example_gates [[1]; []; [3]]%Z example_heap
              [1; 0; 2]
              [mk2 0 1 1 0; m2_rot 1; m2_rot 3]
              [m2_rot 1; mk2 0 1 1 0; m2_rot 3])
    as (U & h2 & E & HU).
  - discriminate.
  - repeat constructor.
  - reflexivity.
  - repeat constructor.
  - exists U, h2. split; [exact E|]. rewrite HU. reflexivity.
Defined.

(** The same chain with its two Jacobians, one per quarter turn; the
    first is the derivative that [matrix] computes on the chain paired
    with its derivatives along the first parameter. *)
Lemma ProductGate_mat_jac_witness :
  ∃ B jacs h2,
    ProductGate_mat_jac m2_mul m2_eye m2_adjoint example_gates [1; 3]%Z example_heap
      = Ok ((B, jacs), h2)
    ∧ holds h2 B (mk2 0 (-1) (-1) 0)
    ∧ length jacs = 2
    ∧ (∃ r, jacs !! 0 = Some r ∧ holds h2 r (mk2 (-1) 0 0 1))
    ∧ (∃ r, jacs !! 1 = Some r ∧ holds h2 r (mk2 1 0 0 (-1)))
    ∧ (∃ dU hd2,
         ProductGate_matrix (tmul m2_mul m2_add) tangent_example_gates [1; 3]%Z
           tangent_example_heap = Ok (dU, hd2)
         ∧ holds hd2 dU (mk2 0 (-1) (-1) 0, mk2 (-1) 0 0 1)).
Proof.
  destruct (ProductGate_mat_jac_spec m2_mul m2_add m2_eye m2_zero m2_adjoint
              example_gates [[1]; []; [3]]%Z
              example_heap
              [(1, [2]); (0, []); (3, [4])]
              [mk2 0 1 1 0; m2_rot 1; m2_rot 2; m2_rot 3; m2_rot 4]
              [m2_rot 1; mk2 0 1 1 0; m2_rot 3]
              [[m2_rot 2]; []; [m2_rot 4]])
    as (B & jacs & h2 & E & HB & Hlen & Hj).
  - discriminate.
  - repeat constructor.
  - reflexivity.
  - repeat constructor.
  - repeat constructor.
  - simpl. apply NoDup_cons. split; [|apply NoDup_singleton].
    rewrite list_elem_of_singleton. discriminate.
  - intros r. simpl. rewrite !elem_of_cons, !elem_of_nil. lia.
  - repeat constructor.
  - repeat constructor.
  - exists B, jacs, h2. split; [exact E|]. split; [exact HB|].
    split; [change (total_inputs example_gates) with 2%Z in Hlen; lia|].
    destruct (Hj 0 0 [m2_rot 2] (m2_rot 2) eq_refl eq_refl) as (r0 & x0 & Hr0 & Hh0 & -> & Hd0).
    destruct (Hj 2 0 [m2_rot 4] (m2_rot 4) eq_refl eq_refl) as (r1 & x1 & Hr1 & Hh1 & -> & _).
    split; [exists r0; split; [exact Hr0|exact Hh0]|].
    split; [exists r1; split; [exact Hr1|exact Hh1]|].
    apply (Hd0 Z tangent_example_gates [[1]; []; [3]]%Z tangent_example_heap
             [1; 0; 2]
             [(mk2 0 1 1 0, m2_zero); (m2_rot 1, m2_rot 2); (m2_rot 3, m2_zero)]).
    + repeat constructor.
    + reflexivity.
    + repeat constructor.
Defined.

(** The counterexample to C1 as stated, in three parts.  (1) A product
    gate without children: [mat_jac] raises [IndexError] instead of
    returning an empty list of Jacobians.  (2) A child whose matrix is not
    unitary (here twice the identity, stored as by [UGate]): the Jacobian
    returned for the parameter of the second child is eight times the
    child's Jacobian, where [after · J · before] is twice that Jacobian.
    (3) A child that returns one array object for two equal Jacobians: the
    in-place products overwrite it twice, so both entries differ from
    [after · J · before]. *)
Lemma ProductGate_mat_jac_counterexample :
  ProductGate_mat_jac m2_mul m2_eye m2_adjoint ([] : list (GateObj M2 Z)) [] []
    = Raise IndexError
  ∧ (let Us := [mk2 2 0 0 2; m2_rot 0] in
     let J := m2_rot 1 in
     match ProductGate_mat_jac m2_mul m2_eye m2_adjoint
             [stored_gate 0; quarter_turn_gate] [0%Z] [mk2 2 0 0 2] with
     | Ok ((B, [r]), h2) => h2 !! r = Some (mk2 0 (-8) 8 0)
     | _ => False
     end
     ∧ m2_mul (prod_after m2_mul m2_eye 1 Us) (m2_mul J (prod_before m2_mul m2_eye 1 Us))
       = mk2 0 (-2) 2 0)
  ∧ (let Us := [m2_rot 1; m2_rot 1] in
     let J := mk2 1 2 3 4 in
     match ProductGate_mat_jac m2_mul m2_eye m2_adjoint
             [quarter_turn_gate; shared_jacobian_gate (m2_rot 1) J]
             [1%Z; 0%Z; 0%Z] [] with
     | Ok ((B, [_; r1; r2]), h2) =>
         h2 !! r1 = Some (mk2 (-1) (-2) (-3) (-4))
         ∧ h2 !! r2 = Some (mk2 (-1) (-2) (-3) (-4))
     | _ => False
     end
     ∧ Forall (unitary m2_mul m2_eye m2_adjoint) Us
     ∧ m2_mul (prod_after m2_mul m2_eye 1 Us) (m2_mul J (prod_before m2_mul m2_eye 1 Us))
       = mk2 2 (-1) 4 (-3)).
Proof.
  split; [reflexivity|]. split.
  - split; [vm_compute; reflexivity|reflexivity].
  - split; [vm_compute; split; reflexivity|].
    split; [repeat constructor|reflexivity].
Qed.

(** The counterexample to C3 as stated: a Kronecker gate without
    children.  [mat_jac] raises [IndexError] on it, it returns nothing. *)
Lemma KroneckerGate_mat_jac_counterexample :
  KroneckerGate_mat_jac dense_kron ([] : list (GateObj (list (list Z)) Z)) [] []
    = Raise IndexError
  ∧ ¬ ∃ r, KroneckerGate_mat_jac dense_kron ([] : list (GateObj (list (list Z)) Z)) [] []
           = Ok r.
Proof. split; [reflexivity|]. intros [r Hr]. discriminate Hr. Qed.

(** Shear, swap and shear side by side, on the parameters [5; 7]. *)
Lemma KroneckerGate_matrix_witness :
  ∃ U h2,
    KroneckerGate_matrix dense_kron kron_example_gates [5; 7]%Z kron_example_heap = Ok (U, h2)
    ∧ h2 !! U = Some (dense_kron (dense_kron [[1; 5]; [0; 1]] [[0; 1]; [1; 0]]) [[1; 7]; [0; 1]])%Z.
Proof.
  destruct (KroneckerGate_matrix_spec dense_kron kron_example_gates [[5]; []; [7]]%Z
              kron_example_heap
              [1; 0; 2]
              [[[0; 1]; [1; 0]]; [[1; 5]; [0; 1]]; [[1; 7]; [0; 1]]]%Z
              [[[1; 5]; [0; 1]]; [[0; 1]; [1; 0]]; [[1; 7]; [0; 1]]]%Z)
    as (U & h2 & E & HU & _).
  - discriminate.
  - repeat constructor.
  - reflexivity.
  - repeat constructor.
  - exists U, h2. split; [exact E|]. rewrite HU. reflexivity.
Defined.

(** The same three children with the Jacobians of the two shears. *)
Lemma KroneckerGate_mat_jac_witness :
  ∃ U jacs h2,
    KroneckerGate_mat_jac dense_kron kron_example_gates [5; 7]%Z kron_example_heap
      = Ok ((Some U, jacs), h2)
    ∧ length jacs = 2
    ∧ (∃ r, jacs !! 0 = Some r
            ∧ h2 !! r = Some (dense_kron (dense_kron [[0; 1]; [0; 0]] [[0; 1]; [1; 0]])
                                         [[1; 7]; [0; 1]])%Z)
    ∧ (∃ r, jacs !! 1 = Some r
            ∧ h2 !! r = Some (dense_kron (dense_kron [[1; 5]; [0; 1]] [[0; 1]; [1; 0]])
                                         [[0; 1]; [0; 0]])%Z).
Proof.
  destruct (KroneckerGate_mat_jac_spec dense_kron kron_example_gates [[5]; []; [7]]%Z
              kron_example_heap
              [(1, [2]); (0, []); (3, [4])]
              [[[0; 1]; [1; 0]]; [[1; 5]; [0; 1]]; [[0; 1]; [0; 0]];
               [[1; 7]; [0; 1]]; [[0; 1]; [0; 0]]]%Z
              [[[1; 5]; [0; 1]]; [[0; 1]; [1; 0]]; [[1; 7]; [0; 1]]]%Z
              [[[[0; 1]; [0; 0]]]; []; [[[0; 1]; [0; 0]]]]%Z)
    as (U & jacs & h2 & E & _ & Hlen & Hj).
  - discriminate.
  - repeat constructor.
  - reflexivity.
  - repeat constructor.
  - repeat constructor.
  - repeat constructor.
  - exists U, jacs, h2. split; [exact E|].
    split; [change (total_inputs kron_example_gates) with 2%Z in Hlen; lia|]. split.
    + exact (Hj 0 0 _ _ eq_refl eq_refl).
    + exact (Hj 2 0 _ _ eq_refl eq_refl).
Defined.

(** The product gate absorbs the children of its [ProductGate] argument
    and keeps the Kronecker gate whole; the Kronecker gate keeps all three
    arguments. *)
Lemma ProductGate_flattens_witness :
  subgates_of (ProductGate_init flatten_example)
    = ([XGate; YGate; ZGate;
        KroneckerGate_init [KroneckerGate_init [XGate]; ProductGate_init [CNOTGate]]]
       : list (Gate unit))
  ∧ subgates_of (KroneckerGate_init flatten_example) = flatten_example.
Proof.
  destruct (ProductGate_flattens flatten_example) as (Hsub & _ & _ & _ & Hk & _).
  - repeat constructor.
  - split; [rewrite Hsub; reflexivity|exact Hk].
Defined.

(** Two objects whose last phases differ: equal under [==], different
    matrices. *)
Lemma CPIPhaseGate_equal_but_different_witness :
  let g1 := (CPIPhaseGate_init 0%Z 1%Z Z.add Z.mul Z.opp list_random id [1; 2; 3; 4; 5]%Z).1 in
  let g2 := (CPIPhaseGate_init 0%Z 1%Z Z.add Z.mul Z.opp list_random id [1; 2; 3; 4; 6]%Z).1 in
  py_eq g1 g2 = Ok true
  ∧ CPIPhaseGate_matrix g1 ([] : list Z) ≠ CPIPhaseGate_matrix g2 ([] : list Z).
Proof.
  destruct (CPIPhaseGate_equal_but_different 0%Z 1%Z Z.add Z.mul Z.opp list_random id
              (λ _, 0%Z) [1; 2; 3; 4; 5]%Z [1; 2; 3; 4; 6]%Z [] [])
    as (Heq & _ & _ & _ & Hm).
  split; [exact Heq|]. intros H. apply Hm in H. discriminate H.
Defined.

(** ** Examples of the further properties *)

(** A product gate and a Kronecker gate with the same children are not
    equal, and neither are a [ProductGate] and its only child. *)
Lemma py_eq_repr_witness :
  py_eq (ProductGate_init [U3Gate; CNOTGate] : Gate unit)
        (KroneckerGate_init [U3Gate; CNOTGate])
  = Ok (bool_decide ("ProductGate(U3Gate(), CNOTGate())"
                     = "KroneckerGate(U3Gate(), CNOTGate())")).
Proof. apply py_eq_repr; reflexivity. Defined.

(** Two Kronecker gates that differ in their declared counts only. *)
Lemma py_eq_py_hash_witness :
  py_eq (KroneckerGate 5 [XGate] 7 : Gate unit) (KroneckerGate_init [XGate]) = Ok true
  ∧ py_hash length_digest (KroneckerGate 5 [XGate] 7 : Gate unit) = Ok 23%Z
  ∧ py_hash length_digest (KroneckerGate_init [XGate] : Gate unit) = Ok 23%Z
  ∧ (23 = 23)%Z.
Proof.
  split_and!; [reflexivity..|].
  apply (py_eq_py_hash length_digest (KroneckerGate 5 [XGate] 7 : Gate unit)
           (KroneckerGate_init [XGate])); reflexivity.
Defined.

(** Inserting a Kronecker gate into a product gate built from a nested
    product gate. *)
Lemma constructed_flattened_witness :
  flattened (ProductGate_inserting
               (ProductGate_init [XGate; ProductGate_init [YGate; ZGate]])
               [KroneckerGate_init [CNOTGate]] 1 : Gate unit) = true.
Proof.
  apply constructed_flattened.
  apply constructed_inserting; [|reflexivity|].
  - apply constructed_product. intros g Hg.
    apply elem_of_cons in Hg as [->|Hg]; [by apply constructed_primitive|].
    apply list_elem_of_singleton in Hg as ->.
    apply constructed_product. intros g Hg.
    apply elem_of_cons in Hg as [->|Hg]; [by apply constructed_primitive|].
    apply list_elem_of_singleton in Hg as ->. by apply constructed_primitive.
  - intros g Hg. apply list_elem_of_singleton in Hg as ->.
    apply constructed_kronecker. intros g Hg.
    apply list_elem_of_singleton in Hg as ->. by apply constructed_primitive.
Defined.

Lemma ProductGate_init_assoc_witness :
  ProductGate_init ([XGate] ++ [ProductGate_init [YGate; U3Gate]] ++ [ZGate])
  = (ProductGate_init ([XGate] ++ [YGate; U3Gate] ++ [ZGate]) : Gate unit).
Proof. apply ProductGate_init_assoc. discriminate. Defined.

Lemma ProductGate_inserting_nonneg_witness :
  subgates_of (ProductGate_inserting (ProductGate_init [XGate; YGate]) [ZGate] 0)
  = ([ZGate; XGate; YGate] : list (Gate unit)).
Proof.
  destruct (ProductGate_inserting_nonneg
              (ProductGate_init [XGate; YGate] : Gate unit) [ZGate] 0) as (_ & -> & _).
  - lia.
  - reflexivity.
Defined.

Lemma constructors_consistent_witness :
  consistent (ProductGate_init flatten_example) = true
  ∧ gate_num_inputs (ProductGate_init flatten_example) = 4%Z.
Proof.
  destruct (constructors_consistent flatten_example) as (Hc & Hn & _).
  - repeat constructor.
  - split; [exact Hc|rewrite Hn; reflexivity].
Defined.

(** A Kronecker gate over a rotation, a valid non-adjacent CNOT and a
    product gate: the product gate answers [None]. *)
Lemma KroneckerGate_validate_structure_spec_witness :
  validate_structure
    (KroneckerGate_init [XGate; NonadjacentCNOTGate 3 0 1; ProductGate_init [YGate]]
     : Gate unit)
  = Ok (PyBool false).
Proof.
  destruct (KroneckerGate_validate_structure_spec 0
              ([XGate; NonadjacentCNOTGate 3 0 1; ProductGate_init [YGate]]
               : list (Gate unit)) 0
              [PyBool true; PyBool true; PyNone]) as (_ & -> & _).
  - repeat constructor.
  - reflexivity.
Defined.

(** Shear, swap and shear: the loop calls the first shear on [5], the
    stored gate on no parameter and the second shear on [7]. *)
Lemma children_receive_their_slices_witness :
  collect_matrices kron_example_gates [5; 7]%Z 0 kron_example_heap
  = call_children matrix kron_example_gates [[5]; []; [7]]%Z kron_example_heap
  ∧ collect_matjacs kron_example_gates [5; 7]%Z 0 kron_example_heap
    = call_children mat_jac kron_example_gates [[5]; []; [7]]%Z kron_example_heap.
Proof.
  destruct (children_receive_their_slices
              (dense_matmul 0%Z Z.add Z.mul) (np_diag 0%Z [1; 1]%Z) dense_transpose
              dense_kron kron_example_gates [[5]; []; [7]]%Z kron_example_heap)
    as (Hm & Hj & _).
  - repeat constructor.
  - split; [exact Hm|exact Hj].
Defined.

Lemma assemble_total_witness :
  ∃ out,
    assemble example_mod_2pi example_pi_half
      (KroneckerGate_init [U3Gate; ProductGate_init [XGate; CNOTGate]] : Gate unit)
      [7; 8; 9; 10]%Z 0 = Ok out.
Proof. apply assemble_total; [reflexivity|reflexivity|apply Z.leb_le; reflexivity]. Defined.

Lemma assemble_CUGate_raises_witness :
  ∃ e,
    assemble example_mod_2pi example_pi_half
      (ProductGate_init [XGate; CUGate tt "CZ" false] : Gate unit) [1]%Z 0 = Raise e.
Proof.
  apply (proj2 (assemble_CUGate_raises example_mod_2pi example_pi_half)). reflexivity.
Defined.

Lemma assemble_indices_in_range_witness :
  Forall (λ x, (5 ≤ x < 5 + 4)%Z) [5; 6; 7; 8]%Z.
Proof.
  apply (assemble_indices_in_range example_mod_2pi example_pi_half
           (KroneckerGate_init [U3Gate; CNOTGate; XGate] : Gate unit)
           [1; 2; 3; 4]%Z 5
           [block_tuple [gate_tuple "U3" [PyFloat 1; PyFloat 2; PyFloat 3]%Z [5]%Z;
                         gate_tuple "CNOT" [] [6; 7]%Z;
                         gate_tuple "X" [PyFloat 4%Z] [8]%Z]]);
    reflexivity.
Defined.

Lemma ProductGate_assemble_flattening_witness :
  assemble example_mod_2pi example_pi_half
    (ProductGate_init [XGate; ProductGate_init [YGate; ZGate]] : Gate unit) [1; 2; 3]%Z 0
  = assemble example_mod_2pi example_pi_half
      (ProductGate 3 [XGate; ProductGate_init [YGate; ZGate]] 1 : Gate unit) [1; 2; 3]%Z 0.
Proof. apply ProductGate_assemble_flattening. repeat constructor. Defined.

Lemma ProductGate_assemble_appending_witness :
  assemble example_mod_2pi example_pi_half
    (ProductGate_appending (ProductGate_init [XGate; YGate]) [CNOTGate; ZGate] : Gate unit)
    [1; 2; 3]%Z 0
  = Ok ([gate_tuple "X" [PyFloat 1%Z] [0%Z]; gate_tuple "Y" [PyFloat 2%Z] [0%Z]]
        ++ [gate_tuple "CNOT" [] [0; 1]%Z; gate_tuple "Z" [PyFloat 3%Z] [0%Z]]).
Proof.
  rewrite (ProductGate_assemble_appending example_mod_2pi example_pi_half
             (ProductGate_init [XGate; YGate] : Gate unit) [CNOTGate; ZGate]).
  - reflexivity.
  - reflexivity.
  - reflexivity.
  - repeat constructor.
Defined.

#[local] Existing Instance Z_scalar.

Lemma U3Gate_mat_jac_derivative_witness :
  ∃ U Js,
    U3Gate_mat_jac [1; 2; 3]%Z = Ok (U, Js)
    ∧ U3Gate_matrix [1; 2; 3]%Z = Ok U
    ∧ length Js = 3
    ∧ ∀ k J, Js !! k = Some J →
        U3Gate_matrix (along_parameter k [1; 2; 3]%Z)
        = Ok (with_derivative U J).
Proof.
  apply (U3Gate_mat_jac_derivative (H:=Z_scalar) InitialRing.Zth [1; 2; 3]%Z).
  simpl. lia.
Defined.

Lemma U2Gate_mat_jac_derivative_witness :
  ∃ U Js,
    U2Gate_mat_jac [1; 2]%Z = Ok (U, Js)
    ∧ U2Gate_matrix [1; 2]%Z = Ok U
    ∧ length Js = 2
    ∧ ∀ k J, Js !! k = Some J →
        U2Gate_matrix (along_parameter k [1; 2]%Z)
        = Ok (with_derivative U J).
Proof.
  apply (U2Gate_mat_jac_derivative (H:=Z_scalar) InitialRing.Zth [1; 2]%Z).
  simpl. lia.
Defined.

Lemma SingleQutritGate_mat_jac_derivative_witness :
  ∃ U Js,
    SingleQutritGate_mat_jac [1; 2; 3; 4; 5; 6; 7; 8]%Z = Ok (U, Js)
    ∧ SingleQutritGate_matrix [1; 2; 3; 4; 5; 6; 7; 8]%Z = Ok U
    ∧ length Js = 8
    ∧ ∀ k J, Js !! k = Some J →
        SingleQutritGate_matrix
          (along_parameter k [1; 2; 3; 4; 5; 6; 7; 8]%Z)
        = Ok (with_derivative U J).
Proof.
  apply (SingleQutritGate_mat_jac_derivative (H:=Z_scalar) InitialRing.Zth
           [1; 2; 3; 4; 5; 6; 7; 8]%Z).
  simpl. lia.
Defined.

(** The three children side by side: the store after the children have
    returned is a prefix of the final store, and the result is new. *)
Lemma KroneckerGate_matrix_allocates_witness :
  ∃ U h2,
    KroneckerGate_matrix dense_kron kron_example_gates [5; 7]%Z kron_example_heap = Ok (U, h2)
    ∧ [[[0; 1]; [1; 0]]; [[1; 5]; [0; 1]]; [[1; 7]; [0; 1]]]%Z `prefix_of` h2
    ∧ 3 ≤ U.
Proof.
  apply (KroneckerGate_matrix_allocates dense_kron kron_example_gates [5; 7]%Z
           kron_example_heap [1; 0; 2]
           [[[0; 1]; [1; 0]]; [[1; 5]; [0; 1]]; [[1; 7]; [0; 1]]]%Z
           [[[1; 5]; [0; 1]]; [[0; 1]; [1; 0]]; [[1; 7]; [0; 1]]]%Z).
  - simpl. lia.
  - reflexivity.
  - repeat constructor.
Defined.

Lemma KroneckerGate_mat_jac_allocates_witness :
  ∃ U jacs h2,
    KroneckerGate_mat_jac dense_kron kron_example_gates [5; 7]%Z kron_example_heap
      = Ok ((Some U, jacs), h2)
    ∧ [[[0; 1]; [1; 0]]; [[1; 5]; [0; 1]]; [[0; 1]; [0; 0]];
       [[1; 7]; [0; 1]]; [[0; 1]; [0; 0]]]%Z `prefix_of` h2
    ∧ 5 ≤ U
    ∧ Forall (λ r, 5 ≤ r) jacs.
Proof.
  apply (KroneckerGate_mat_jac_allocates dense_kron kron_example_gates [5; 7]%Z
           kron_example_heap [(1, [2]); (0, []); (3, [4])]
           [[[0; 1]; [1; 0]]; [[1; 5]; [0; 1]]; [[0; 1]; [0; 0]];
            [[1; 7]; [0; 1]]; [[0; 1]; [0; 0]]]%Z
           [[[1; 5]; [0; 1]]; [[0; 1]; [1; 0]]; [[1; 7]; [0; 1]]]%Z
           [[[[0; 1]; [0; 0]]]; []; [[[0; 1]; [0; 0]]]]%Z).
  - simpl. lia.
  - reflexivity.
  - repeat constructor.
  - repeat constructor.
Defined.

Lemma ProductGate_matrix_buffers_witness :
  ∃ U h2,
    ProductGate_matrix m2_mul example_gates [1; 3]%Z example_heap = Ok (U, h2)
    ∧ [mk2 0 1 1 0; m2_rot 1; m2_rot 3] `prefix_of` h2
    ∧ 3 ≤ U.
Proof.
  apply (ProductGate_matrix_buffers m2_mul example_gates [1; 3]%Z example_heap
           [1; 0; 2]
           [mk2 0 1 1 0; m2_rot 1; m2_rot 3]
           [m2_rot 1; mk2 0 1 1 0; m2_rot 3]).
  - simpl. lia.
  - reflexivity.
  - repeat constructor.
Defined.

(** The chain of three children: the Jacobians handed back are the
    arrays 2 and 4 that the quarter turns allocated. *)
Lemma ProductGate_mat_jac_overwrites_witness :
  ∃ B jacs h2,
    ProductGate_mat_jac m2_mul m2_eye m2_adjoint example_gates [1; 3]%Z example_heap
      = Ok ((B, jacs), h2)
    ∧ jacs = [2; 4]
    ∧ 5 ≤ B
    ∧ unchanged_outside [2; 4]
        [mk2 0 1 1 0; m2_rot 1; m2_rot 2; m2_rot 3; m2_rot 4] h2.
Proof.
  apply (ProductGate_mat_jac_overwrites m2_mul m2_eye m2_adjoint example_gates [1; 3]%Z
           example_heap [(1, [2]); (0, []); (3, [4])]
           [mk2 0 1 1 0; m2_rot 1; m2_rot 2; m2_rot 3; m2_rot 4]
           [m2_rot 1; mk2 0 1 1 0; m2_rot 3]
           [[m2_rot 2]; []; [m2_rot 4]]).
  - simpl. lia.
  - reflexivity.
  - repeat constructor.
  - repeat constructor.
Defined.
